(** * The bliss interface of Sage (src/sage/graphs/bliss.pyx)

    A shallow embedding of the Cython module that hands Sage graphs to the
    bliss library: the automorphism call-back [add_gen], the two builders of
    layered graphs from labelled edge lists, [canonical_form_from_edge_list]
    and [canonical_form], the two copies of a Sage graph [bliss_graph] and
    [bliss_digraph], and [automorphism_group].

    Conventions of the embedding.
    - C integers are mathematical integers ([Z]) with the conversions the
      Cython code performs written out ([uint32] for the implicit C
      conversion to [unsigned int], [to_int] and [to_uint] for the checked
      conversions of Python objects).
    - Python exceptions are values of [exn]; a computation that can raise is
      a value of [M A], which also carries the log of bliss graph objects
      created and deleted so far.
    - bliss itself is a third-party library: a bliss graph is the record of
      the calls made on it, and the canonical labelling and the generators
      computed by bliss are parameters of the functions that use them. *)

From Stdlib Require Import ZArith Lia Ascii Sorting.Sorted.
From stdpp Require Import base decidable option numbers list sorting gmap.

Local Open Scope Z_scope.

(** ** Exceptions and the log of native objects *)

Inductive exn : Set :=
| AssertionError
| IndexError
| KeyError
| TypeError
| OverflowError.

(** [NewGraph d n] is [new Graph(n)] ([d = false]) or [new Digraph(n)]
    ([d = true]); [DelGraph] is the matching [del]. *)
Inductive event : Set :=
| NewGraph (directed : bool) (n : Z)
| DelGraph.

Definition M (A : Type) : Type := (list event * (exn + A))%type.

Definition ret {A} (a : A) : M A := ([], inr a).

Definition raise {A} (e : exn) : M A := ([], inl e).

Definition emit (ev : event) : M unit := ([ev], inr tt).

Definition bind {A B} (m : M A) (k : A → M B) : M B :=
  match m with
  | (l, inl e) => (l, inl e)
  | (l, inr a) => let '(l', r) := k a in (l ++ l', r)
  end.

#[global] Instance M_ret : MRet M := @ret.
#[global] Instance M_bind : MBind M := λ A B k m, bind m k.

(** The events of a computation and its outcome. *)
Definition events {A} (m : M A) : list event := m.1.
Definition outcome {A} (m : M A) : exn + A := m.2.

(** A computation that creates and deletes no bliss graph. *)
Definition silent {A} (m : M A) : Prop := events m = [].

(** [for x in xs: s = body(x, s)] *)
Fixpoint for_each {A S} (xs : list A) (body : A → S → M S) (s : S) : M S :=
  match xs with
  | [] => ret s
  | x :: xs' => s' ← body x s; for_each xs' body s'
  end.

(** A Python list subscript with a non-negative index. *)
Definition getitem {A} (l : list A) (i : nat) : M A :=
  match l !! i with
  | Some a => ret a
  | None => raise IndexError
  end.

(** A Python list subscript: a negative index counts from the end. *)
Definition subscript {A} (l : list A) (i : Z) : M A :=
  if bool_decide (0 ≤ i) then getitem l (Z.to_nat i)
  else if bool_decide (0 ≤ Z.of_nat (length l) + i)
       then getitem l (Z.to_nat (Z.of_nat (length l) + i))
       else raise IndexError.

(** A dictionary subscript. *)
Definition dict_get {K A} `{Countable K} (m : gmap K A) (k : K) : M A :=
  match m !! k with
  | Some a => ret a
  | None => raise KeyError
  end.

(** ** Machine integers (LP64) *)

Definition INT_MAX : Z := 2 ^ 31 - 1.
Definition INT_MIN : Z := - 2 ^ 31.
Definition UINT_MAX : Z := 2 ^ 32 - 1.
Definition LONG_MAX : Z := 2 ^ 63 - 1.

(** Implicit C conversion of an integer expression to [unsigned int]. *)
Definition uint32 (z : Z) : Z := z mod 2 ^ 32.

(** Implicit C conversion to [int] (two's complement wrap-around). *)
Definition int32 (z : Z) : Z := (z + 2 ^ 31) mod 2 ^ 32 - 2 ^ 31.

(** The cast [<unsigned long>] of a C integer. *)
Definition ulong (z : Z) : Z := z mod 2 ^ 64.

(** Checked conversion of a Python integer to a C [int]. *)
Definition to_int (z : Z) : M Z :=
  if bool_decide (INT_MIN ≤ z ≤ INT_MAX) then ret z else raise OverflowError.

(** Checked conversion of a Python integer to a C [unsigned int]. *)
Definition to_uint (z : Z) : M Z :=
  if bool_decide (0 ≤ z ≤ UINT_MAX) then ret z else raise OverflowError.

(** [range(n)] *)
Definition range (n : Z) : list Z := seqZ 0 n.

(** ** [numpy.binary_repr]

    Python strings are lists of characters.  [bin_digits p] is [bin(p)[2:]]
    for a positive [p]. *)

Fixpoint bin_digits (p : positive) : list ascii :=
  match p with
  | xH => ["1"%char]
  | xO p' => bin_digits p' ++ ["0"%char]
  | xI p' => bin_digits p' ++ ["1"%char]
  end.

(** [s.zfill(w)] and the padding with ones that numpy uses for negative
    numbers. *)
Definition pad (c : ascii) (w : nat) (s : list ascii) : list ascii :=
  replicate (w - length s)%nat c ++ s.

(** [numpy.binary_repr(num, width)]: zero gives [width] zeros (one zero
    without a width); a positive number its binary digits, filled with zeros
    on the left up to [width] and never truncated; a negative number a minus
    sign followed by the digits of its absolute value when there is no width,
    and its two's complement otherwise. *)
Definition binary_repr (num : Z) (width : option Z) : list ascii :=
  match num with
  | Z0 =>
      replicate (match width with
                 | Some w => if bool_decide (w = 0) then 1%nat else Z.to_nat w
                 | None => 1%nat
                 end) "0"%char
  | Zpos p =>
      match width with
      | None => bin_digits p
      | Some w => pad "0"%char (Z.to_nat w) (bin_digits p)
      end
  | Zneg p =>
      match width with
      | None => "-"%char :: bin_digits p
      | Some w =>
          let poswidth := Z.of_nat (length (bin_digits p)) in
          let poswidth :=
            if bool_decide (2 ^ (poswidth - 1) = Zpos p) then poswidth - 1
            else poswidth in
          let twocomp := 2 ^ (poswidth + 1) + Zneg p in
          match twocomp with
          | Zpos q => pad "1"%char (Z.to_nat w) (bin_digits q)
          | _ => pad "1"%char (Z.to_nat w) ["0"%char]
          end
      end
  end.

(** ** bliss graphs

    [bliss::Graph] and [bliss::Digraph] are seen through the four members the
    module declares.  A graph object is what was asked of it: the number of
    vertices given to the constructor, the [add_edge] calls and the
    [change_color] calls, both in call order. *)

Record BlissGraph : Set := mkBliss {
  is_digraph : bool;
  nvertices : Z;
  edges : list (Z * Z);
  colors : list (Z * Z)
}.

(** [new Graph(n)] / [new Digraph(n)].  The constructor argument is an
    [unsigned int].  Allocation is taken to succeed. *)
Definition new_graph (d : bool) (n : Z) : M BlissGraph :=
  _ ← emit (NewGraph d n); ret (mkBliss d n [] []).

Definition add_edge (g : BlissGraph) (a b : Z) : BlissGraph :=
  mkBliss (is_digraph g) (nvertices g) (edges g ++ [(a, b)]) (colors g).

Definition change_color (g : BlissGraph) (v c : Z) : BlissGraph :=
  mkBliss (is_digraph g) (nvertices g) (edges g) (colors g ++ [(v, c)]).

Definition del_graph (g : BlissGraph) : M unit := emit DelGraph.

(** Two graphs that are the same bliss object at two moments. *)
Definition same_object (g g' : BlissGraph) : Prop :=
  is_digraph g' = is_digraph g ∧ nvertices g' = nvertices g.

(** ** The automorphism call-back [add_gen]

    The two [while] loops of [add_gen] are run with fuel, and the outcome of a
    run says whether the fuel sufficed.  The counters [cur], [tmp] and
    [marker] are C [int]s, [n] and the entries of [aut] are [unsigned int]s;
    the model is over [nat] and covers [n <= INT_MAX], where the conversions
    between the two are the identity.  [aut] is a C array of [n] entries; a
    read outside it is given as [IndexError].  No exception leaves a
    [cdef void] function (Cython prints it and returns): [Raises] stands for
    a call that ends before [gens.append(perm)]. *)

Inductive run (A : Type) : Type :=
| OutOfFuel
| Raises (e : exn)
| Returns (a : A).
Arguments OutOfFuel {A}.
Arguments Raises {A}.
Arguments Returns {A}.

Section AddGen.
Context {V : Type}.

(** Lines 92-93: [while cur < n and done[cur]: cur += 1], where [k] bounds
    the number of steps ([n - cur] suffices). *)
Fixpoint next_undone (k cur : nat) (done : list bool) : nat :=
  match k with
  | O => cur
  | S k' =>
      match done !! cur with
      | Some true => next_undone k' (S cur) done
      | _ => cur
      end
  end.

(** Lines 101-104: [while aut[tmp] != marker]. *)
Fixpoint follow (fuel : nat) (aut : list nat) (int_to_vertex : gmap nat V)
    (marker tmp : nat) (done : list bool) (cycle : list V)
  : run (list bool * list V) :=
  match fuel with
  | O => OutOfFuel
  | S fuel' =>
      match aut !! tmp with
      | None => Raises IndexError
      | Some a =>
          if bool_decide (a ≠ marker) then
            let tmp := a in
            if bool_decide (tmp < length done)%nat then
              let done := <[tmp := true]> done in
              match int_to_vertex !! tmp with
              | None => Raises KeyError
              | Some v =>
                  follow fuel' aut int_to_vertex marker tmp done (cycle ++ [v])
              end
            else Raises IndexError
          else Returns (done, cycle)
      end
  end.

(** Lines 91-106: [while True], from the state [(cur, done, perm)]; every
    inner loop is given [inner] steps. *)
Fixpoint cycles (inner fuel : nat) (n : nat) (aut : list nat)
    (int_to_vertex : gmap nat V) (cur : nat) (done : list bool)
    (perm : list (list V)) : run (list (list V)) :=
  match fuel with
  | O => OutOfFuel
  | S fuel' =>
      let cur := next_undone (n - cur) cur done in
      if bool_decide (cur = n) then Returns perm
      else
        let marker := cur in
        let tmp := cur in
        match int_to_vertex !! cur with
        | None => Raises KeyError
        | Some v =>
            let cycle := [v] in
            let done := <[cur := true]> done in
            match follow inner aut int_to_vertex marker tmp done cycle with
            | OutOfFuel => OutOfFuel
            | Raises e => Raises e
            | Returns (done, cycle) =>
                cycles inner fuel' n aut int_to_vertex cur done
                  (perm ++ [cycle])
            end
        end
  end.

(** [user_param] is the pair [(gens, int_to_vertex)]; the new value of
    [gens] is returned. *)
Definition add_gen (fuel : nat) (user_param : list (list (list V)) * gmap nat V)
    (n : nat) (aut : list nat) : run (list (list (list V))) :=
  let '(gens, int_to_vertex) := user_param in
  let done := replicate n false in
  match cycles fuel fuel n aut int_to_vertex 0 done [] with
  | OutOfFuel => OutOfFuel
  | Raises e => Raises e
  | Returns perm => Returns (gens ++ [perm])
  end.

(** Lines 136-138 and 166-168: the dictionary [int2vert] that [bliss_graph]
    and [bliss_digraph] fill for [automorphism_group], which hands it to
    [add_gen] as [int_to_vertex]; [vs] is [G.vertices()]. *)
Definition int2vert_of (vs : list V) : gmap nat V :=
  foldl (λ m '(i, v), <[i := v]> m) ∅ (imap (λ i v, (i, v)) vs).
End AddGen.

(** ** Building bliss graphs from labelled edge lists

    [bliss_graph_from_labelled_edges] and [bliss_digraph_from_labelled_edges]
    are the same text up to the class of the graph and the call that writes
    the label in binary; [from_labelled_edges] is that text, with the class
    [d] and the call [repr lab logLnr] left open.  The argument [verbose],
    which only prints, is left out.  An exception raised in these [cdef]
    functions is shown as the outcome of the builder. *)

Section Builders.
Variable d : bool.
Variable repr : Z → Z → list ascii.

(** Lines 216-229: the allocation and the chain of layers.  The result is
    the graph together with [logLnr], which the source leaves unset when
    [Lnr == 1] and does not read in that case. *)
Definition allocate_layers (Vnr Lnr : Z) : M (BlissGraph * Z) :=
  if bool_decide (Lnr = 1) then
    g ← new_graph d (uint32 Vnr); ret (g, 0)
  else
    let logLnr := Z.of_nat (length (binary_repr Lnr None)) in
    g ← new_graph d (uint32 (Vnr * logLnr));
    g ← for_each (range Vnr) (λ i g,
           for_each (seqZ 1 (logLnr - 1)) (λ j g,
             ret (add_edge g (uint32 ((j - 1) * Vnr + i))
                             (uint32 (j * Vnr + i)))) g) g;
    ret (g, logLnr).

(** Lines 241-254: the edges added for one input edge [(x, y, lab)]. *)
Definition encode_edge (Vnr logLnr x y lab : Z) (g : BlissGraph)
  : M BlissGraph :=
  if bool_decide (lab ≠ 0) then
    let lab := int32 (lab + 1) in
    let binrep := repr lab logLnr in
    for_each (seqZ 0 logLnr) (λ j g,
      ind ← getitem binrep (Z.to_nat j);
      if bool_decide (ind = "1"%char) then
        ret (add_edge g (uint32 ((logLnr - 1 - j) * Vnr + x))
                        (uint32 ((logLnr - 1 - j) * Vnr + y)))
      else ret g) g
  else
    ret (add_edge g (uint32 x) (uint32 y)).

(** Lines 231-254: the loop over the input edges. *)
Definition add_labelled_edges (Vnr Lnr logLnr : Z) (Vout Vin labels : list Z)
    (g : BlissGraph) : M BlissGraph :=
  for_each (seq 0 (length Vout)) (λ i g,
    x ← getitem Vout i;
    x ← to_int x;
    y ← getitem Vin i;
    y ← to_int y;
    lab ← (if bool_decide (Lnr = 1) then ret 0
           else lab ← getitem labels i; to_int lab);
    encode_edge Vnr logLnr x y lab g) g.

(** Lines 256-257: [if not bool(partition): partition = [list(range(Vnr))]].
    The argument is a Python list or [None]. *)
Definition default_partition (Vnr : Z) (partition : option (list (list Z)))
  : list (list Z) :=
  match partition with
  | None | Some [] => [range Vnr]
  | Some p => p
  end.

(** Lines 258-269: the colours, one copy for each layer. *)
Definition colour_layers (Vnr Lnr logLnr : Z) (partition : list (list Z))
    (g : BlissGraph) : M BlissGraph :=
  let Pnr := Z.of_nat (length partition) in
  for_each (seq 0 (length partition)) (λ i g,
    cell ← getitem partition i;
    for_each cell (λ v g,
      if bool_decide (Lnr = 1) then
        v' ← to_uint v;
        ret (change_color g v' (uint32 (Z.of_nat i)))
      else
        for_each (seqZ 0 logLnr) (λ j g,
          v' ← to_uint (j * Vnr + v);
          c ← to_uint (j * Pnr + Z.of_nat i);
          ret (change_color g v' c)) g) g) g.

Definition from_labelled_edges (Vnr Lnr : Z) (Vout Vin labels : list Z)
    (partition : option (list (list Z))) : M BlissGraph :=
  '(g, logLnr) ← allocate_layers Vnr Lnr;
  g ← add_labelled_edges Vnr Lnr logLnr Vout Vin labels g;
  let partition := default_partition Vnr partition in
  colour_layers Vnr Lnr logLnr partition g.
End Builders.

(** The undirected builder writes the label with [logLnr] digits:
    [numpy.binary_repr(lab, logLnr)] (line 243). *)
Definition bliss_graph_from_labelled_edges :=
  from_labelled_edges false (λ lab logLnr, binary_repr lab (Some logLnr)).

(** The directed builder calls [numpy.binary_repr(lab)] (line 329). *)
Definition bliss_digraph_from_labelled_edges :=
  from_labelled_edges true (λ lab _, binary_repr lab None).

(** The two builders, chosen as [canonical_form_from_edge_list] does. *)
Definition builder (directed : bool) :=
  if directed then bliss_digraph_from_labelled_edges
  else bliss_graph_from_labelled_edges.

(** ** [canonical_form_from_edge_list] *)

(** [sorted] on a list whose elements are compared by [R].  Python's sort is
    stable; on the lists sorted in this module (dictionary items sorted by
    their distinct keys, tuples compared as a whole) a sorted list is unique,
    so the algorithm does not show. *)
Definition sorted {A} (R : relation A) `{!RelDecision R} (l : list A) : list A :=
  merge_sort R l.

(** What [canonical_form] reads of a Sage graph [G]: [G.vertices()],
    [G.edges(labels=True)], [G.is_directed()], [G.allows_loops()] and
    [G.allows_multiple_edges()]; [G.order()] is the number of vertices. *)
Record SageGraph (V L : Type) : Type := mkSage {
  sg_vertices : list V;
  sg_edges : list (V * V * L);
  sg_directed : bool;
  sg_loops : bool;
  sg_multiedges : bool
}.
Arguments mkSage {V L}.
Arguments sg_vertices {V L}.
Arguments sg_edges {V L}.
Arguments sg_directed {V L}.
Arguments sg_loops {V L}.
Arguments sg_multiedges {V L}.

(** Modelled from the spec: the classes [Graph] and [DiGraph] of
    sage.graphs.graph, which are not among the sources.  The graph returned
    under [return_graph] is built by the class constructor from the list of
    new edges, keeps the loop and multi-edge allowances, and receives vertices
    through [add_vertices]. *)
Record CanonicalGraph (L : Type) : Type := mkCanonical {
  cg_directed : bool;
  cg_vertices : gset Z;
  cg_edges : list (Z * Z * L);
  cg_loops : bool;
  cg_multiedges : bool
}.
Arguments mkCanonical {L}.
Arguments cg_directed {L}.
Arguments cg_vertices {L}.
Arguments cg_edges {L}.
Arguments cg_loops {L}.
Arguments cg_multiedges {L}.

(** Modelled from the spec: the constructor call
    [Graph(new_edges, loops=..., multiedges=...)] (or [DiGraph]); the
    vertices of the new graph are the ends of its edges. *)
Definition graph_of_edges {L} (directed : bool) (es : list (Z * Z * L))
    (loops multiedges : bool) : CanonicalGraph L :=
  mkCanonical directed
    (list_to_set (es.*1.*1) ∪ list_to_set (es.*1.*2)) es loops multiedges.

(** Modelled from the spec: [G.add_vertices(vs)]. *)
Definition add_vertices {L} (H : CanonicalGraph L) (vs : gset Z)
  : CanonicalGraph L :=
  mkCanonical (cg_directed H) (cg_vertices H ∪ vs) (cg_edges H)
    (cg_loops H) (cg_multiedges H).

(** What [canonical_form] returns, next to the relabelling: the sorted list
    of edges or, under [return_graph], the graph. *)
Inductive canonical (L : Type) : Type :=
| CanonEdges (es : list (Z * Z * L))
| CanonGraph (H : CanonicalGraph L).
Arguments CanonEdges {L}.
Arguments CanonGraph {L}.

(** An edge of the result: two canonical indices and a label, which is a
    Python object ([None] or an element of [labels]). *)
Definition out_edge : Type := Z * Z * option Z.

(** Lines 536-544: the tuple appended for one edge. *)
Definition oriented {Lab} (directed : bool) (e f : Z) (lab : Lab) : Z * Z * Lab :=
  if directed then (e, f, lab)
  else if bool_decide (e > f) then (e, f, lab) else (f, e, lab).

Section Canonical.
(** The canonical labelling computed by [bliss::Graph::canonical_form] and
    [bliss::Digraph::canonical_form]: the array [aut], read as a function of
    the index.  The source reads it without bounds checks. *)
Variable canonical_labelling : BlissGraph → Z → Z.

(** The result is the list of edges, with the relabelling when
    [certificate] is set ([None] stands for its absence). *)
Definition canonical_form_from_edge_list
    (Vnr : Z) (Vout Vin : list Z) (Lnr : Z) (labels : list Z)
    (partition : option (list (list Z))) (directed certificate : bool)
  : M (list out_edge * option (gmap Z Z)) :=
  if bool_decide (ulong Vnr ≤ ulong LONG_MAX) then
    g ← (if directed
         then bliss_digraph_from_labelled_edges Vnr Lnr Vout Vin labels partition
         else bliss_graph_from_labelled_edges Vnr Lnr Vout Vin labels partition);
    let aut := canonical_labelling g in
    new_edges ← for_each (seq 0 (length Vout)) (λ i new_edges,
      x ← getitem Vout i;
      y ← getitem Vin i;
      let e := aut x in
      let f := aut y in
      lab ← (if bool_decide (Lnr = 1) then
               ret (match labels with [] => None | l0 :: _ => Some l0 end)
             else lab ← getitem labels i; ret (Some lab));
      ret (new_edges ++ [oriented directed e f lab])) [];
    let relabel :=
      if certificate
      then Some (list_to_map ((λ v, (v, aut v)) <$> range Vnr) : gmap Z Z)
      else None in
    _ ← del_graph g;
    ret (new_edges, relabel)
  else raise AssertionError.

(** ** [canonical_form] *)

Context {V : Type} `{Countable V}.
Context {L : Type} `{Countable L}.
(** The order in which Python compares two labels. *)
Context (label_le : relation L) `{!RelDecision label_le}.

(** Tuples are compared component by component. *)
Definition edge_le : relation (Z * Z * L) :=
  λ '(a, b, l) '(a', b', l'),
    a < a' ∨ (a = a' ∧ (b < b' ∨ (b = b' ∧ label_le l l'))).

#[global] Instance edge_le_dec : RelDecision edge_le.
Proof. intros [[a b] l] [[a' b'] l']. unfold edge_le. apply _. Defined.

(** The order of [sorted(..., key=itemgetter(0))] on dictionary items. *)
Definition key_le : relation (L * Z) := λ a b, label_le a.1 b.1.

#[global] Instance key_le_dec : RelDecision key_le.
Proof. intros a b. unfold key_le. apply _. Defined.

(** The local variables of the loop over [G.edges(labels=True)]. *)
Record edge_scan : Type := mkScan {
  Lnr_of : Z;
  edge_labels_rev : gmap L Z;
  edge_labels : list L;
  Vout_of : list Z;
  Vin_of : list Z;
  labels_of : list Z
}.

(** Lines 450-461. *)
Definition scan_edge (vert2int : gmap V Z) (e : V * V * L) (s : edge_scan)
  : M edge_scan :=
  let '(x, y, lab) := e in
  let '(labInd, s) :=
    match edge_labels_rev s !! lab with
    | Some labInd => (labInd, s)
    | None =>
        let labInd := Lnr_of s in
        (labInd,
         mkScan (Lnr_of s + 1) (<[lab := labInd]> (edge_labels_rev s))
           (edge_labels s ++ [lab]) (Vout_of s) (Vin_of s) (labels_of s))
    end in
  x' ← dict_get vert2int x;
  y' ← dict_get vert2int y;
  ret (mkScan (Lnr_of s) (edge_labels_rev s) (edge_labels s)
         (Vout_of s ++ [x']) (Vin_of s ++ [y']) (labels_of s ++ [labInd])).

(** [edge_labels[lab]] where [lab] is a label of the edge list returned by
    [canonical_form_from_edge_list]. *)
Definition decode_label (edge_labels : list L) (lab : option Z) : M L :=
  match lab with
  | Some i => subscript edge_labels i
  | None => raise TypeError
  end.

(** Lines 446-448: the dictionary [vert2int] after the loop over
    [enumerate(G.vertices())].  The list [int2vert], which starts as
    [[None]*Vnr] and receives the vertex [v] at each position [i], is the
    list [G.vertices()] itself. *)
Definition enumerate_vertices (G : SageGraph V L) : gmap V Z :=
  foldl (λ m '(i, v), <[v := Z.of_nat i]> m) ∅
        (imap (λ i v, (i, v)) (sg_vertices G)).

(** Lines 450-461: the loop over the edges. *)
Definition scan_edges (G : SageGraph V L) : M edge_scan :=
  for_each (sg_edges G) (scan_edge (enumerate_vertices G))
    (mkScan 0 ∅ [] [] [] []).

(** Lines 463-464: [lab_relabels] and the new list [labels]. *)
Definition relabel_labels (s : edge_scan) : M (list Z) :=
  let lab_relabels :=
    (sorted key_le (map_to_list (edge_labels_rev s))).*2 in
  mapM (subscript lab_relabels) (labels_of s).

(** Line 467. *)
Definition decode_edges (edge_labels : list L) (new_edges : list out_edge)
  : M (list (Z * Z * L)) :=
  mapM (λ '(x, y, lab), l ← decode_label edge_labels lab; ret (x, y, l))
       new_edges.

(** Line 468. *)
Definition translate_relabel (int2vert : list V) (relabel : gmap Z Z)
  : M (gmap V Z) :=
  items ← mapM (λ '(i, j), v ← subscript int2vert i; ret (v, j))
             (map_to_list relabel);
  ret (list_to_map items).

(** [partition] reaches [canonical_form_from_edge_list] as it is given, so
    its entries are read as vertex indices. *)
Definition canonical_form (G : SageGraph V L)
    (partition : option (list (list Z))) (return_graph certificate : bool)
  : M (canonical L * option (gmap V Z)) :=
  let Vnr := Z.of_nat (length (sg_vertices G)) in
  if bool_decide (Vnr ≤ ulong LONG_MAX) then
    let directed := sg_directed G in
    let vert2int := enumerate_vertices G in
    let int2vert := sg_vertices G in
    s ← scan_edges G;
    labels ← relabel_labels s;
    '(new_edges, relabel) ←
      canonical_form_from_edge_list (int32 Vnr) (Vout_of s) (Vin_of s)
        (Lnr_of s) labels partition directed true;
    new_edges ← decode_edges (edge_labels s) new_edges;
    relabel ← translate_relabel int2vert (default ∅ relabel);
    let cert := if certificate then Some relabel else None in
    if return_graph then
      let G' := graph_of_edges directed new_edges
                  (sg_loops G) (sg_multiedges G) in
      ret (CanonGraph (add_vertices G' (map_img vert2int)), cert)
    else
      ret (CanonEdges (sorted edge_le new_edges), cert)
  else raise AssertionError.
End Canonical.

(** ** Building bliss graphs from Sage graphs

    [bliss_graph] and [bliss_digraph] are the same text up to the class of
    the graph and the place of the test for a failed allocation, which is
    taken not to happen; [graph_copy] is that text, with the class [d] left
    open.  The dictionaries [vert2int] and [int2vert] are arguments that the
    functions fill: their new values are returned with the graph.  The keys
    of [int2vert] are the indices that [add_gen] reads.  As for the other
    builders, an exception raised in these [cdef] functions is shown as the
    outcome. *)

Section FromGraph.
Context {V : Type} `{Countable V} {L : Type}.

(** Lines 136-138 and 166-168: the loop over [enumerate(G.vertices())]. *)
Definition record_labelling (vs : list V) (vert2int : gmap V Z)
    (int2vert : gmap nat V) : gmap V Z * gmap nat V :=
  foldl (λ '(vert2int, int2vert) '(i, v),
           (<[v := Z.of_nat i]> vert2int, <[i := v]> int2vert))
        (vert2int, int2vert) (imap (λ i v, (i, v)) vs).

(** Lines 140-141 and 173-174: the loop over [G.edges(labels=False)].  The
    arguments of [add_edge] are [unsigned int]s. *)
Definition copy_edges (vert2int : gmap V Z) (es : list (V * V))
    (g : BlissGraph) : M BlissGraph :=
  for_each es (λ '(x, y) g,
    a ← dict_get vert2int x;
    a ← to_uint a;
    b ← dict_get vert2int y;
    b ← to_uint b;
    ret (add_edge g a b)) g.

(** Lines 143-146 and 176-179: [if partition:] and the loop over
    [xrange(1, len(partition))].  The argument is a Python list or [None]. *)
Definition colour_cells (vert2int : gmap V Z)
    (partition : option (list (list V))) (g : BlissGraph) : M BlissGraph :=
  match partition with
  | None | Some [] => ret g
  | Some p =>
      for_each (seq 1 (length p - 1)) (λ i g,
        cell ← getitem p i;
        for_each cell (λ v g,
          a ← dict_get vert2int v;
          a ← to_uint a;
          c ← to_uint (Z.of_nat i);
          ret (change_color g a c)) g) g
  end.

Definition graph_copy (d : bool) (G : SageGraph V L)
    (partition : option (list (list V)))
    (vert2int : gmap V Z) (int2vert : gmap nat V)
  : M (BlissGraph * gmap V Z * gmap nat V) :=
  n ← to_uint (Z.of_nat (length (sg_vertices G)));
  g ← new_graph d n;
  let '(vert2int, int2vert) :=
    record_labelling (sg_vertices G) vert2int int2vert in
  g ← copy_edges vert2int (sg_edges G).*1 g;
  g ← colour_cells vert2int partition g;
  ret (g, vert2int, int2vert).

Definition bliss_graph := graph_copy false.

Definition bliss_digraph := graph_copy true.

(** ** [automorphism_group] *)

(** The generators that [bliss::Graph::find_automorphisms] and
    [bliss::Digraph::find_automorphisms] report for a graph: one array [aut]
    for each call of the hook. *)
Variable automorphism_generators : BlissGraph → list (list nat).

(** [find_automorphisms(s, add_gen, data)]: bliss calls [add_gen] once for
    each generator, with the number [n] of vertices of the bliss graph.  A
    call of [add_gen] that raises has not reached [gens.append(perm)]: the
    list [gens] is as it was. *)
Fixpoint find_automorphisms (fuel : nat) (int2vert : gmap nat V) (n : nat)
    (auts : list (list nat)) (gens : list (list (list V)))
  : run (list (list (list V))) :=
  match auts with
  | [] => Returns gens
  | aut :: auts' =>
      match add_gen fuel (gens, int2vert) n aut with
      | OutOfFuel => OutOfFuel
      | Raises _ => find_automorphisms fuel int2vert n auts' gens
      | Returns gens => find_automorphisms fuel int2vert n auts' gens
      end
  end.

(** The result is the list [gens] handed to [PermutationGroup], a class of
    sage.groups.perm_gps.permgroup, which is not among the sources. *)
Definition automorphism_group (fuel : nat) (G : SageGraph V L)
    (partition : option (list (list V)))
  : M (run (list (list (list V)))) :=
  let vert2int : gmap V Z := ∅ in
  let int2vert : gmap nat V := ∅ in
  let gens := [] in
  '(g, vert2int, int2vert) ←
    (if sg_directed G then bliss_digraph G partition vert2int int2vert
     else bliss_graph G partition vert2int int2vert);
  let gens :=
    find_automorphisms fuel int2vert (Z.to_nat (nvertices g))
      (automorphism_generators g) gens in
  _ ← del_graph g;
  ret gens.
End FromGraph.

(** * Vocabulary of the statements *)

(** The number of layers [logLnr = len(numpy.binary_repr(Lnr))]. *)
Definition bit_layers (Lnr : Z) : Z := Z.of_nat (length (binary_repr Lnr None)).

(** The value of [logLnr] after lines 216-229 (unset, here [0], when
    [Lnr == 1]). *)
Definition layers_of (Lnr : Z) : Z :=
  if bool_decide (Lnr = 1) then 0 else bit_layers Lnr.

(** The argument of the constructor of the bliss graph. *)
Definition layered_size (Vnr Lnr : Z) : Z :=
  if bool_decide (Lnr = 1) then uint32 Vnr else uint32 (Vnr * bit_layers Lnr).

(** The edges that chain the copies of a vertex, layer after layer. *)
Definition chain_edges (Vnr Lnr : Z) : list (Z * Z) :=
  if bool_decide (Lnr = 1) then []
  else
    range Vnr ≫= λ i,
      (λ j, (uint32 ((j - 1) * Vnr + i), uint32 (j * Vnr + i)))
        <$> seqZ 1 (bit_layers Lnr - 1).

(** The edges added for the input edge [(x, y, lab)] when the label is
    written as [binrep]: one edge in layer [logLnr - 1 - j] for every
    position [j < logLnr] that holds the character 1. *)
Definition layer_edges (binrep : list ascii) (Vnr logLnr x y : Z)
  : list (Z * Z) :=
  seqZ 0 logLnr ≫= λ j,
    if bool_decide (binrep !! Z.to_nat j = Some "1"%char)
    then [(uint32 ((logLnr - 1 - j) * Vnr + x),
           uint32 ((logLnr - 1 - j) * Vnr + y))]
    else [].

Definition label_edges (repr : Z → Z → list ascii) (Vnr logLnr x y lab : Z)
  : list (Z * Z) :=
  if bool_decide (lab ≠ 0)
  then layer_edges (repr (int32 (lab + 1)) logLnr) Vnr logLnr x y
  else [(uint32 x, uint32 y)].

(** The label of the [i]-th edge as the builders read it. *)
Definition label_at (Lnr : Z) (labels : list Z) (i : nat) : option Z :=
  if bool_decide (Lnr = 1) then Some 0 else labels !! i.

(** The edges added for the [i]-th input edge. *)
Definition input_edges (repr : Z → Z → list ascii) (Vnr Lnr : Z)
    (Vout Vin labels : list Z) (i : nat) : list (Z * Z) :=
  match Vout !! i, Vin !! i, label_at Lnr labels i with
  | Some x, Some y, Some lab => label_edges repr Vnr (layers_of Lnr) x y lab
  | _, _, _ => []
  end.

(** The colour changes made for the vertex [v] of the cell [i]. *)
Definition cell_colours (Vnr Lnr Pnr : Z) (i : nat) (v : Z) : list (Z * Z) :=
  if bool_decide (Lnr = 1) then [(v, uint32 (Z.of_nat i))]
  else (λ j, (j * Vnr + v, j * Pnr + Z.of_nat i)) <$> seqZ 0 (bit_layers Lnr).

Definition partition_colours (Vnr Lnr : Z) (partition : list (list Z))
  : list (Z * Z) :=
  seq 0 (length partition) ≫= λ i,
    default [] (partition !! i) ≫=
      cell_colours Vnr Lnr (Z.of_nat (length partition)) i.

(** The input that the doc-strings of the builders ask for: vertices
    [0 ... Vnr-1], labels [0 ... Lnr-1], one label for each edge unless
    [Lnr == 1], numbers that fit the C type [int] of the arguments and sizes
    that bliss can index. *)
Record valid_input (Vnr Lnr : Z) (Vout Vin labels : list Z)
    (partition : list (list Z)) : Prop := mkValid {
  valid_Vnr : 0 ≤ Vnr ≤ INT_MAX;
  valid_Lnr : 0 ≤ Lnr ≤ INT_MAX;
  valid_size : Vnr * bit_layers Lnr ≤ UINT_MAX;
  valid_cells : Z.of_nat (length partition) * bit_layers Lnr ≤ UINT_MAX;
  valid_Vout : Forall (λ x, 0 ≤ x < Vnr) Vout;
  valid_Vin : Forall (λ y, 0 ≤ y < Vnr) Vin;
  valid_ends : length Vin = length Vout;
  valid_labels : Lnr ≠ 1 →
    length labels = length Vout ∧ Forall (λ lab, 0 ≤ lab < Lnr) labels;
  valid_partition : Forall (Forall (λ v, 0 ≤ v < Vnr)) partition
}.

(** The colour changes that a partition asks for by itself: colour [i] for
    the vertices of the cell [i]. *)
Definition plain_colours (partition : list (list Z)) : list (Z * Z) :=
  seq 0 (length partition) ≫= λ i,
    (λ v, (v, Z.of_nat i)) <$> default [] (partition !! i).

(** The character that stands for a bit. *)
Definition bit_char (b : bool) : ascii := if b then "1"%char else "0"%char.

(** The edges that encode the number [enc] on [b] layers: one edge in the
    layer of every bit of [enc] that is set. *)
Definition bit_edges (Vnr b x y enc : Z) : list (Z * Z) :=
  seqZ 0 b ≫= λ j,
    if Z.testbit enc (b - 1 - j)
    then [((b - 1 - j) * Vnr + x, (b - 1 - j) * Vnr + y)]
    else [].

(** The label of the [i]-th edge of the result of
    [canonical_form_from_edge_list] (lines 530-540). *)
Definition out_label (Lnr : Z) (labels : list Z) (i : nat)
  : option (option Z) :=
  if bool_decide (Lnr = 1) then Some (head labels) else Some <$> labels !! i.

(** The [i]-th edge of the result, under the labelling [aut]. *)
Definition new_edge_at (aut : Z → Z) (directed : bool) (Lnr : Z)
    (Vout Vin labels : list Z) (i : nat) : list out_edge :=
  match Vout !! i, Vin !! i, out_label Lnr labels i with
  | Some x, Some y, Some lab => [oriented directed (aut x) (aut y) lab]
  | _, _, _ => []
  end.

(** The most layers that a number of labels of type [int] can ask for. *)
Definition MAX_LAYERS : Z := 31.

(** A graph of a size that the module handles: the ends of the edges are
    vertices of the graph, the numbers of vertices, of edges and of cells
    leave room for the layers, and the cells of the partition hold vertex
    indices. *)
Record well_formed {V L} (G : SageGraph V L)
    (partition : option (list (list Z))) : Prop := mkWellFormed {
  wf_ends :
    Forall (λ e, e.1.1 ∈ sg_vertices G ∧ e.1.2 ∈ sg_vertices G) (sg_edges G);
  wf_order : Z.of_nat (length (sg_vertices G)) * MAX_LAYERS ≤ UINT_MAX;
  wf_size : Z.of_nat (length (sg_edges G)) ≤ INT_MAX;
  wf_cells :
    Z.of_nat (length (default_partition
                        (Z.of_nat (length (sg_vertices G))) partition))
      * MAX_LAYERS ≤ UINT_MAX;
  wf_partition :
    Forall (Forall (λ v, 0 ≤ v < Z.of_nat (length (sg_vertices G))))
      (default_partition (Z.of_nat (length (sg_vertices G))) partition)
}.

Section ScanInvariant.
Context {L : Type} `{Countable L}.

(** What holds of the variables of the loop over the edges of a graph with
    [n] vertices. *)
Record scan_inv (n : Z) (s : @edge_scan L _ _) : Prop := mkScanInv {
  inv_Lnr : Lnr_of s = Z.of_nat (length (edge_labels s));
  inv_size : size (edge_labels_rev s) = length (edge_labels s);
  inv_rev : ∀ lab i, edge_labels_rev s !! lab = Some i → 0 ≤ i < Lnr_of s;
  inv_labels : Forall (λ i, 0 ≤ i < Lnr_of s) (labels_of s);
  inv_Vout : Forall (λ x, 0 ≤ x < n) (Vout_of s);
  inv_Vin : Forall (λ y, 0 ≤ y < n) (Vin_of s);
  inv_len_in : length (Vin_of s) = length (Vout_of s);
  inv_len_lab : length (labels_of s) = length (Vout_of s);
  inv_count : Lnr_of s ≤ Z.of_nat (length (labels_of s))
}.
End ScanInvariant.

(** The labels of the edges returned by [canonical_form_from_edge_list],
    in the order of the input edges. *)
Definition out_labels (Lnr : Z) (Vout Vin labels : list Z)
  : list (option Z) :=
  seq 0 (length Vout) ≫= λ i,
    match Vout !! i, Vin !! i, out_label Lnr labels i with
    | Some _, Some _, Some lab => [lab]
    | _, _, _ => []
    end.

Section AttachedLabels.
Context {V : Type} `{Countable V}.
Context {L : Type} `{Countable L}.
Context (label_le : relation L) `{!RelDecision label_le}.

(** The labels that [canonical_form] attaches to the edges of [G], in the
    order of [G.edges()]: the label indices handed to
    [canonical_form_from_edge_list] (lines 450-464), read back through
    [edge_labels] (line 467). *)
Definition attached_labels (G : SageGraph V L) : M (list L) :=
  s ← scan_edges G;
  labels ← relabel_labels label_le s;
  mapM (decode_label (edge_labels s))
       (out_labels (Lnr_of s) (Vout_of s) (Vin_of s) labels).
End AttachedLabels.

(** A labelling to run the functions on examples: every vertex keeps its
    index. *)
Definition identity_labelling : BlissGraph → Z → Z := λ _ v, v.

(** A triangle with two edges labelled [2] and one edge labelled [1]. *)
Definition triangle : SageGraph Z Z :=
  mkSage [0; 1; 2] [(0, 1, 2); (0, 2, 2); (1, 2, 1)] false false false.

(** The same triangle with its vertices renamed by [rotation]. *)
Definition rotation (v : Z) : Z :=
  if bool_decide (v = 0) then 2 else v - 1.

Definition rotated_triangle : SageGraph Z Z :=
  mkSage [0; 1; 2] [(0, 1, 1); (0, 2, 2); (1, 2, 2)] false false false.

(** The graph [G] with the vertices renamed by [f], as Sage lists it: the
    vertices in increasing order, the edges in the order of the triples, an
    undirected edge with its smaller end first. *)
Definition renamed (f : Z → Z) (G : SageGraph Z Z) : SageGraph Z Z :=
  mkSage (sorted Z.le (f <$> sg_vertices G))
    (sorted (edge_le Z.le)
       ((λ '(x, y, l),
           if sg_directed G then (f x, f y, l)
           else (Z.min (f x) (f y), Z.max (f x) (f y), l))
          <$> sg_edges G))
    (sg_directed G) (sg_loops G) (sg_multiedges G).

(** The graph with [n] vertices and no edge ([Graph(n)]). *)
Definition edgeless (n : Z) : SageGraph Z Z :=
  mkSage (range n) [] false false false.

(** The array [aut] is a permutation of [0 ... n-1]. *)
Definition is_permutation (n : nat) (aut : list nat) : Prop :=
  length aut = n ∧ NoDup aut ∧ Forall (λ a, (a < n)%nat) aut.

(** [done[i]] is set. *)
Definition marked (done : list bool) (i : nat) : Prop := done !! i = Some true.

(** Every point of [c] but the last is followed by its image. *)
Definition chain (aut : list nat) (c : list nat) : Prop :=
  ∀ j x y, c !! j = Some x → c !! S j = Some y → aut !! x = Some y.

(** [c] is a cycle of [aut]: a chain whose last point is sent to the
    first. *)
Definition cycle_of (aut : list nat) (c : list nat) : Prop :=
  chain aut c ∧ ∃ x y, last c = Some x ∧ head c = Some y ∧ aut !! x = Some y.

(** The cycle of vertices [cv] is the cycle of indices [c] read through
    [int_to_vertex]. *)
Definition named {V} (int_to_vertex : gmap nat V) (c : list nat)
    (cv : list V) : Prop :=
  Forall2 (λ i v, int_to_vertex !! i = Some v) c cv.

(** The path [10 - 11 - 12]: its vertices by index, and the automorphism
    that exchanges its two ends. *)
Definition path_names : gmap nat Z :=
  <[0%nat := 10]> (<[1%nat := 11]> (<[2%nat := 12]> ∅)).

Definition path_flip : list nat := [2; 1; 0]%nat.


(** The edges of [G] as [bliss_graph] adds them: the ends of every edge read
    through [vert2int]. *)
Definition numbered_edges {V L} `{Countable V} (vert2int : gmap V Z)
    (G : SageGraph V L) : list (Z * Z) :=
  (λ e, (vert2int !!! e.1.1, vert2int !!! e.1.2)) <$> sg_edges G.

(** The colour changes that [bliss_graph] makes for a partition: colour [i]
    for the vertices of the cell [i], from the second cell on. *)
Definition later_cells {V} `{Countable V} (vert2int : gmap V Z)
    (partition : option (list (list V))) : list (Z * Z) :=
  match partition with
  | None => []
  | Some p =>
      seq 1 (length p - 1) ≫= λ i,
        (λ v, (vert2int !!! v, Z.of_nat i)) <$> default [] (p !! i)
  end.

(** A graph that [bliss_graph] can copy: its order is an [unsigned int], the
    ends of its edges are among its vertices, and so are the members of the
    cells of the partition from the second cell on. *)
Record copyable {V L} (G : SageGraph V L)
    (partition : option (list (list V))) : Prop := mkCopyable {
  cp_order : Z.of_nat (length (sg_vertices G)) ≤ UINT_MAX;
  cp_ends :
    Forall (λ e, e.1.1 ∈ sg_vertices G ∧ e.1.2 ∈ sg_vertices G) (sg_edges G);
  cp_cells : ∀ p, partition = Some p →
    Z.of_nat (length p) ≤ UINT_MAX
    ∧ Forall (Forall (λ v, v ∈ sg_vertices G)) (drop 1 p)
}.

(** The path [10 - 11 - 12] as a Sage graph, and an engine that reports the
    flip of its ends as the only generator. *)
Definition path : SageGraph Z Z :=
  mkSage [10; 11; 12] [(10, 11, 0); (11, 12, 0)] false false false.

Definition path_generators : BlissGraph → list (list nat) := λ _, [path_flip].

(** What [add_gen] makes of the generator [aut] of a graph with the vertices
    [vs]: the list [perm] of cycles of vertex names, read off cycles [idx] of
    [aut] in which every vertex is listed once. *)
Definition cycles_of_generator {V} (vs : list V) (aut : list nat)
    (perm : list (list V)) : Prop :=
  ∃ idx, Forall2 (named (int2vert_of vs)) idx perm
         ∧ Forall (cycle_of aut) idx
         ∧ mjoin perm ≡ₚ vs.

(** The distinct elements of a list, in the order in which they first
    occur. *)
Definition first_seen {A} `{EqDecision A} (l : list A) : list A :=
  foldl (λ acc x, if decide (x ∈ acc) then acc else acc ++ [x]) [] l.

Section ScanTrace.
Context {V : Type} `{Countable V}.
Context {L : Type} `{Countable L}.

(** What holds of the variables of the loop over the edges once the edges
    [pre] have been read: [edge_labels] lists the labels seen in the order
    of their first occurrence, [edge_labels_rev] sends a label to its
    position in that list, and the three lists hold, for every edge read,
    the numbers of its ends and the position of its label. *)
Record scan_trace (vert2int : gmap V Z) (pre : list (V * V * L))
    (s : @edge_scan L _ _) : Prop := mkScanTrace {
  tr_labels : edge_labels s = first_seen pre.*2;
  tr_rev : ∀ lab i,
    edge_labels_rev s !! lab = Some i
    ↔ ∃ k : nat, i = Z.of_nat k ∧ edge_labels s !! k = Some lab;
  tr_Lnr : Lnr_of s = Z.of_nat (length (edge_labels s));
  tr_index :
    Forall2 (λ e i, ∃ k : nat, i = Z.of_nat k ∧ edge_labels s !! k = Some e.2)
      pre (labels_of s);
  tr_Vout : Forall2 (λ e a, vert2int !! e.1.1 = Some a) pre (Vout_of s);
  tr_Vin : Forall2 (λ e b, vert2int !! e.1.2 = Some b) pre (Vin_of s)
}.
End ScanTrace.

(** * Properties *)

(** ** The monad and its loops *)

Lemma bind_inr {A B} (m : M A) (k : A → M B) l a :
  m = (l, inr a) → m ≫= k = (l ++ events (k a), outcome (k a)).
Proof. intros ->. unfold mbind, M_bind, bind, events, outcome. by destruct (k a). Qed.


Lemma bind_ret {A B} (a : A) (k : A → M B) : ret a ≫= k = k a.
Proof. unfold mbind, M_bind, bind, ret. by destruct (k a). Qed.

Lemma bind_raise {A B} (e : exn) (k : A → M B) : raise e ≫= k = raise e.
Proof. done. Qed.

(** A bind returns exactly when both of its parts do. *)
Lemma bind_returns {A B} (m : M A) (k : A → M B) l b :
  m ≫= k = (l, inr b) ↔
  ∃ l1 a l2, m = (l1, inr a) ∧ k a = (l2, inr b) ∧ l = l1 ++ l2.
Proof.
  split.
  - destruct m as [l1 [e|a]]; [done|].
    unfold mbind, M_bind, bind. destruct (k a) as [l2 r] eqn:Hk.
    intros [= <- ->]. by exists l1, a, l2.
  - intros (l1 & a & l2 & -> & Hk & ->).
    unfold mbind, M_bind, bind. by rewrite Hk.
Qed.

Lemma outcome_bind {A B} (m : M A) (k : A → M B) b :
  outcome (m ≫= k) = inr b ↔
  ∃ a, outcome m = inr a ∧ outcome (k a) = inr b.
Proof.
  destruct m as [l1 [e|a]]; unfold outcome; simpl.
  - split; [done|]. by intros (a & ? & _).
  - unfold mbind, M_bind, bind. destruct (k a) as [l2 r2] eqn:Hka. simpl. split.
    + intros ->. exists a. by rewrite Hka.
    + intros (a' & [= <-] & Hk). by rewrite Hka in Hk.
Qed.

Lemma events_bind {A B} (m : M A) (k : A → M B) :
  events (m ≫= k) =
  events m ++ match outcome m with inr a => events (k a) | inl _ => [] end.
Proof.
  destruct m as [l [e|a]]; simpl.
  - by rewrite app_nil_r.
  - unfold mbind, M_bind, bind, events. by destruct (k a).
Qed.

(** A loop keeps what each turn of its body keeps. *)
Lemma for_each_keeps {A S} (P : S → Prop) (xs : list A) body s s' l :
  (∀ x t t' l', x ∈ xs → P t → body x t = (l', inr t') → P t') →
  P s → for_each xs body s = (l, inr s') → P s'.
Proof.
  revert s l. induction xs as [|x xs IH]; intros s l Hbody Hs; simpl.
  - by intros [= _ <-].
  - intros (l1 & t & l2 & Hx & Hrest & _)%bind_returns.
    eapply IH; [|eapply Hbody; [left|..]; done |done].
    intros y t0 t1 l' Hy. apply Hbody. by right.
Qed.

(** A loop whose body appends [F x] to a component appends them all. *)
Lemma for_each_appends {A S B} (proj : S → list B) (F : A → list B)
    (xs : list A) body s s' l :
  (∀ x t t' l', x ∈ xs → body x t = (l', inr t') → proj t' = proj t ++ F x) →
  for_each xs body s = (l, inr s') → proj s' = proj s ++ xs ≫= F.
Proof.
  revert s l. induction xs as [|x xs IH]; intros s l Hbody; simpl.
  - intros [= _ <-]. by rewrite app_nil_r.
  - intros (l1 & t & l2 & Hx & Hrest & _)%bind_returns.
    erewrite IH; [|intros y ????; apply Hbody; by right|done].
    erewrite Hbody; [|by left|done]. by rewrite app_assoc.
Qed.

(** A loop returns when every turn of its body does. *)
Lemma for_each_returns {A S} (P : S → Prop) (xs : list A) body s :
  (∀ x t, x ∈ xs → P t → ∃ t', body x t = ([], inr t') ∧ P t') →
  P s → ∃ s', for_each xs body s = ([], inr s') ∧ P s'.
Proof.
  revert s. induction xs as [|x xs IH]; intros s Hbody Hs; simpl.
  - by exists s.
  - destruct (Hbody x s) as (t & Hx & Ht); [by left|done|].
    destruct (IH t) as (s' & Hrest & Hs'); [|done|].
    { intros y t0 Hy. apply Hbody. by right. }
    exists s'. split; [|done]. erewrite bind_inr by done. by rewrite Hrest.
Qed.

(** A loop logs nothing when its body logs nothing. *)
Lemma for_each_silent {A S} (xs : list A) (body : A → S → M S) s :
  (∀ x t, events (body x t) = []) → events (for_each xs body s) = [].
Proof.
  intros Hbody. revert s. induction xs as [|x xs IH]; intros s; simpl; [done|].
  rewrite events_bind, Hbody. simpl. by destruct (outcome (body x s)).
Qed.

Lemma for_each_ext {A S} (xs : list A) (body body' : A → S → M S) s :
  (∀ x t, x ∈ xs → body x t = body' x t) →
  for_each xs body s = for_each xs body' s.
Proof.
  revert s. induction xs as [|x xs IH]; intros s Hbody; simpl; [done|].
  rewrite Hbody by left. destruct (body' x s) as [l [e|t]]; [done|].
  unfold mbind, M_bind, bind. rewrite IH; [done|]. intros y t' Hy. apply Hbody. by right.
Qed.

(** ** Inversion of the elementary steps *)

Lemma ret_inv {A} (a b : A) l : ret a = (l, inr b) → a = b ∧ l = [].
Proof. by intros [= <- <-]. Qed.

Lemma getitem_inv {A} (xs : list A) i a l :
  getitem xs i = (l, inr a) → xs !! i = Some a ∧ l = [].
Proof. unfold getitem. destruct (xs !! i); [|done]. by intros [= <- <-]. Qed.

Lemma to_int_inv z z' l :
  to_int z = (l, inr z') → z' = z ∧ INT_MIN ≤ z ≤ INT_MAX ∧ l = [].
Proof. unfold to_int. case_bool_decide; [|done]. by intros [= <- <-]. Qed.

Lemma to_uint_inv z z' l :
  to_uint z = (l, inr z') → z' = z ∧ 0 ≤ z ≤ UINT_MAX ∧ l = [].
Proof. unfold to_uint. case_bool_decide; [|done]. by intros [= <- <-]. Qed.

Lemma getitem_lookup {A} (xs : list A) i a :
  xs !! i = Some a → getitem xs i = ([], inr a).
Proof. unfold getitem. by intros ->. Qed.

Lemma to_int_in_range z : INT_MIN ≤ z ≤ INT_MAX → to_int z = ([], inr z).
Proof. intros. unfold to_int. by rewrite bool_decide_eq_true_2. Qed.

Lemma to_uint_in_range z : 0 ≤ z ≤ UINT_MAX → to_uint z = ([], inr z).
Proof. intros. unfold to_uint. by rewrite bool_decide_eq_true_2. Qed.

(** Splits the hypotheses that say that a sequence of steps returned. *)
Ltac returned :=
  repeat match goal with
  | H : _ ≫= _ = (_, inr _) |- _ =>
      apply bind_returns in H as (? & ? & ? & ? & H & ?)
  | H : ret _ = (_, inr _) |- _ => apply ret_inv in H as [? ?]
  | H : mret _ = (_, inr _) |- _ => apply ret_inv in H as [? ?]
  | H : getitem _ _ = (_, inr _) |- _ => apply getitem_inv in H as [? ?]
  | H : to_int _ = (_, inr _) |- _ => apply to_int_inv in H as (? & ? & ?)
  | H : to_uint _ = (_, inr _) |- _ => apply to_uint_inv in H as (? & ? & ?)
  end; simplify_eq/=.

(** ** The number of layers *)

Lemma length_bin_digits p :
  Z.of_nat (length (bin_digits p)) = Z.log2 (Zpos p) + 1.
Proof.
  induction p as [p IH|p IH|]; [| |done]; cbn [bin_digits];
    rewrite length_app, Nat2Z.inj_add, IH; cbn [length].
  - change (Zpos p~1) with (2 * Zpos p + 1).
    rewrite Z.log2_succ_double by lia. lia.
  - change (Zpos p~0) with (2 * Zpos p).
    rewrite Z.log2_double by lia. lia.
Qed.


Lemma bit_layers_pos Lnr : 1 ≤ bit_layers Lnr.
Proof.
  unfold bit_layers. destruct Lnr as [|p|p]; simpl; [lia| |].
  - pose proof (length_bin_digits p). pose proof (Z.log2_nonneg (Zpos p)). lia.
  - lia.
Qed.

Lemma bit_layers_0 : bit_layers 0 = 1.
Proof. done. Qed.

(** The text written for a label in the undirected builder has at least as
    many characters as there are layers. *)
Lemma length_pad c w s : (w ≤ length (pad c w s))%nat.
Proof. unfold pad. rewrite length_app, length_replicate. lia. Qed.

Lemma length_binary_repr_width num w :
  1 ≤ w → (Z.to_nat w ≤ length (binary_repr num (Some w)))%nat.
Proof.
  intros Hw. destruct num as [|p|p]; simpl.
  - rewrite bool_decide_eq_false_2 by lia. by rewrite length_replicate.
  - apply length_pad.
  - case_match; apply length_pad.
Qed.

(** ** Silent computations *)

Lemma silent_ret {A} (a : A) : silent (ret a).
Proof. done. Qed.

Lemma silent_raise {A} (e : exn) : silent (raise e : M A).
Proof. done. Qed.

Lemma silent_getitem {A} (xs : list A) i : silent (getitem xs i).
Proof. unfold getitem. by destruct (xs !! i). Qed.

Lemma silent_subscript {A} (xs : list A) i : silent (subscript xs i).
Proof. unfold subscript. repeat case_bool_decide; try apply silent_getitem; done. Qed.

Lemma silent_dict_get {K A} `{Countable K} (m : gmap K A) k :
  silent (dict_get m k).
Proof. unfold dict_get. by destruct (m !! k). Qed.

Lemma silent_to_int z : silent (to_int z).
Proof. unfold to_int. by case_bool_decide. Qed.

Lemma silent_to_uint z : silent (to_uint z).
Proof. unfold to_uint. by case_bool_decide. Qed.

Lemma silent_bind {A B} (m : M A) (k : A → M B) :
  silent m → (∀ a, silent (k a)) → silent (m ≫= k).
Proof.
  unfold silent. intros Hm Hk. rewrite events_bind, Hm.
  destruct (outcome m); [done|apply Hk].
Qed.

Lemma silent_for_each {A S} (xs : list A) (body : A → S → M S) s :
  (∀ x t, silent (body x t)) → silent (for_each xs body s).
Proof. apply for_each_silent. Qed.

Lemma silent_if {A} (b : bool) (m1 m2 : M A) :
  silent m1 → silent m2 → silent (if b then m1 else m2).
Proof. by destruct b. Qed.

Lemma silent_log {A} (m : M A) l r : silent m → m = (l, r) → l = [].
Proof. by intros Hm ->. Qed.

Create HintDb silent discriminated.
#[local] Hint Resolve silent_ret silent_raise silent_getitem silent_subscript
  silent_dict_get silent_to_int silent_to_uint silent_if : silent.
#[local] Hint Extern 2 (silent (_ ≫= _)) =>
  apply silent_bind; [|intros ?] : silent.
#[local] Hint Extern 2 (silent (for_each _ _ _)) =>
  apply silent_for_each; intros ? ? : silent.

(** ** The builders *)

Lemma new_graph_returns d n :
  new_graph d n = ([NewGraph d n], inr (mkBliss d n [] [])).
Proof. done. Qed.

Lemma same_object_refl g : same_object g g.
Proof. done. Qed.

Lemma same_object_trans g1 g2 g3 :
  same_object g1 g2 → same_object g2 g3 → same_object g1 g3.
Proof. unfold same_object. intros [] []. split; congruence. Qed.

Lemma same_object_add_edge g t a b :
  same_object g t → same_object g (add_edge t a b).
Proof. done. Qed.

Lemma same_object_change_color g t v c :
  same_object g t → same_object g (change_color t v c).
Proof. done. Qed.

#[local] Hint Resolve same_object_refl same_object_add_edge
  same_object_change_color : core.

Lemma list_bind_singleton {A B} (f : A → B) (l : list A) :
  l ≫= (λ x, [f x]) = f <$> l.
Proof. induction l as [|x l IH]; [done|]. cbn. by f_equal. Qed.

Lemma bind_returned {A B} (m : M A) (k : A → M B) a :
  m = ([], inr a) → m ≫= k = k a.
Proof. intros ->. apply bind_ret. Qed.

Lemma for_each_total {A S} (xs : list A) (body : A → S → M S) s :
  (∀ x t, x ∈ xs → ∃ t', body x t = ([], inr t')) →
  ∃ s', for_each xs body s = ([], inr s').
Proof.
  intros Hbody.
  destruct (for_each_returns (λ _, True) xs body s) as (s' & Hs' & _);
    [|done|by exists s'].
  intros x t Hx _. destruct (Hbody x t Hx) as [t' Ht']. by exists t'.
Qed.

Section BuilderFacts.
Variable d : bool.
Variable repr : Z → Z → list ascii.

Lemma allocate_layers_returns Vnr Lnr :
  ∃ g, allocate_layers d Vnr Lnr
       = ([NewGraph d (layered_size Vnr Lnr)], inr (g, layers_of Lnr))
     ∧ is_digraph g = d ∧ nvertices g = layered_size Vnr Lnr
     ∧ colors g = [] ∧ edges g = chain_edges Vnr Lnr.
Proof.
  unfold allocate_layers, layered_size, layers_of, chain_edges.
  case_bool_decide as HL.
  - eexists. split; [reflexivity|done].
  - fold (bit_layers Lnr). set (b := bit_layers Lnr).
    set (g0 := mkBliss d (uint32 (Vnr * b)) [] []).
    set (col := λ (i : Z) (g : BlissGraph),
           for_each (seqZ 1 (b - 1)) (λ j g,
             ret (add_edge g (uint32 ((j - 1) * Vnr + i))
                             (uint32 (j * Vnr + i)))) g).
    set (F := λ i, (λ j, (uint32 ((j - 1) * Vnr + i), uint32 (j * Vnr + i)))
                     <$> seqZ 1 (b - 1)).
    assert (Hcol : ∀ i g, ∃ g', col i g = ([], inr g')
        ∧ (same_object g0 g → same_object g0 g')
        ∧ colors g' = colors g ∧ edges g' = edges g ++ F i).
    { intros i g. unfold col, F. generalize (seqZ 1 (b - 1)) as js.
      intros js. revert g. induction js as [|j js IH]; intros g; cbn [for_each].
      - exists g. by rewrite app_nil_r.
      - rewrite bind_ret. destruct (IH (add_edge g (uint32 ((j - 1) * Vnr + i))
          (uint32 (j * Vnr + i)))) as (g' & -> & Hobj & Hc & He).
        exists g'. split; [done|]. split; [|split].
        + intros Hg. apply Hobj. done.
        + by rewrite Hc.
        + rewrite He. simpl. by rewrite <-app_assoc. }
    assert (Hall : ∀ vs g, same_object g0 g → ∃ g', for_each vs col g = ([], inr g')
        ∧ same_object g0 g' ∧ colors g' = colors g
        ∧ edges g' = edges g ++ vs ≫= F).
    { induction vs as [|i vs IH]; intros g Hg; cbn [for_each].
      - exists g. by rewrite app_nil_r.
      - destruct (Hcol i g) as (g1 & -> & Hobj & Hc & He).
        erewrite bind_inr by reflexivity. simpl.
        destruct (IH g1 (Hobj Hg)) as (g' & -> & Hobj' & Hc' & He').
        exists g'. split; [done|]. split; [done|]. split; [congruence|].
        rewrite He', He. by rewrite <-app_assoc. }
    destruct (Hall (range Vnr) g0) as (g & Hg & [Hd Hn] & Hc & He); [done|].
    exists g. split.
    + erewrite bind_inr by apply new_graph_returns. fold g0.
      erewrite bind_inr by exact Hg. done.
    + done.
Qed.

Lemma silent_encode_edge Vnr logLnr x y lab g :
  silent (encode_edge repr Vnr logLnr x y lab g).
Proof. unfold encode_edge. case_bool_decide; eauto 10 with silent. Qed.

Lemma encode_edge_returned Vnr logLnr x y lab g g' l :
  encode_edge repr Vnr logLnr x y lab g = (l, inr g') →
  same_object g g' ∧ colors g' = colors g
  ∧ edges g' = edges g ++ label_edges repr Vnr logLnr x y lab.
Proof.
  unfold encode_edge, label_edges, layer_edges. case_bool_decide as Hlab.
  - intros Hloop. split; [|split].
    + eapply (for_each_keeps (same_object g)) in Hloop; [done| |done].
      intros j t t' l' _ Ht Hj. returned. case_bool_decide; returned; done.
    + eapply (for_each_keeps (λ t, colors t = colors g)) in Hloop; [done| |done].
      intros j t t' l' _ Ht Hj. returned. case_bool_decide; returned; done.
    + eapply for_each_appends in Hloop; [done|].
      intros j t t' l' _ Hj. returned.
      match goal with H : _ !! _ = Some _ |- _ => rewrite H end.
      case_bool_decide as Hind; returned.
      * done.
      * rewrite ?bool_decide_eq_false_2 by congruence. by rewrite app_nil_r.
  - intros [<- _]%ret_inv. done.
Qed.

Lemma silent_add_labelled_edges Vnr Lnr logLnr Vout Vin labels g :
  silent (add_labelled_edges repr Vnr Lnr logLnr Vout Vin labels g).
Proof.
  unfold add_labelled_edges.
  eauto 20 using silent_encode_edge with silent.
Qed.

Lemma label_step_returned Lnr (labels : list Z) i lab l :
  (if bool_decide (Lnr = 1) then ret 0
   else lab ← getitem labels i; to_int lab) = (l, inr lab) →
  label_at Lnr labels i = Some lab.
Proof.
  unfold label_at. case_bool_decide; intros; returned; done.
Qed.

Lemma add_labelled_edges_returned Vnr Lnr Vout Vin labels g g' l :
  add_labelled_edges repr Vnr Lnr (layers_of Lnr) Vout Vin labels g
    = (l, inr g') →
  same_object g g' ∧ colors g' = colors g
  ∧ edges g' = edges g
      ++ seq 0 (length Vout) ≫= input_edges repr Vnr Lnr Vout Vin labels.
Proof.
  unfold add_labelled_edges. intros Hloop.
  assert (Hbody : ∀ i t t' l',
    (x ← getitem Vout i; x ← to_int x; y ← getitem Vin i; y ← to_int y;
     lab ← (if bool_decide (Lnr = 1) then ret 0
            else lab ← getitem labels i; to_int lab);
     encode_edge repr Vnr (layers_of Lnr) x y lab t) = (l', inr t') →
    same_object t t' ∧ colors t' = colors t
    ∧ edges t' = edges t ++ input_edges repr Vnr Lnr Vout Vin labels i).
  { intros i t t' l' Hi. returned.
    match goal with H : (if _ then _ else _) = _ |- _ =>
      apply label_step_returned in H as Hlab end.
    match goal with H : encode_edge _ _ _ _ _ _ _ = _ |- _ =>
      apply encode_edge_returned in H as (? & ? & He) end.
    unfold input_edges. by repeat match goal with H : _ = Some _ |- _ => rewrite H end. }
  split; [|split].
  - eapply (for_each_keeps (same_object g)) in Hloop; [done| |done].
    intros i t t' l' _ Ht (Ht' & _ & _)%Hbody. by eapply same_object_trans.
  - eapply (for_each_keeps (λ t, colors t = colors g)) in Hloop; [done| |done].
    intros i t t' l' _ Ht (_ & ? & _)%Hbody. congruence.
  - eapply for_each_appends in Hloop; [done|].
    intros i t t' l' _ (_ & _ & ?)%Hbody. done.
Qed.

Lemma silent_colour_layers Vnr Lnr logLnr partition g :
  silent (colour_layers Vnr Lnr logLnr partition g).
Proof. unfold colour_layers. eauto 30 with silent. Qed.

Lemma colour_layers_returned Vnr Lnr partition g g' l :
  colour_layers Vnr Lnr (layers_of Lnr) partition g = (l, inr g') →
  same_object g g' ∧ edges g' = edges g
  ∧ colors g' = colors g ++ partition_colours Vnr Lnr partition.
Proof.
  unfold colour_layers. intros Hloop.
  set (Pnr := Z.of_nat (length partition)) in *.
  assert (Hvertex : ∀ (i : nat) v t t' l',
    (if bool_decide (Lnr = 1) then
       v' ← to_uint v; ret (change_color t v' (uint32 (Z.of_nat i)))
     else
       for_each (seqZ 0 (layers_of Lnr)) (λ j g,
         v' ← to_uint (j * Vnr + v);
         c ← to_uint (j * Pnr + Z.of_nat i);
         ret (change_color g v' c)) t) = (l', inr t') →
    same_object t t' ∧ edges t' = edges t
    ∧ colors t' = colors t ++ cell_colours Vnr Lnr Pnr i v).
  { intros i v t t' l'. unfold cell_colours, layers_of.
    case_bool_decide as HL; intros Hv.
    - returned. auto.
    - split; [|split].
      + eapply (for_each_keeps (same_object t)) in Hv; [done| |done].
        intros j u u' l0 _ Hu Hj. returned. auto.
      + eapply (for_each_keeps (λ u, edges u = edges t)) in Hv; [done| |done].
        intros j u u' l0 _ Hu Hj. returned. done.
      + eapply (for_each_appends colors
            (λ j, [(j * Vnr + v, j * Pnr + Z.of_nat i)])) in Hv.
        * by rewrite Hv, list_bind_singleton.
        * intros j u u' l0 _ Hj. returned. done. }
  assert (Hcell : ∀ (i : nat) cell t t' l',
    for_each cell (λ v g,
      if bool_decide (Lnr = 1) then
        v' ← to_uint v; ret (change_color g v' (uint32 (Z.of_nat i)))
      else
        for_each (seqZ 0 (layers_of Lnr)) (λ j g,
          v' ← to_uint (j * Vnr + v);
          c ← to_uint (j * Pnr + Z.of_nat i);
          ret (change_color g v' c)) g) t = (l', inr t') →
    same_object t t' ∧ edges t' = edges t
    ∧ colors t' = colors t ++ cell ≫= cell_colours Vnr Lnr Pnr i).
  { intros i cell t t' l' Hc. split; [|split].
    - eapply (for_each_keeps (same_object t)) in Hc; [done| |done].
      intros v u u' l0 _ Hu (Hu' & _)%Hvertex. by eapply same_object_trans.
    - eapply (for_each_keeps (λ u, edges u = edges t)) in Hc; [done| |done].
      intros v u u' l0 _ Hu (_ & ? & _)%Hvertex. congruence.
    - eapply for_each_appends in Hc; [done|].
      intros v u u' l0 _ (_ & _ & ?)%Hvertex. done. }
  split; [|split].
  - eapply (for_each_keeps (same_object g)) in Hloop; [done| |done].
    intros i t t' l' _ Ht Hi. returned.
    match goal with H : for_each _ _ _ = _ |- _ =>
      apply Hcell in H as (Ht' & _) end.
    by eapply same_object_trans.
  - eapply (for_each_keeps (λ t, edges t = edges g)) in Hloop; [done| |done].
    intros i t t' l' _ Ht Hi. returned.
    match goal with H : for_each _ _ _ = _ |- _ =>
      apply Hcell in H as (_ & ? & _) end. congruence.
  - eapply for_each_appends in Hloop; [done|].
    intros i t t' l' _ Hi. returned.
    match goal with H : for_each _ _ _ = _ |- _ =>
      apply Hcell in H as (_ & _ & ->) end.
    match goal with H : _ !! _ = Some _ |- _ => by rewrite H end.
Qed.

Lemma events_from_labelled_edges Vnr Lnr Vout Vin labels partition :
  events (from_labelled_edges d repr Vnr Lnr Vout Vin labels partition)
  = [NewGraph d (layered_size Vnr Lnr)].
Proof.
  unfold from_labelled_edges.
  destruct (allocate_layers_returns Vnr Lnr) as (g0 & Hg0 & _).
  erewrite bind_inr by exact Hg0. unfold events at 1. cbn [fst].
  match goal with |- _ ++ events ?m = _ => assert (events m = []) as -> end;
    [|done].
  apply silent_bind; [apply silent_add_labelled_edges|].
  intros g. apply silent_colour_layers.
Qed.

Lemma from_labelled_edges_returned Vnr Lnr Vout Vin labels partition g l :
  from_labelled_edges d repr Vnr Lnr Vout Vin labels partition = (l, inr g) →
  l = [NewGraph d (layered_size Vnr Lnr)]
  ∧ is_digraph g = d ∧ nvertices g = layered_size Vnr Lnr
  ∧ edges g = chain_edges Vnr Lnr
      ++ seq 0 (length Vout) ≫= input_edges repr Vnr Lnr Vout Vin labels
  ∧ colors g = partition_colours Vnr Lnr (default_partition Vnr partition).
Proof.
  intros Hg. split.
  { pose proof (events_from_labelled_edges Vnr Lnr Vout Vin labels partition)
      as Hev. by rewrite Hg in Hev. }
  unfold from_labelled_edges in Hg.
  destruct (allocate_layers_returns Vnr Lnr) as (g0 & Hg0 & Hd & Hn & Hc & He).
  erewrite bind_inr in Hg by exact Hg0. cbn beta iota in Hg.
  destruct (add_labelled_edges _ _ _ _ _ _ _ _ ≫= _) as [l1 [e|g']] eqn:Hrest;
    [done|].
  unfold events, outcome in Hg. simpl in Hg. simplify_eq. returned.
  match goal with H : add_labelled_edges _ _ _ _ _ _ _ _ = _ |- _ =>
    apply add_labelled_edges_returned in H as ([Hd1 Hn1] & Hc1 & He1) end.
  match goal with H : colour_layers _ _ _ _ _ = _ |- _ =>
    apply colour_layers_returned in H as ([Hd2 Hn2] & He2 & Hc2) end.
  split_and!; [congruence|congruence|by rewrite He2, He1, He|by rewrite Hc2, Hc1, Hc].
Qed.

(** The builder returns a graph on valid input, as long as the text written
    for each label has a character for each layer. *)
Lemma from_labelled_edges_returns Vnr Lnr Vout Vin labels partition :
  valid_input Vnr Lnr Vout Vin labels (default_partition Vnr partition) →
  (∀ lab, 0 < lab < Lnr →
     (Z.to_nat (bit_layers Lnr) ≤ length (repr (lab + 1) (bit_layers Lnr)))%nat) →
  ∃ g, from_labelled_edges d repr Vnr Lnr Vout Vin labels partition
       = ([NewGraph d (layered_size Vnr Lnr)], inr g).
Proof.
  intros [HV HL Hsize Hcells Hout Hin Hlen Hlabs Hpart] Hrepr.
  pose proof (bit_layers_pos Lnr) as Hb.
  assert (HVnr : Vnr ≤ UINT_MAX) by nia.
  assert (HU : UINT_MAX = 4294967295) by done.
  assert (HI : INT_MAX = 2147483647 ∧ INT_MIN = -2147483648) by done.
  unfold from_labelled_edges.
  destruct (allocate_layers_returns Vnr Lnr) as (g0 & Hg0 & _).
  erewrite bind_inr by exact Hg0.
  (* the loop over the edges *)
  assert (∃ g1, add_labelled_edges repr Vnr Lnr (layers_of Lnr) Vout Vin labels g0
                = ([], inr g1)) as [g1 Hg1].
  { unfold add_labelled_edges.
    apply for_each_total.
    intros i t [_ Hi]%elem_of_seq. simpl in Hi.
    destruct (lookup_lt_is_Some_2 Vout i) as [x Hx]; [lia|].
    destruct (lookup_lt_is_Some_2 Vin i) as [y Hy]; [lia|].
    pose proof (Forall_lookup_1 _ _ _ _ Hout Hx) as Hx'.
    pose proof (Forall_lookup_1 _ _ _ _ Hin Hy) as Hy'. simpl in Hx', Hy'.
    rewrite (bind_returned _ _ _ (getitem_lookup _ _ _ Hx)).
    rewrite (bind_returned _ _ _ (to_int_in_range x ltac:(lia))).
    rewrite (bind_returned _ _ _ (getitem_lookup _ _ _ Hy)).
    rewrite (bind_returned _ _ _ (to_int_in_range y ltac:(lia))).
    assert (∃ lab, (if bool_decide (Lnr = 1) then ret 0
                    else lab ← getitem labels i; to_int lab) = ([], inr lab)
                   ∧ (lab = 0 ∨ (Lnr ≠ 1 ∧ 0 < lab < Lnr))) as (lab & Hl & Hlab).
    { case_bool_decide as H1; [by exists 0; auto|].
      destruct (Hlabs H1) as [Hll Hlr].
      destruct (lookup_lt_is_Some_2 labels i) as [lab Hlab]; [lia|].
      pose proof (Forall_lookup_1 _ _ _ _ Hlr Hlab) as Hlab'. simpl in Hlab'.
      exists lab. rewrite (bind_returned _ _ _ (getitem_lookup _ _ _ Hlab)).
      split; [apply to_int_in_range; nia|].
      destruct (decide (lab = 0)); [by left|right; lia]. }
    rewrite (bind_returned _ _ _ Hl). clear Hl.
    unfold encode_edge. case_bool_decide as Hz; [|by eexists].
    destruct Hlab as [?|[H1 Hlab]]; [done|].
    unfold layers_of. rewrite bool_decide_eq_false_2 by done.
    assert (int32 (lab + 1) = lab + 1) as ->.
    { unfold int32. rewrite Z.mod_small; nia. }
    apply for_each_total.
    intros j u [Hj1 Hj2]%elem_of_seqZ.
    destruct (lookup_lt_is_Some_2 (repr (lab + 1) (bit_layers Lnr)) (Z.to_nat j))
      as [c Hc]; [specialize (Hrepr lab Hlab); lia|].
    rewrite (bind_returned _ _ _ (getitem_lookup _ _ _ Hc)).
    case_bool_decide; by eexists. }
  rewrite (bind_returned _ _ _ Hg1). simpl.
  (* the loop over the cells *)
  assert (∃ g2, colour_layers Vnr Lnr (layers_of Lnr)
                  (default_partition Vnr partition) g1 = ([], inr g2))
    as [g2 ->]; [|by eexists].
  unfold colour_layers. set (P := default_partition Vnr partition) in *.
  apply for_each_total.
  intros i t [_ Hi]%elem_of_seq. simpl in Hi.
  destruct (lookup_lt_is_Some_2 P i) as [cell Hcell]; [lia|].
  rewrite (bind_returned _ _ _ (getitem_lookup _ _ _ Hcell)).
  pose proof (Forall_lookup_1 _ _ _ _ Hpart Hcell) as Hcell'. simpl in Hcell'.
  apply for_each_total.
  intros v u Hv. rewrite Forall_forall in Hcell'. specialize (Hcell' v Hv).
  case_bool_decide as H1.
  - rewrite (bind_returned _ _ _ (to_uint_in_range v ltac:(lia))). by eexists.
  - unfold layers_of. rewrite bool_decide_eq_false_2 by done.
    apply for_each_total.
    intros j w [Hj1 Hj2]%elem_of_seqZ.
    rewrite (bind_returned _ _ _ (to_uint_in_range (j * Vnr + v) ltac:(nia))).
    rewrite (bind_returned _ _ _
      (to_uint_in_range (j * Z.of_nat (length P) + Z.of_nat i) ltac:(nia))).
    by eexists.
Qed.
End BuilderFacts.

(** ** The shape of the layered graph *)

Lemma list_bind_fmap_seq {B} (G : nat → list B) k n :
  seq (S k) n ≫= G = seq k n ≫= (G ∘ S).
Proof.
  revert k. induction n as [|n IH]; intros k; [done|].
  cbn [seq]. rewrite !bind_cons. by rewrite IH.
Qed.

Lemma list_bind_nil {A B} (l : list A) : l ≫= (λ _, @nil B) = [].
Proof. by induction l. Qed.

(** The edges read off two lists position by position are their [zip]. *)
Lemma seq_bind_zip_with {A B C} (f : A → B → C) (xs : list A) (ys : list B) :
  seq 0 (length xs) ≫= (λ i,
    match xs !! i, ys !! i with
    | Some x, Some y => [f x y]
    | _, _ => []
    end) = zip_with f xs ys.
Proof.
  revert ys. induction xs as [|x xs IH]; intros ys; [done|].
  cbn [length seq]. rewrite bind_cons, list_bind_fmap_seq.
  destruct ys as [|y ys].
  - simpl. erewrite (list_bind_ext _ (λ _, [])); [apply list_bind_nil| |done].
    intros i. unfold compose. simpl. by destruct (xs !! i).
  - simpl. f_equal. rewrite <-IH. by apply list_bind_ext.
Qed.

Lemma uint32_small z : 0 ≤ z ≤ UINT_MAX → uint32 z = z.
Proof. intros. unfold uint32. apply Z.mod_small. unfold UINT_MAX in *. lia. Qed.

Section Shape.
Variable repr : Z → Z → list ascii.
Context (Vnr Lnr : Z) (Vout Vin labels : list Z) (partition : list (list Z)).
Hypothesis Hvalid : valid_input Vnr Lnr Vout Vin labels partition.

Lemma valid_no_edges : Lnr = 0 → Vout = [].
Proof.
  intros ->. destruct Hvalid. destruct valid_labels0 as [Hlen Hlabs]; [done|].
  destruct labels as [|lab ?]; [by destruct Vout|].
  apply Forall_cons in Hlabs as [? _]. lia.
Qed.

(** Without real labels the edges are the input edges. *)
Lemma input_edges_plain :
  Lnr ≤ 1 →
  seq 0 (length Vout) ≫= input_edges repr Vnr Lnr Vout Vin labels
  = zip Vout Vin.
Proof.
  intros HL. destruct (decide (Lnr = 1)) as [H1|H1].
  - rewrite <-(seq_bind_zip_with pair). apply list_bind_ext; [|done].
    intros i. unfold input_edges, label_at. rewrite bool_decide_eq_true_2 by done.
    destruct (Vout !! i) as [x|] eqn:Hx; [|done].
    destruct (Vin !! i) as [y|] eqn:Hy; [|done].
    unfold label_edges. rewrite bool_decide_eq_false_2 by naive_solver.
    destruct Hvalid.
    pose proof (Forall_lookup_1 _ _ _ _ valid_Vout0 Hx) as Hx'.
    pose proof (Forall_lookup_1 _ _ _ _ valid_Vin0 Hy) as Hy'. simpl in *.
    unfold INT_MAX in *.
    rewrite !uint32_small by (unfold UINT_MAX; lia). done.
  - rewrite valid_no_edges by (destruct Hvalid; lia). done.
Qed.

Lemma partition_colours_plain :
  Lnr ≤ 1 → partition_colours Vnr Lnr partition = plain_colours partition.
Proof.
  intros HL. unfold partition_colours, plain_colours.
  pose proof (bit_layers_pos Lnr) as Hb. destruct Hvalid.
  apply list_bind_ext; [|done]. intros i.
  destruct (decide (i < length partition)%nat) as [Hi|Hi].
  - rewrite <-list_bind_singleton. apply list_bind_ext; [|done]. intros v.
    unfold cell_colours. case_bool_decide.
    + rewrite uint32_small by nia. done.
    + assert (Lnr = 0) as -> by lia. rewrite bit_layers_0.
      cbn. repeat f_equal; lia.
  - rewrite lookup_ge_None_2 by lia. done.
Qed.


Lemma layered_size_valid :
  layered_size Vnr Lnr = if bool_decide (Lnr = 1) then Vnr else Vnr * bit_layers Lnr.
Proof.
  unfold layered_size. pose proof (bit_layers_pos Lnr). destruct Hvalid.
  case_bool_decide; apply uint32_small; nia.
Qed.
End Shape.

Lemma outcome_inr {A} (m : M A) a : outcome m = inr a → ∃ l, m = (l, inr a).
Proof. destruct m as [l r]. simpl. intros ->. by exists l. Qed.

Lemma builder_unfold directed :
  builder directed
  = from_labelled_edges directed
      (if directed then λ lab _, binary_repr lab None
       else λ lab logLnr, binary_repr lab (Some logLnr)).
Proof. by destruct directed. Qed.

(** The undirected builder returns a graph on every valid input. *)
Lemma bliss_graph_from_labelled_edges_returns Vnr Lnr Vout Vin labels partition :
  valid_input Vnr Lnr Vout Vin labels (default_partition Vnr partition) →
  ∃ g, bliss_graph_from_labelled_edges Vnr Lnr Vout Vin labels partition
       = ([NewGraph false (layered_size Vnr Lnr)], inr g).
Proof.
  intros Hvalid. apply from_labelled_edges_returns; [done|].
  intros lab _. apply length_binary_repr_width, bit_layers_pos.
Qed.


(** Discharges [valid_input] on concrete data. *)
Ltac valid_input_holds :=
  constructor; unfold default_partition, range, bit_layers, INT_MAX, UINT_MAX;
  simpl; try (intros ?; first [congruence | split; [reflexivity|]]);
  repeat first [apply Forall_nil_2 | apply Forall_cons_2]; try lia.


(** ** The default partition *)



(** ** The encoding of a label *)

(** The digits of [bin(p)], most significant first, are the bits of [p]. *)
Lemma bin_digits_lookup p (k : nat) :
  (k < length (bin_digits p))%nat →
  bin_digits p !! k
  = Some (bit_char (Z.testbit (Zpos p)
                      (Z.of_nat (length (bin_digits p)) - 1 - Z.of_nat k))).
Proof.
  revert k. induction p as [p IH|p IH|]; intros k; cbn [bin_digits].
  - rewrite length_app. cbn [length]. intros Hk.
    destruct (decide (k < length (bin_digits p))%nat) as [Hlt|Hge].
    + rewrite lookup_app_l, IH by done. do 2 f_equal.
      change (Zpos p~1) with (2 * Zpos p + 1).
      replace (Z.of_nat (length (bin_digits p) + 1) - 1 - Z.of_nat k)
        with (Z.succ (Z.of_nat (length (bin_digits p)) - 1 - Z.of_nat k)) by lia.
      rewrite Z.testbit_odd_succ by lia. done.
    + assert (k = length (bin_digits p)) as -> by lia.
      rewrite lookup_app_r, Nat.sub_diag by lia.
      replace (Z.of_nat (length (bin_digits p) + 1) - 1
               - Z.of_nat (length (bin_digits p))) with 0 by lia.
      done.
  - rewrite length_app. cbn [length]. intros Hk.
    destruct (decide (k < length (bin_digits p))%nat) as [Hlt|Hge].
    + rewrite lookup_app_l, IH by done. do 2 f_equal.
      change (Zpos p~0) with (2 * Zpos p).
      replace (Z.of_nat (length (bin_digits p) + 1) - 1 - Z.of_nat k)
        with (Z.succ (Z.of_nat (length (bin_digits p)) - 1 - Z.of_nat k)) by lia.
      rewrite Z.testbit_even_succ by lia. done.
    + assert (k = length (bin_digits p)) as -> by lia.
      rewrite lookup_app_r, Nat.sub_diag by lia.
      replace (Z.of_nat (length (bin_digits p) + 1) - 1
               - Z.of_nat (length (bin_digits p))) with 0 by lia.
      done.
  - simpl. intros Hk. assert (k = 0%nat) as -> by lia. done.
Qed.

(** With a width that suffices, [numpy.binary_repr(enc, w)] has the bit of
    weight [w - 1 - j] at position [j]. *)
Lemma binary_repr_width_lookup enc w j :
  0 < enc < 2 ^ w → 0 ≤ j < w →
  binary_repr enc (Some w) !! Z.to_nat j
  = Some (bit_char (Z.testbit enc (w - 1 - j))).
Proof.
  intros Henc Hj. destruct enc as [|p|p]; [lia| |lia]. cbn [binary_repr].
  pose proof (length_bin_digits p) as Hlen.
  assert (Z.log2 (Zpos p) < w) as Hlog by (apply Z.log2_lt_pow2; lia).
  unfold pad. set (n := length (bin_digits p)) in *.
  destruct (decide (Z.to_nat j < Z.to_nat w - n)%nat) as [Hpad|Hdig].
  - rewrite lookup_app_l by (rewrite length_replicate; lia).
    rewrite lookup_replicate_2 by lia.
    rewrite Z.bits_above_log2 by lia. done.
  - rewrite lookup_app_r by (rewrite length_replicate; lia).
    rewrite length_replicate, bin_digits_lookup by (fold n; lia).
    fold n. do 3 f_equal. lia.
Qed.

Lemma lt_pow2_bit_layers Lnr : 0 < Lnr → Lnr < 2 ^ bit_layers Lnr.
Proof.
  intros HL. destruct Lnr as [|p|p]; [lia| |lia]. unfold bit_layers.
  cbn [binary_repr]. rewrite length_bin_digits.
  pose proof (Z.log2_spec (Zpos p)) as Hs. rewrite <-Z.add_1_r in Hs. lia.
Qed.

(** The undirected builder encodes a label on the layers of its bits: the edges
    added for the input edge [(x, y, lab)] with [0 < lab < Lnr] are the
    copies of [(x, y)] in the layers of the bits of [lab + 1] that are set. *)
Lemma undirected_label_edges Vnr Lnr x y lab :
  0 ≤ Vnr → Vnr * bit_layers Lnr ≤ UINT_MAX → Lnr ≤ INT_MAX →
  0 ≤ x < Vnr → 0 ≤ y < Vnr → 0 < lab < Lnr →
  label_edges (λ lab logLnr, binary_repr lab (Some logLnr))
    Vnr (bit_layers Lnr) x y lab
  = bit_edges Vnr (bit_layers Lnr) x y (lab + 1).
Proof.
  intros HV Hsize HL Hx Hy Hlab. unfold label_edges, layer_edges, bit_edges.
  rewrite bool_decide_eq_true_2 by lia.
  assert (int32 (lab + 1) = lab + 1) as ->.
  { unfold int32, INT_MAX in *. rewrite Z.mod_small; lia. }
  pose proof (lt_pow2_bit_layers Lnr ltac:(lia)) as Hpow.
  apply Forall_bind_ext, Forall_forall. intros j Hj%elem_of_seqZ.
  rewrite binary_repr_width_lookup by lia.
  destruct (Z.testbit (lab + 1) (bit_layers Lnr - 1 - j)); simpl; [|done].
  rewrite !uint32_small by nia. done.
Qed.

(** C2: the directed builder writes the label without the width, so a label
    whose binary text is shorter than the number of layers is read from the
    wrong end and the loop over the layers runs off the text.  With four
    labels there are three layers; for the edge [(0, 1)] with label [1] the
    undirected builder writes 010 and adds the copy of the edge in layer 1,
    the directed builder writes 10 and raises [IndexError]. *)
Theorem directed_builder_short_label :
  binary_repr 2 (Some 3) = ["0"; "1"; "0"]%char
  ∧ binary_repr 2 None = ["1"; "0"]%char
  ∧ (∃ g, outcome (bliss_graph_from_labelled_edges 2 4 [0] [1] [1] None) = inr g
          ∧ edges g = chain_edges 2 4 ++ [(1 * 2 + 0, 1 * 2 + 1)])
  ∧ outcome (bliss_digraph_from_labelled_edges 2 4 [0] [1] [1] None)
    = inl IndexError.
Proof. split_and!; [done|done|by eexists|done]. Qed.

(** ** [canonical_form_from_edge_list] *)

Lemma for_each_grows {A St B} (proj : St → list B) (xs : list A) body s s' l :
  (∀ x t t' l', x ∈ xs → body x t = (l', inr t') →
     length (proj t') = S (length (proj t))) →
  for_each xs body s = (l, inr s') →
  length (proj s') = (length (proj s) + length xs)%nat.
Proof.
  revert s l. induction xs as [|x xs IH]; intros s l Hbody; simpl.
  - intros [= _ <-]. lia.
  - intros (l1 & t & l2 & Hx & Hrest & _)%bind_returns.
    erewrite IH; [|intros y ????; apply Hbody; by right|done].
    erewrite Hbody; [|by left|done]. lia.
Qed.

Lemma bind_ext {A B} (m : M A) (k k' : A → M B) :
  (∀ a, k a = k' a) → m ≫= k = m ≫= k'.
Proof.
  intros Hk. destruct m as [l [e|a]]; [done|].
  unfold mbind, M_bind, bind. by rewrite Hk.
Qed.

Section EdgeList.
Variable canonical_labelling : BlissGraph → Z → Z.

Lemma builder_call (directed : bool) Vnr Lnr Vout Vin labels partition :
  (if directed
   then bliss_digraph_from_labelled_edges Vnr Lnr Vout Vin labels partition
   else bliss_graph_from_labelled_edges Vnr Lnr Vout Vin labels partition)
  = builder directed Vnr Lnr Vout Vin labels partition.
Proof. by destruct directed. Qed.

Lemma out_label_step Lnr (labels : list Z) i lab l :
  (if bool_decide (Lnr = 1)
   then ret (match labels with [] => None | l0 :: _ => Some l0 end)
   else lab ← getitem labels i; ret (Some lab)) = (l, inr lab) →
  out_label Lnr labels i = Some lab ∧ l = [].
Proof.
  unfold out_label. case_bool_decide; intros; returned; [done|].
  match goal with H : _ !! _ = Some _ |- _ => by rewrite H end.
Qed.

(** What a call that returns has done: it has built one graph, asked bliss
    for its labelling, relabelled the edges in order and deleted the
    graph. *)
Lemma cffel_returned Vnr Vout Vin Lnr labels partition directed certificate
    l es r :
  canonical_form_from_edge_list canonical_labelling
    Vnr Vout Vin Lnr labels partition directed certificate = (l, inr (es, r)) →
  ulong Vnr ≤ ulong LONG_MAX
  ∧ ∃ g, builder directed Vnr Lnr Vout Vin labels partition
         = ([NewGraph directed (layered_size Vnr Lnr)], inr g)
       ∧ l = [NewGraph directed (layered_size Vnr Lnr); DelGraph]
       ∧ es = seq 0 (length Vout)
                ≫= new_edge_at (canonical_labelling g) directed Lnr
                     Vout Vin labels
       ∧ length es = length Vout
       ∧ r = (if certificate
              then Some (list_to_map
                           ((λ v, (v, canonical_labelling g v)) <$> range Vnr))
              else None).
Proof.
  unfold canonical_form_from_edge_list. case_bool_decide as Hassert; [|done].
  rewrite builder_call. intros Hrun. split; [done|].
  apply bind_returns in Hrun as (l1 & g & l2 & Hg & Hrun & ->).
  pose proof Hg as Hg'. rewrite builder_unfold in Hg'.
  apply from_labelled_edges_returned in Hg' as (-> & _).
  apply bind_returns in Hrun as (l3 & es' & l4 & Hloop & Hrun & ->).
  cbv zeta in Hrun.
  apply bind_returns in Hrun as (l5 & [] & l6 & [= <-] & [[= <- <-] ->]%ret_inv & ->).
  match type of Hloop with for_each _ ?b _ = _ => set (body := b) in Hloop end.
  assert (Hbody : ∀ i t t' l', body i t = (l', inr t') →
            ∃ e, new_edge_at (canonical_labelling g) directed
                   Lnr Vout Vin labels i = [e] ∧ t' = t ++ [e]).
  { intros i t t' l'. unfold body. intros Hi. returned.
    match goal with H : (if _ then _ else _) = _ |- _ =>
      apply out_label_step in H as [Hlab ->] end.
    unfold new_edge_at.
    repeat match goal with H : _ = Some _ |- _ => rewrite H end.
    by eexists. }
  exists g. split; [done|]. split_and!.
  - assert (l3 = []) as ->; [|done]. eapply silent_log; [|exact Hloop].
    apply silent_for_each. intros i t. unfold body.
    apply silent_bind; [auto with silent|]. intros x.
    apply silent_bind; [auto with silent|]. intros y.
    apply silent_bind; [|done].
    case_bool_decide; [done|]. auto with silent.
  - eapply (for_each_appends id) in Hloop; [exact Hloop|].
    intros i t t' l' _ (e & -> & ->)%Hbody. done.
  - eapply (for_each_grows id) in Hloop;
      [etrans; [exact Hloop|]; by rewrite length_seq|].
    intros i t t' l' _ (e & _ & ->)%Hbody. unfold id. rewrite length_app.
    simpl. lia.
  - done.
Qed.

Lemma assertion_holds Vnr : 0 ≤ Vnr ≤ INT_MAX → ulong Vnr ≤ ulong LONG_MAX.
Proof.
  intros HV. unfold ulong, INT_MAX in *. rewrite Z.mod_small by lia.
  change (LONG_MAX `mod` 2 ^ 64) with (2 ^ 63 - 1). lia.
Qed.

(** A call returns when the assertion holds, the builder returns and the
    lists are long enough. *)
Lemma cffel_returns Vnr Vout Vin Lnr labels partition directed certificate g l :
  ulong Vnr ≤ ulong LONG_MAX →
  builder directed Vnr Lnr Vout Vin labels partition = (l, inr g) →
  (length Vout ≤ length Vin)%nat →
  (Lnr ≠ 1 → (length Vout ≤ length labels)%nat) →
  ∃ es r, canonical_form_from_edge_list canonical_labelling
            Vnr Vout Vin Lnr labels partition directed certificate
          = (l ++ [DelGraph], inr (es, r)).
Proof.
  intros Hassert Hg Hin Hlabs. unfold canonical_form_from_edge_list.
  rewrite bool_decide_eq_true_2 by done. rewrite builder_call.
  erewrite bind_inr by exact Hg.
  match goal with |- context [for_each ?xs ?b ?s] =>
    destruct (for_each_total xs b s) as [es Hes] end.
  { intros i t [_ Hi]%elem_of_seq. simpl in Hi.
    destruct (lookup_lt_is_Some_2 Vout i) as [x Hx]; [lia|].
    destruct (lookup_lt_is_Some_2 Vin i) as [y Hy]; [lia|].
    rewrite (bind_returned _ _ _ (getitem_lookup _ _ _ Hx)).
    rewrite (bind_returned _ _ _ (getitem_lookup _ _ _ Hy)).
    case_bool_decide as H1.
    - rewrite bind_ret. by eexists.
    - destruct (lookup_lt_is_Some_2 labels i) as [lab Hlab]; [specialize (Hlabs H1); lia|].
      rewrite (bind_returned _ _ _ (getitem_lookup _ _ _ Hlab)).
      rewrite !bind_ret. by eexists. }
  rewrite (bind_returned _ _ _ Hes). cbv zeta. unfold del_graph.
  erewrite bind_inr by reflexivity.
  unfold events, outcome, ret. simpl. by eexists _, _.
Qed.

Lemma single_label_out_label (labels : list Z) i :
  out_label 1 labels i = Some (head labels).
Proof. done. Qed.

(** With [Lnr == 1] neither builder reads [labels]. *)
Lemma builder_single_label directed Vnr Vout Vin labels labels' partition :
  builder directed Vnr 1 Vout Vin labels partition
  = builder directed Vnr 1 Vout Vin labels' partition.
Proof.
  rewrite !builder_unfold. unfold from_labelled_edges.
  apply bind_ext. intros [g logLnr]. f_equal.
Qed.

(** C10: with [Lnr == 1] every edge returned by
    [canonical_form_from_edge_list] carries the same label, [labels[0]] when
    [labels] is not empty and [None] when it is; the call depends on [labels]
    through its first element only; and on valid input the call returns, with
    one edge for each input edge. *)
Theorem single_label_edges Vnr Vout Vin labels partition directed certificate :
  (∀ es r,
     outcome (canonical_form_from_edge_list canonical_labelling
                Vnr Vout Vin 1 labels partition directed certificate)
       = inr (es, r) →
     length es = length Vout ∧ Forall (λ e, e.2 = head labels) es)
  ∧ (∀ labels', head labels' = head labels →
       canonical_form_from_edge_list canonical_labelling
         Vnr Vout Vin 1 labels' partition directed certificate
       = canonical_form_from_edge_list canonical_labelling
           Vnr Vout Vin 1 labels partition directed certificate)
  ∧ (valid_input Vnr 1 Vout Vin labels (default_partition Vnr partition) →
     ∃ es r,
       outcome (canonical_form_from_edge_list canonical_labelling
                  Vnr Vout Vin 1 labels partition directed certificate)
       = inr (es, r)).
Proof.
  split_and!.
  - intros es r [l Hrun]%outcome_inr.
    apply cffel_returned in Hrun as (_ & g & _ & _ & -> & Hlen & _).
    split; [done|]. apply Forall_bind, Forall_forall. intros i _.
    unfold compose, new_edge_at. rewrite single_label_out_label.
    destruct (Vout !! i), (Vin !! i); try done.
    apply Forall_singleton. unfold oriented.
    destruct directed; [done|]. by case_bool_decide.
  - intros labels' Hhead. unfold canonical_form_from_edge_list.
    case_bool_decide; [|done]. rewrite !builder_call.
    rewrite (builder_single_label _ _ _ _ labels' labels).
    apply bind_ext. intros g. f_equal.
    apply for_each_ext. intros i t _.
    apply bind_ext. intros x. apply bind_ext. intros y.
    rewrite !bool_decide_eq_true_2 by done.
    change (match labels' with [] => None | l0 :: _ => Some l0 end)
      with (head labels').
    change (match labels with [] => None | l0 :: _ => Some l0 end)
      with (head labels).
    by rewrite Hhead.
  - intros Hvalid.
    destruct (from_labelled_edges_returns directed
                (if directed then λ lab _, binary_repr lab None
                 else λ lab logLnr, binary_repr lab (Some logLnr))
                Vnr 1 Vout Vin labels partition Hvalid) as [g Hg]; [lia|].
    rewrite <-builder_unfold in Hg.
    destruct (cffel_returns Vnr Vout Vin 1 labels partition directed certificate
                g _ (assertion_holds Vnr (valid_Vnr _ _ _ _ _ _ Hvalid)) Hg)
      as (es & r & Hrun); [by rewrite (valid_ends _ _ _ _ _ _ Hvalid)|done|].
    exists es, r. by rewrite Hrun.
Qed.

End EdgeList.

Lemma single_label_edges_witness :
  ∃ es r,
    outcome (canonical_form_from_edge_list identity_labelling
               3 [0; 1] [1; 2] 1 [7; 8] None false false) = inr (es, r)
    ∧ length es = 2%nat ∧ Forall (λ e, e.2 = Some 7) es.
Proof.
  destruct (single_label_edges identity_labelling 3 [0; 1] [1; 2] [7; 8] None false false)
    as (Hlabel & _ & Hret).
  assert (valid_input 3 1 [0; 1] [1; 2] [7; 8] (default_partition 3 None))
    as Hvalid by valid_input_holds.
  destruct (Hret Hvalid) as (es & r & Hrun).
  exists es, r. split; [exact Hrun|]. exact (Hlabel es r Hrun).
Defined.

(** ** The assertion on the number of vertices *)




(** The assertion of [canonical_form] can fail: a graph with more than
    [LONG_MAX] vertices is a list of that length. *)
Lemma assertion_can_fail :
  ∃ G : SageGraph Z Z, ulong LONG_MAX < Z.of_nat (length (sg_vertices G)).
Proof.
  exists (mkSage (replicate (Z.to_nat (2 ^ 63)) 0) [] false false false).
  cbn [sg_vertices]. rewrite length_replicate, Z2Nat.id by lia.
  change (ulong LONG_MAX) with (2 ^ 63 - 1). lia.
Qed.



(** ** [canonical_form] *)

Lemma mapM_returned {A B} (f : A → M B) (xs : list A) l ys :
  mapM f xs = (l, inr ys) →
  Forall2 (λ x y, ∃ l', f x = (l', inr y)) xs ys.
Proof.
  revert l ys. induction xs as [|x xs IH]; intros l ys; cbn [mapM].
  - intros [<- _]%ret_inv. constructor.
  - intros Hrun. returned. constructor; [by eexists|]. by eapply IH.
Qed.

Lemma mapM_total {A B} (f : A → M B) (xs : list A) :
  (∀ x, x ∈ xs → ∃ y, f x = ([], inr y)) →
  ∃ ys, mapM f xs = ([], inr ys).
Proof.
  induction xs as [|x xs IH]; intros Hf; cbn [mapM].
  - by eexists.
  - destruct (Hf x) as [y Hy]; [by left|].
    destruct IH as [ys Hys]; [intros z Hz; apply Hf; by right|].
    rewrite (bind_returned _ _ _ Hy), (bind_returned _ _ _ Hys). by eexists.
Qed.

Lemma silent_mapM {A B} (f : A → M B) (xs : list A) :
  (∀ x, silent (f x)) → silent (mapM f xs).
Proof.
  intros Hf. induction xs as [|x xs IH]; cbn [mapM]; [done|].
  apply silent_bind; [done|]. intros y. apply silent_bind; [done|]. done.
Qed.


Section CanonicalForm.
Variable canonical_labelling : BlissGraph → Z → Z.
Context {V : Type} `{Countable V}.
Context {L : Type} `{Countable L}.
Context (label_le : relation L) `{!RelDecision label_le}.

#[global] Instance edge_le_total : Total label_le → Total (edge_le label_le).
Proof.
  intros Htot [[a b] l] [[a' b'] l']. unfold edge_le.
  destruct (Z.lt_trichotomy a a') as [?|[->|?]];
    [by left; left| |by right; left].
  destruct (Z.lt_trichotomy b b') as [?|[->|?]];
    [by left; right; split; [|left]| |by right; right; split; [|left]].
  destruct (Htot l l'); [left|right]; right; (split; [done|]); right; done.
Qed.

#[global] Instance edge_le_trans :
  Transitive label_le → Transitive (edge_le label_le).
Proof.
  intros Htr [[a b] l] [[a' b'] l'] [[a'' b''] l'']. unfold edge_le.
  intros [?|[-> [?|[-> ?]]]] [?|[? [?|[? ?]]]]; subst; try lia.
  right. split; [done|]. right. split; [done|]. by etrans.
Qed.

Lemma decode_edges_returned (edge_labels : list L) new_edges l es :
  decode_edges edge_labels new_edges = (l, inr es) →
  Forall2 (λ e e', e'.1 = e.1
                   ∧ ∃ l', decode_label edge_labels e.2 = (l', inr e'.2))
    new_edges es.
Proof.
  intros Hrun%mapM_returned. eapply Forall2_impl; [exact Hrun|].
  intros [[x y] lab] [[x' y'] lab'] [l' Hdec]. returned. split; [done|].
  by eexists.
Qed.

(** The steps of a call that returns. *)
Lemma canonical_form_returned (G : SageGraph V L) partition return_graph
    certificate l res cert :
  canonical_form canonical_labelling label_le G partition return_graph
    certificate = (l, inr (res, cert)) →
  ∃ s labels new_edges relabel es l1 l2 l3 l4,
    scan_edges G = (l1, inr s)
    ∧ relabel_labels label_le s = (l2, inr labels)
    ∧ canonical_form_from_edge_list canonical_labelling
        (int32 (Z.of_nat (length (sg_vertices G))))
        (Vout_of s) (Vin_of s) (Lnr_of s) labels partition
        (sg_directed G) true = (l3, inr (new_edges, relabel))
    ∧ decode_edges (edge_labels s) new_edges = (l4, inr es)
    ∧ res = (if return_graph
             then CanonGraph
                    (add_vertices
                       (graph_of_edges (sg_directed G) es
                          (sg_loops G) (sg_multiedges G))
                       (map_img (enumerate_vertices G)))
             else CanonEdges (sorted (edge_le label_le) es)).
Proof.
  unfold canonical_form. case_bool_decide; [|done]. cbv zeta. intros Hrun.
  apply bind_returns in Hrun as (l1 & s & ? & Hs & Hrun & ->).
  apply bind_returns in Hrun as (l2 & labels & ? & Hlabels & Hrun & ->).
  apply bind_returns in Hrun as (l3 & [new_edges relabel] & ? & Hcall & Hrun & ->).
  apply bind_returns in Hrun as (l4 & es & ? & Hes & Hrun & ->).
  apply bind_returns in Hrun as (l5 & rel & ? & Hrel & Hrun & ->).
  exists s, labels, new_edges, relabel, es, l1, l2, l3, l4.
  split_and!; [done..|].
  destruct return_graph; apply ret_inv in Hrun as [[= <- _] _]; done.
Qed.

End CanonicalForm.

(** ** The numbering of the vertices *)

Section Enumerate.
Context {V : Type} `{Countable V}.

Lemma numbered_lookup_inv (ps : list (nat * V)) (m0 : gmap V Z) v i :
  foldl (λ m '(i, v), <[v := Z.of_nat i]> m) m0 ps !! v = Some i →
  (∃ k, (k, v) ∈ ps ∧ i = Z.of_nat k) ∨ m0 !! v = Some i.
Proof.
  induction ps as [|[k w] ps IH] using rev_ind; [by right|].
  rewrite foldl_snoc. destruct (decide (w = v)) as [->|Hne].
  - rewrite lookup_insert_eq. intros [= <-]. left. exists k.
    split; [|done]. apply elem_of_app. right. by left.
  - rewrite lookup_insert_ne by done. intros [(k' & Hk' & ->)|?]%IH; [|by right].
    left. exists k'. split; [|done]. apply elem_of_app. by left.
Qed.

Lemma numbered_lookup_is_Some (ps : list (nat * V)) (m0 : gmap V Z) v :
  v ∈ ps.*2 →
  is_Some (foldl (λ m '(i, v), <[v := Z.of_nat i]> m) m0 ps !! v).
Proof.
  induction ps as [|[k w] ps IH] using rev_ind; [by intros ?%elem_of_nil|].
  rewrite foldl_snoc, fmap_app. destruct (decide (w = v)) as [->|Hne].
  - rewrite lookup_insert_eq. by eexists.
  - rewrite lookup_insert_ne by done. intros [?|Hv]%elem_of_app; [by apply IH|].
    apply list_elem_of_singleton in Hv. simpl in Hv. congruence.
Qed.

Lemma numbered_lookup_NoDup (ps : list (nat * V)) (m0 : gmap V Z) k v :
  NoDup ps.*2 → (k, v) ∈ ps →
  foldl (λ m '(i, v), <[v := Z.of_nat i]> m) m0 ps !! v = Some (Z.of_nat k).
Proof.
  induction ps as [|[k' w] ps IH] using rev_ind; [by intros _ ?%elem_of_nil|].
  rewrite foldl_snoc, fmap_app. intros [Hnd [Hdisj _]]%NoDup_app.
  intros [Hin|Hlast]%elem_of_app.
  - rewrite lookup_insert_ne; [by apply IH|]. intros ->.
    apply (Hdisj v); [|by left].
    apply list_elem_of_fmap. by exists (k, v).
  - apply list_elem_of_singleton in Hlast as [= <- <-].
    by rewrite lookup_insert_eq.
Qed.

Lemma enumerated_pairs (vs : list V) : (imap (λ i v, (i, v)) vs).*2 = vs.
Proof.
  apply list_eq. intros i. rewrite list_lookup_fmap, list_lookup_imap.
  by destruct (vs !! i).
Qed.

Context {L : Type} (G : SageGraph V L).

(** A vertex has a number, which is a position of the vertex in
    [G.vertices()]. *)
Lemma enumerate_vertices_lookup v i :
  enumerate_vertices G !! v = Some i →
  ∃ k, sg_vertices G !! k = Some v ∧ i = Z.of_nat k.
Proof.
  intros [(k & Hk & ->)|Hempty]%numbered_lookup_inv; [|done].
  apply elem_of_lookup_imap in Hk as (k' & v' & [= <- <-] & Hk).
  by exists k.
Qed.

Lemma enumerate_vertices_is_Some v :
  v ∈ sg_vertices G →
  ∃ i, enumerate_vertices G !! v = Some i
       ∧ 0 ≤ i < Z.of_nat (length (sg_vertices G)).
Proof.
  intros Hv. destruct (numbered_lookup_is_Some
    (imap (λ i v, (i, v)) (sg_vertices G)) ∅ v) as [i Hi].
  { by rewrite enumerated_pairs. }
  exists i. split; [done|].
  apply enumerate_vertices_lookup in Hi as (k & Hk%lookup_lt_Some & ->). lia.
Qed.

(** When no vertex is listed twice, the number of a vertex is its
    position. *)
Lemma enumerate_vertices_position k v :
  NoDup (sg_vertices G) → sg_vertices G !! k = Some v →
  enumerate_vertices G !! v = Some (Z.of_nat k).
Proof.
  intros Hnd Hk. apply numbered_lookup_NoDup.
  - by rewrite enumerated_pairs.
  - by apply (elem_of_lookup_imap_2 (λ i v, (i, v))).
Qed.

(** The numbers are [0 ... n-1]. *)
Lemma enumerate_vertices_img :
  NoDup (sg_vertices G) →
  map_img (enumerate_vertices G)
  = (list_to_set (Z.of_nat <$> seq 0 (length (sg_vertices G))) : gset Z).
Proof.
  intros Hnd. apply set_eq. intros i.
  rewrite elem_of_map_img, elem_of_list_to_set, list_elem_of_fmap. split.
  - intros [v (k & Hk%lookup_lt_Some & ->)%enumerate_vertices_lookup].
    exists k. split; [done|]. apply elem_of_seq. lia.
  - intros (k & -> & Hk%elem_of_seq).
    destruct (lookup_lt_is_Some_2 (sg_vertices G) k) as [v Hv]; [lia|].
    exists v. by apply enumerate_vertices_position.
Qed.

Lemma size_enumerate_vertices_img :
  NoDup (sg_vertices G) →
  size (map_img (enumerate_vertices G) : gset Z) = length (sg_vertices G).
Proof.
  intros Hnd. rewrite enumerate_vertices_img by done.
  rewrite size_list_to_set.
  - by rewrite length_fmap, length_seq.
  - apply NoDup_fmap; [apply _|apply NoDup_seq].
Qed.
End Enumerate.

(** ** The loop over the edges of a graph *)

Lemma dict_get_lookup {K A} `{Countable K} (m : gmap K A) k a :
  m !! k = Some a → dict_get m k = ([], inr a).
Proof. unfold dict_get. by intros ->. Qed.

Lemma subscript_lookup {A} (xs : list A) i a :
  0 ≤ i → xs !! Z.to_nat i = Some a → subscript xs i = ([], inr a).
Proof.
  intros Hi Ha. unfold subscript. rewrite bool_decide_eq_true_2 by done.
  by apply getitem_lookup.
Qed.

Lemma subscript_returned {A} (xs : list A) i a l :
  subscript xs i = (l, inr a) → a ∈ xs.
Proof.
  unfold subscript. repeat case_bool_decide; try done;
    intros [Ha _]%getitem_inv; by eapply list_elem_of_lookup_2.
Qed.

Lemma bit_layers_bound Lnr : 0 ≤ Lnr ≤ INT_MAX → bit_layers Lnr ≤ MAX_LAYERS.
Proof.
  intros HL. destruct Lnr as [|p|p]; [done| |lia]. unfold bit_layers.
  cbn [binary_repr]. rewrite length_bin_digits.
  assert (Z.log2 (Zpos p) < 31); [|unfold MAX_LAYERS; lia].
  apply Z.log2_lt_pow2; unfold INT_MAX in *; lia.
Qed.

Section Scan.
Context {V : Type} `{Countable V}.
Context {L : Type} `{Countable L}.

Lemma scan_inv_init n : scan_inv (L:=L) n (mkScan 0 ∅ [] [] [] []).
Proof. constructor; simpl; done || lia. Qed.

Lemma scan_edge_returns n (vert2int : gmap V Z) x y (lab : L) i j s :
  vert2int !! x = Some i → 0 ≤ i < n →
  vert2int !! y = Some j → 0 ≤ j < n →
  scan_inv n s →
  ∃ s', scan_edge vert2int (x, y, lab) s = ([], inr s') ∧ scan_inv n s'.
Proof.
  intros Hx Hi Hy Hj [HL Hsize Hrev Hlabs Hout Hin Hlin Hllab Hcount].
  unfold scan_edge. destruct (edge_labels_rev s !! lab) as [labInd|] eqn:Hlab.
  - rewrite (bind_returned _ _ _ (dict_get_lookup _ _ _ Hx)).
    rewrite (bind_returned _ _ _ (dict_get_lookup _ _ _ Hy)).
    eexists. split; [done|]. constructor; simpl; try done.
    + apply Forall_app. split; [done|]. apply Forall_singleton. by eapply Hrev.
    + apply Forall_app. split; [done|]. by apply Forall_singleton.
    + apply Forall_app. split; [done|]. by apply Forall_singleton.
    + rewrite !length_app. simpl. lia.
    + rewrite !length_app. simpl. lia.
    + rewrite length_app. simpl. lia.
  - cbn [Lnr_of edge_labels_rev edge_labels Vout_of Vin_of labels_of].
    rewrite (bind_returned _ _ _ (dict_get_lookup _ _ _ Hx)).
    rewrite (bind_returned _ _ _ (dict_get_lookup _ _ _ Hy)).
    eexists. split; [done|]. constructor; simpl.
    + rewrite length_app. simpl. lia.
    + rewrite map_size_insert_None, length_app by done. simpl. lia.
    + intros lab' k. destruct (decide (lab = lab')) as [->|Hne].
      * rewrite lookup_insert_eq. intros [= <-]. lia.
      * rewrite lookup_insert_ne by done. intros ?%Hrev. lia.
    + apply Forall_app. split.
      * eapply Forall_impl; [done|]. simpl. intros; lia.
      * apply Forall_singleton. lia.
    + apply Forall_app. split; [done|]. by apply Forall_singleton.
    + apply Forall_app. split; [done|]. by apply Forall_singleton.
    + rewrite !length_app. simpl. lia.
    + rewrite !length_app. simpl. lia.
    + rewrite length_app. simpl. lia.
Qed.

Lemma scan_edge_grows (vert2int : gmap V Z) (e : V * V * L) s s' l :
  scan_edge vert2int e s = (l, inr s') →
  length (labels_of s') = S (length (labels_of s)).
Proof.
  destruct e as [[x y] lab]. unfold scan_edge.
  destruct (edge_labels_rev s !! lab); intros Hrun; returned;
    rewrite length_app; simpl; lia.
Qed.

(** On a well-formed graph the loop over the edges ends with lists of
    indices in range, one entry for each edge. *)
Lemma scan_edges_returns (G : SageGraph V L) partition :
  well_formed G partition →
  ∃ s, scan_edges G = ([], inr s)
       ∧ scan_inv (Z.of_nat (length (sg_vertices G))) s
       ∧ length (labels_of s) = length (sg_edges G).
Proof.
  intros [Hends _ _ _ _]. unfold scan_edges.
  destruct (for_each_returns (scan_inv (Z.of_nat (length (sg_vertices G))))
              (sg_edges G) (scan_edge (enumerate_vertices G))
              (mkScan 0 ∅ [] [] [] [])) as (s & Hs & Hinv).
  - intros [[x y] lab] t He Ht. rewrite Forall_forall in Hends.
    destruct (Hends _ He) as [Hx Hy]. simpl in Hx, Hy.
    destruct (enumerate_vertices_is_Some G x Hx) as (i & Hi & ?).
    destruct (enumerate_vertices_is_Some G y Hy) as (j & Hj & ?).
    by eapply scan_edge_returns.
  - apply scan_inv_init.
  - exists s. split; [done|]. split; [done|].
    eapply (for_each_grows labels_of) in Hs; [by rewrite Hs|].
    intros e t t' l' _. apply scan_edge_grows.
Qed.

Context (label_le : relation L) `{!RelDecision label_le}.

(** The new labels are label indices again. *)
Lemma relabel_labels_returns n s :
  scan_inv n s →
  ∃ labels, relabel_labels label_le s = ([], inr labels)
            ∧ length labels = length (labels_of s)
            ∧ Forall (λ i, 0 ≤ i < Lnr_of s) labels.
Proof.
  intros [HL Hsize Hrev Hlabs _ _ _ _ _]. unfold relabel_labels.
  set (lab_relabels := (sorted (key_le label_le)
                          (map_to_list (edge_labels_rev s))).*2).
  assert (Hlen : length lab_relabels = length (edge_labels s)).
  { unfold lab_relabels, sorted.
    by rewrite length_fmap, merge_sort_Permutation, length_map_to_list. }
  assert (Hrange : Forall (λ i, 0 ≤ i < Lnr_of s) lab_relabels).
  { unfold lab_relabels, sorted. rewrite merge_sort_Permutation.
    apply Forall_fmap, Forall_forall. intros [lab i] Hi%elem_of_map_to_list.
    simpl. by eapply Hrev. }
  destruct (mapM_total (subscript lab_relabels) (labels_of s)) as [labels Hrun].
  { intros i Hi. rewrite Forall_forall in Hlabs. specialize (Hlabs i Hi).
    destruct (lookup_lt_is_Some_2 lab_relabels (Z.to_nat i)) as [k Hk]; [lia|].
    exists k. apply subscript_lookup; [lia|done]. }
  exists labels. split; [done|]. apply mapM_returned in Hrun.
  split; [by erewrite <-Forall2_length|].
  rewrite Forall_forall in Hrange. clear -Hrun Hrange.
  induction Hrun as [|i k xs ks [l' Hk%subscript_returned] _ IH]; constructor; auto.
Qed.
End Scan.

Lemma oriented_label {Lab} d e f (lab : Lab) : (oriented d e f lab).2 = lab.
Proof. unfold oriented. destruct d; [done|]. by case_bool_decide. Qed.

Lemma int32_small z : 0 ≤ z ≤ INT_MAX → int32 z = z.
Proof.
  intros. unfold int32, INT_MAX in *. rewrite Z.mod_small by lia. lia.
Qed.

Section Returns.
Variable canonical_labelling : BlissGraph → Z → Z.
Context {V : Type} `{Countable V}.
Context {L : Type} `{Countable L}.
Context (label_le : relation L) `{!RelDecision label_le}.

(** The labels of the edges returned by [canonical_form_from_edge_list] on
    the lists made by [canonical_form] are indices of [edge_labels]. *)
Lemma new_edge_label_in_range n (s : edge_scan (L:=L)) labels aut d i e :
  scan_inv n s →
  length labels = length (labels_of s) →
  Forall (λ k, 0 ≤ k < Lnr_of s) labels →
  e ∈ new_edge_at aut d (Lnr_of s) (Vout_of s) (Vin_of s) labels i →
  ∃ k, e.2 = Some k ∧ 0 ≤ k < Z.of_nat (length (edge_labels s)).
Proof.
  intros [HL _ _ _ _ _ _ Hllab _] Hlen Hrange. unfold new_edge_at.
  destruct (Vout_of s !! i) as [x|] eqn:Hx; [|by intros ?%elem_of_nil].
  destruct (Vin_of s !! i) as [y|]; [|by intros ?%elem_of_nil].
  apply lookup_lt_Some in Hx.
  destruct (lookup_lt_is_Some_2 labels i) as [k Hk]; [lia|].
  pose proof (Forall_lookup_1 _ _ _ _ Hrange Hk) as Hk'. simpl in Hk'.
  unfold out_label. case_bool_decide as H1.
  - destruct labels as [|k0 labels']; [done|].
    apply Forall_cons in Hrange as [Hk0 _].
    intros ->%list_elem_of_singleton. rewrite oriented_label.
    exists k0. split; [done|]. lia.
  - rewrite Hk. simpl. intros ->%list_elem_of_singleton.
    rewrite oriented_label. exists k. split; [done|]. lia.
Qed.

(** On a well-formed graph that is undirected or has no edge
    [canonical_form] returns. *)
Lemma canonical_form_returns (G : SageGraph V L) partition return_graph
    certificate :
  well_formed G partition → (sg_directed G = true → sg_edges G = []) →
  ∃ l res cert,
    canonical_form canonical_labelling label_le G partition return_graph
      certificate = (l, inr (res, cert)).
Proof.
  intros Hwf Hdir. pose proof Hwf as [Hends Horder Hsize Hcells Hpart].
  set (n := Z.of_nat (length (sg_vertices G))) in *.
  assert (Hn : 0 ≤ n ≤ INT_MAX) by (unfold n, MAX_LAYERS, UINT_MAX, INT_MAX in *; lia).
  destruct (scan_edges_returns G partition Hwf) as (s & Hs & Hinv & Hlen).
  destruct (relabel_labels_returns label_le n s Hinv)
    as (labels & Hlabels & Hllen & Hlrange).
  pose proof Hinv as [HL Hrsize Hrev _ Hout Hin Hlin Hllab Hcount].
  assert (HLnr : 0 ≤ Lnr_of s ≤ INT_MAX) by (rewrite Hlen in Hcount; lia).
  pose proof (bit_layers_bound _ HLnr) as Hb.
  pose proof (bit_layers_pos (Lnr_of s)) as Hb1.
  assert (Hvalid : valid_input n (Lnr_of s) (Vout_of s) (Vin_of s) labels
                     (default_partition n partition)).
  { constructor; try done; try nia. intros _. split; [congruence|done]. }
  assert (∃ g, builder (sg_directed G) n (Lnr_of s) (Vout_of s) (Vin_of s)
                 labels partition
               = ([NewGraph (sg_directed G) (layered_size n (Lnr_of s))], inr g))
    as [g Hg].
  { rewrite builder_unfold. apply from_labelled_edges_returns; [done|].
    intros lab Hlab. destruct (sg_directed G).
    - rewrite Hlen, (Hdir eq_refl) in Hcount. simpl in Hcount. lia.
    - apply length_binary_repr_width, bit_layers_pos. }
  destruct (cffel_returns canonical_labelling n (Vout_of s) (Vin_of s)
              (Lnr_of s) labels partition (sg_directed G) true g _
              (assertion_holds n Hn) Hg) as (new_edges & r & Hcall);
    [lia|intros _; lia|].
  pose proof Hcall as (_ & g' & Hg' & _ & Hnew & _ & Hr)%cffel_returned.
  rewrite Hg in Hg'. injection Hg' as <-.
  (* the labels are put back *)
  destruct (mapM_total
    (λ '(x, y, lab), l ← decode_label (edge_labels s) lab; ret (x, y, l))
    new_edges) as [es Hes].
  { intros [[x y] lab] He. rewrite Hnew in He.
    apply list_elem_of_bind in He as (i & He & _).
    eapply new_edge_label_in_range in He as (k & Hk & Hk'); [|done..].
    simpl in Hk. subst lab.
    destruct (lookup_lt_is_Some_2 (edge_labels s) (Z.to_nat k)) as [lab Hlab];
      [lia|].
    exists (x, y, lab). cbn [decode_label].
    rewrite (bind_returned _ _ _
      (subscript_lookup (edge_labels s) k lab ltac:(lia) Hlab)).
    done. }
  (* the relabelling is translated *)
  destruct (mapM_total
    (λ '(i, j), v ← subscript (sg_vertices G) i; ret (v, j))
    (map_to_list (default ∅ r))) as [items Hitems].
  { intros [i j] Hij%elem_of_map_to_list. rewrite Hr in Hij. simpl in Hij.
    apply elem_of_list_to_map_2, list_elem_of_fmap in Hij
      as (v & [= -> ->] & Hv%elem_of_seqZ).
    destruct (lookup_lt_is_Some_2 (sg_vertices G) (Z.to_nat v)) as [w Hw];
      [fold n in Hv |- *; lia|].
    exists (w, canonical_labelling g v).
    rewrite (bind_returned _ _ _
      (subscript_lookup (sg_vertices G) v w ltac:(lia) Hw)).
    done. }
  unfold canonical_form. fold n.
  rewrite bool_decide_eq_true_2
    by (change (ulong LONG_MAX) with (2 ^ 63 - 1); unfold INT_MAX in Hn; lia).
  cbv zeta. rewrite (bind_returned _ _ _ Hs), (bind_returned _ _ _ Hlabels).
  rewrite (int32_small n Hn).
  erewrite bind_inr by exact Hcall. cbn beta iota.
  unfold decode_edges, translate_relabel.
  rewrite (bind_returned _ _ _ Hes), (bind_returned _ _ _ Hitems), bind_ret.
  destruct return_graph; by eexists _, _, _.
Qed.
End Returns.

(** ** The labels of the result *)

Lemma new_edge_at_labels aut d Lnr Vout Vin labels :
  (seq 0 (length Vout) ≫= new_edge_at aut d Lnr Vout Vin labels).*2
  = out_labels Lnr Vout Vin labels.
Proof.
  unfold out_labels. generalize (seq 0 (length Vout)). intros xs.
  induction xs as [|i xs IH]; [done|].
  rewrite !bind_cons, fmap_app, IH. f_equal. unfold new_edge_at.
  repeat case_match; try done. simpl. by rewrite oriented_label.
Qed.

Section Labels.
Variable canonical_labelling : BlissGraph → Z → Z.
Context {V : Type} `{Countable V}.
Context {L : Type} `{Countable L}.
Context (label_le : relation L) `{!RelDecision label_le}.

Lemma decode_edges_labels (edge_labels : list L) new_edges l es :
  decode_edges edge_labels new_edges = (l, inr es) →
  outcome (mapM (decode_label edge_labels) new_edges.*2) = inr es.*2.
Proof.
  revert l es. induction new_edges as [|[[x y] lab] new_edges IH];
    intros l es; unfold decode_edges; cbn [mapM fmap list_fmap].
  - by intros [<- _]%ret_inv.
  - intros Hrun. returned.
    match goal with Hrest : mapM _ new_edges = _ |- _ =>
      apply IH in Hrest end.
    apply outcome_bind. eexists. split.
    { match goal with Hdec : decode_label _ _ = _ |- _ => by rewrite Hdec end. }
    apply outcome_bind. eexists. split; [done|]. done.
Qed.

(** The labels of the edges of the result are the attached labels: in the
    order of the input for a graph, up to the sorting for a list of edges. *)
Lemma canonical_form_attached (G : SageGraph V L) partition return_graph
    certificate l res cert :
  canonical_form canonical_labelling label_le G partition return_graph
    certificate = (l, inr (res, cert)) →
  ∃ ls, outcome (attached_labels label_le G) = inr ls
        ∧ match res with
          | CanonEdges es => es.*2 ≡ₚ ls
          | CanonGraph Hg => (cg_edges Hg).*2 = ls
          end.
Proof.
  intros (s & labels & new_edges & relabel & es & l1 & l2 & l3 & l4
          & Hs & Hlabels & Hcall & Hes & ->)%canonical_form_returned.
  apply cffel_returned in Hcall as (_ & g & _ & _ & Hnew & _).
  apply decode_edges_labels in Hes. rewrite Hnew, new_edge_at_labels in Hes.
  exists es.*2. split.
  - unfold attached_labels. apply outcome_bind. exists s.
    split; [by rewrite Hs|]. apply outcome_bind. exists labels.
    split; [by rewrite Hlabels|]. done.
  - destruct return_graph; [done|]. unfold sorted.
    by rewrite merge_sort_Permutation.
Qed.
End Labels.

(** What [canonical_form] returns for the two triangles, whatever bliss
    answers. *)
Lemma well_formed_triangle : well_formed triangle None.
Proof. constructor; compute_done. Qed.

Lemma well_formed_rotated_triangle : well_formed rotated_triangle None.
Proof. constructor; compute_done. Qed.

Lemma triangle_result cl :
  ∃ l es cert,
    canonical_form cl Z.le triangle None false false
      = (l, inr (CanonEdges es, cert))
    ∧ es.*2 ≡ₚ [1; 1; 2].
Proof.
  destruct (canonical_form_returns cl Z.le triangle None false false
              well_formed_triangle) as (l & res & cert & Hrun); [done|].
  pose proof (canonical_form_attached _ _ _ _ _ _ _ _ _ Hrun) as (ls & Hls & Hres).
  vm_compute in Hls. injection Hls as <-.
  pose proof Hrun as (_ & _ & _ & _ & es & _ & _ & _ & _ & _ & _ & _ & _ & ->)
    %canonical_form_returned.
  exists l, (sorted (edge_le Z.le) es), cert. split; [exact Hrun|exact Hres].
Qed.

Lemma rotated_triangle_result cl :
  ∃ l es cert,
    canonical_form cl Z.le rotated_triangle None false false
      = (l, inr (CanonEdges es, cert))
    ∧ es.*2 ≡ₚ [1; 2; 2].
Proof.
  destruct (canonical_form_returns cl Z.le rotated_triangle None false false
              well_formed_rotated_triangle) as (l & res & cert & Hrun); [done|].
  pose proof (canonical_form_attached _ _ _ _ _ _ _ _ _ Hrun) as (ls & Hls & Hres).
  vm_compute in Hls. injection Hls as <-.
  pose proof Hrun as (_ & _ & _ & _ & es & _ & _ & _ & _ & _ & _ & _ & _ & ->)
    %canonical_form_returned.
  exists l, (sorted (edge_le Z.le) es), cert. split; [exact Hrun|exact Hres].
Qed.

(** Two lists with different numbers of ones are no permutations of each
    other. *)
Lemma ones_count (l1 l2 : list Z) :
  l1 ≡ₚ l2 → length (filter (λ x, x = 1) l1) = length (filter (λ x, x = 1) l2).
Proof. by intros ->. Qed.

(** ** The results of [canonical_form] *)

Section Claims.
Variable canonical_labelling : BlissGraph → Z → Z.
Context {V : Type} `{Countable V}.
Context {L : Type} `{Countable L}.
Context (label_le : relation L) `{!RelDecision label_le}.



(** C9: the graph returned under [return_graph] keeps the allowances of
    [G] and has the number of every vertex of [G] among its vertices, so
    that [0 ... n-1] are vertices of it whatever the edges are; the call
    returns on a well-formed graph that is undirected or without edges; and
    for a graph without edges the result has as many vertices as [G] and no
    edge. *)
Theorem isolated_vertices_kept (G : SageGraph V L) partition certificate :
  (well_formed G partition → (sg_directed G = true → sg_edges G = []) →
   ∃ res cert,
     outcome (canonical_form canonical_labelling label_le G partition true
                certificate) = inr (res, cert))
  ∧ (∀ res cert,
       outcome (canonical_form canonical_labelling label_le G partition true
                  certificate) = inr (res, cert) →
       ∃ Hg, res = CanonGraph Hg
         ∧ cg_loops Hg = sg_loops G ∧ cg_multiedges Hg = sg_multiedges G
         ∧ (∀ v, v ∈ sg_vertices G →
              ∃ i, enumerate_vertices G !! v = Some i ∧ i ∈ cg_vertices Hg)
         ∧ (NoDup (sg_vertices G) →
            (∀ i, 0 ≤ i < Z.of_nat (length (sg_vertices G)) →
                  i ∈ cg_vertices Hg)
            ∧ (length (sg_vertices G) ≤ size (cg_vertices Hg))%nat)
         ∧ (NoDup (sg_vertices G) → sg_edges G = [] →
            size (cg_vertices Hg) = length (sg_vertices G)
            ∧ cg_edges Hg = [])).
Proof.
  split.
  - intros Hwf Hdir.
    destruct (canonical_form_returns canonical_labelling label_le G partition
                true certificate Hwf Hdir) as (l & res & cert & Hrun).
    exists res, cert. by rewrite Hrun.
  - intros res cert [l Hrun]%outcome_inr.
    apply canonical_form_returned in Hrun
      as (s & labels & new_edges & relabel & es & l1 & l2 & l3 & l4
          & Hs & _ & Hcall & Hes & ->).
    eexists. split; [done|]. cbn [cg_loops cg_multiedges cg_vertices cg_edges
      add_vertices graph_of_edges]. split_and!; [done|done|..].
    + intros v (i & Hi & _)%(enumerate_vertices_is_Some G).
      exists i. split; [done|]. apply elem_of_union_r.
      by eapply elem_of_map_img_2.
    + intros Hnd. split.
      * intros i Hi. apply elem_of_union_r.
        rewrite enumerate_vertices_img by done.
        apply elem_of_list_to_set, list_elem_of_fmap. exists (Z.to_nat i).
        split; [lia|]. apply elem_of_seq. lia.
      * rewrite <-(size_enumerate_vertices_img G Hnd).
        apply subseteq_size, union_subseteq_r.
    + intros Hnd Hnone. unfold scan_edges in Hs. rewrite Hnone in Hs.
      apply ret_inv in Hs as [<- _]. cbn [Vout_of] in Hcall.
      apply cffel_returned in Hcall as (_ & g & _ & _ & -> & _).
      apply ret_inv in Hes as [<- _]. split; [|done].
      cbn [fmap list_fmap list_to_set]. rewrite !(left_id_L ∅ (∪)).
      by apply size_enumerate_vertices_img.
Qed.

(** C3: the labels come back exchanged.  The triangle has two edges with the
    label [2] and one edge with the label [1]; whatever labelling bliss
    computes, [canonical_form] returns three edges of which two carry the
    label [1] and one the label [2]. *)
Theorem triangle_labels_exchanged :
  (sg_edges triangle).*2 = [2; 2; 1]
  ∧ ∃ es cert,
      outcome (canonical_form canonical_labelling Z.le triangle
                 None false false) = inr (CanonEdges es, cert)
      ∧ es.*2 ≡ₚ [1; 1; 2]
      ∧ ¬ es.*2 ≡ₚ (sg_edges triangle).*2.
Proof.
  split; [done|].
  destruct (triangle_result canonical_labelling) as (l & es & cert & Hrun & Hes).
  exists es, cert. split; [by rewrite Hrun|]. split; [done|].
  rewrite Hes. intros Hperm%ones_count. clear -Hperm.
  vm_compute in Hperm. discriminate.
Qed.

(** C4: [rotated_triangle] is the triangle with its vertices renamed, and
    whatever labelling bliss computes, [canonical_form] returns a list of
    edges for each of the two graphs and the two lists differ: one has two
    edges with the label [1], the other has one. *)
Theorem renamed_triangle_differs :
  rotated_triangle = renamed rotation triangle
  ∧ ∃ es es' cert cert',
      outcome (canonical_form canonical_labelling Z.le triangle
                 None false false) = inr (CanonEdges es, cert)
      ∧ outcome (canonical_form canonical_labelling Z.le rotated_triangle
                   None false false) = inr (CanonEdges es', cert')
      ∧ es ≠ es'.
Proof.
  split; [done|].
  destruct (triangle_result canonical_labelling)
    as (l & es & cert & Hrun & Hes).
  destruct (rotated_triangle_result canonical_labelling)
    as (l' & es' & cert' & Hrun' & Hes').
  exists es, es', cert, cert'. split; [by rewrite Hrun|].
  split; [by rewrite Hrun'|]. intros ->. rewrite Hes' in Hes.
  apply ones_count in Hes. clear -Hes. vm_compute in Hes. discriminate.
Qed.
End Claims.


Lemma isolated_vertices_kept_witness :
  ∃ Hg cert,
    outcome (canonical_form identity_labelling Z.le (edgeless 15)
               None true false) = inr (CanonGraph Hg, cert)
    ∧ size (cg_vertices Hg) = 15%nat
    ∧ cg_edges Hg = [].
Proof.
  destruct (isolated_vertices_kept identity_labelling Z.le (edgeless 15)
              None false) as [Hret Hkept].
  assert (well_formed (edgeless 15) None) as Hwf by (constructor; compute_done).
  destruct (Hret Hwf (λ _, eq_refl)) as (res & cert & Hrun).
  destruct (Hkept res cert Hrun) as (Hg & -> & _ & _ & _ & _ & Hnone).
  destruct (Hnone (NoDup_seqZ 0 15) eq_refl) as [Hsize Hedges].
  exists Hg, cert. split; [exact Hrun|]. split; [exact Hsize|exact Hedges].
Defined.

(** ** The cycles of an automorphism *)

Lemma bounded_NoDup_length (n : nat) (c : list nat) :
  NoDup c → Forall (λ a, (a < n)%nat) c → (length c ≤ n)%nat.
Proof.
  intros Hnd Hlt. assert (c ⊆+ seq 0 n) as Hsub.
  { apply NoDup_submseteq; [done|]. intros x Hx.
    rewrite Forall_forall in Hlt. apply elem_of_seq. specialize (Hlt x Hx). lia. }
  apply submseteq_length in Hsub. by rewrite length_seq in Hsub.
Qed.

Lemma next_undone_spec (n : nat) (done : list bool) k cur :
  length done = n → (cur + k = n)%nat →
  let cur' := next_undone k cur done in
  (cur ≤ cur' ≤ n)%nat
  ∧ (∀ i, (cur ≤ i < cur')%nat → marked done i)
  ∧ ((cur' < n)%nat → ¬ marked done cur').
Proof.
  intros Hlen. revert cur. induction k as [|k IH]; intros cur Hk; simpl.
  - split; [lia|]. split; [intros; lia|lia].
  - destruct (done !! cur) as [[]|] eqn:Hcur.
    + destruct (IH (S cur)) as (Hle & Hmarked & Hnot); [lia|].
      split; [lia|]. split; [|done].
      intros i Hi. destruct (decide (i = cur)) as [->|]; [done|].
      apply Hmarked. lia.
    + split; [lia|]. split; [intros; lia|]. unfold marked. congruence.
    + split; [lia|]. split; [intros; lia|]. unfold marked. congruence.
Qed.

Section Cycles.
Context {V : Type}.
Variable n : nat.
Variable aut : list nat.
Variable int_to_vertex : gmap nat V.
Hypothesis Hperm : is_permutation n aut.
Hypothesis Hnames : ∀ i, (i < n)%nat → is_Some (int_to_vertex !! i).

Lemma aut_lookup i : (i < n)%nat → ∃ a, aut !! i = Some a ∧ (a < n)%nat.
Proof.
  destruct Hperm as (Hlen & _ & Hlt). intros Hi.
  destruct (lookup_lt_is_Some_2 aut i) as [a Ha]; [lia|].
  exists a. split; [done|]. by eapply (Forall_lookup_1 _ _ _ _ Hlt).
Qed.

Lemma aut_inj i j a : aut !! i = Some a → aut !! j = Some a → i = j.
Proof. destruct Hperm as (_ & Hnd & _). by apply NoDup_lookup. Qed.

(** The image of the last point of a chain without repetition that starts
    at [marker] is [marker] or a new point. *)
Lemma chain_next_fresh c marker tmp a :
  chain aut c → NoDup c → head c = Some marker → last c = Some tmp →
  aut !! tmp = Some a → a ≠ marker → a ∉ c.
Proof.
  intros Hchain Hnd Hhead Hlast Ha Hne [j Hj]%list_elem_of_lookup_1.
  destruct j as [|j].
  - rewrite <-head_lookup in Hj. congruence.
  - destruct (lookup_lt_is_Some_2 c j) as [x Hx].
    { apply lookup_lt_Some in Hj. lia. }
    pose proof (Hchain j x a Hx Hj) as Hxa.
    pose proof (aut_inj _ _ _ Hxa Ha) as ->.
    rewrite last_lookup in Hlast.
    pose proof (NoDup_lookup _ _ _ _ Hnd Hx Hlast) as ->.
    apply lookup_lt_Some in Hj. lia.
Qed.

Lemma chain_snoc c tmp a :
  chain aut c → last c = Some tmp → aut !! tmp = Some a → chain aut (c ++ [a]).
Proof.
  intros Hchain Hlast Ha j x y Hx Hy.
  destruct (decide (S j < length c)%nat) as [Hlt|Hge].
  - rewrite lookup_app_l in Hx, Hy by lia. by eapply Hchain.
  - apply lookup_lt_Some in Hy as Hy'. rewrite length_app in Hy'. simpl in Hy'.
    assert (S j = length c) as Hj by lia.
    rewrite lookup_app_l in Hx by lia.
    rewrite last_lookup in Hlast. replace (pred (length c)) with j in Hlast by lia.
    rewrite lookup_app_r, Hj, Nat.sub_diag in Hy by lia.
    simpl in Hy. congruence.
Qed.

(** The inner loop, from a chain [c] that starts at [marker] and ends at
    [tmp]: with enough fuel it closes the cycle. *)
Lemma follow_closes (old : nat → Prop) fuel marker :
  (∀ i a, aut !! i = Some a → old a → old i) →
  ∀ tmp done c cv,
    (n < fuel + length c)%nat →
    length done = n →
    head c = Some marker → last c = Some tmp →
    chain aut c → NoDup c → Forall (λ a, (a < n)%nat) c →
    named int_to_vertex c cv →
    (∀ i, marked done i ↔ old i ∨ i ∈ c) →
    (∀ i, i ∈ c → ¬ old i) →
    ∃ done' c' cv',
      follow fuel aut int_to_vertex marker tmp done cv = Returns (done', cv')
      ∧ length done' = n
      ∧ head c' = Some marker
      ∧ cycle_of aut c' ∧ NoDup c' ∧ Forall (λ a, (a < n)%nat) c'
      ∧ named int_to_vertex c' cv'
      ∧ (∀ i, marked done' i ↔ old i ∨ i ∈ c')
      ∧ (∀ i, i ∈ c' → ¬ old i).
Proof.
  intros Hclosed. induction fuel as [|fuel IH];
    intros tmp done c cv Hfuel Hlen Hhead Hlast Hchain Hnd Hlt Hnamed Hmarked
      Hnew.
  { pose proof (bounded_NoDup_length n c Hnd Hlt). lia. }
  assert (tmp ∈ c) as Htmp.
  { rewrite last_lookup in Hlast. by eapply list_elem_of_lookup_2. }
  assert (tmp < n)%nat as Htmpn.
  { rewrite Forall_forall in Hlt. by apply Hlt. }
  destruct (aut_lookup tmp Htmpn) as (a & Ha & Han).
  cbn [follow]. rewrite Ha. case_bool_decide as Hmark.
  - (* one more point *)
    rewrite bool_decide_eq_true_2 by lia.
    destruct (Hnames a Han) as [v Hv]. rewrite Hv.
    pose proof (chain_next_fresh c marker tmp a Hchain Hnd Hhead Hlast Ha Hmark)
      as Hfresh.
    apply (IH a (<[a:=true]> done) (c ++ [a]) (cv ++ [v])).
    + rewrite length_app. simpl. lia.
    + by rewrite length_insert.
    + destruct c; [done|]. done.
    + by rewrite last_snoc.
    + by eapply chain_snoc.
    + apply NoDup_app. split; [done|]. split; [|apply NoDup_singleton].
      intros x Hx ->%list_elem_of_singleton. done.
    + apply Forall_app. split; [done|]. by apply Forall_singleton.
    + apply Forall2_app; [done|]. by apply Forall2_cons.
    + intros i. unfold marked. rewrite elem_of_app, list_elem_of_singleton.
      destruct (decide (i = a)) as [->|Hia].
      * rewrite list_lookup_insert_eq by lia. tauto.
      * rewrite list_lookup_insert_ne by done. specialize (Hmarked i).
        unfold marked in Hmarked. tauto.
    + intros i [Hi| ->%list_elem_of_singleton]%elem_of_app; [by apply Hnew|].
      intros Hold. apply (Hnew tmp Htmp). by eapply Hclosed.
  - (* the cycle is closed *)
    subst a.
    exists done, c, cv. split_and!; try done.
    split; [done|]. by exists tmp, marker.
Qed.
Lemma chain_singleton x : chain aut [x].
Proof. intros [|j] y z Hy Hz; simplify_eq/=. Qed.

(** The points marked after a cycle has been closed are again closed under
    preimages. *)
Lemma closed_after_cycle (old : nat → Prop) c i a :
  (∀ i a, aut !! i = Some a → old a → old i) →
  cycle_of aut c → aut !! i = Some a → old a ∨ a ∈ c → old i ∨ i ∈ c.
Proof.
  intros Hclosed [Hchain (x & y & Hlast & Hhead & Hxy)] Ha [Hold|Hin].
  { left. by eapply Hclosed. }
  right. apply list_elem_of_lookup_1 in Hin as [j Hj]. destruct j as [|j].
  - rewrite <-head_lookup in Hj. simplify_eq.
    rewrite (aut_inj _ _ _ Ha Hxy). rewrite last_lookup in Hlast.
    by eapply list_elem_of_lookup_2.
  - destruct (lookup_lt_is_Some_2 c j) as [z Hz].
    { apply lookup_lt_Some in Hj. lia. }
    rewrite (aut_inj _ _ _ Ha (Hchain j z a Hz Hj)).
    by eapply list_elem_of_lookup_2.
Qed.

(** The outer loop: with enough fuel it returns, every point is in exactly
    one of the cycles found, and each of them is a cycle of [aut]. *)
Lemma cycles_cover inner fuel :
  (n ≤ inner)%nat →
  ∀ cur done idx perm,
    length done = n → (cur ≤ n)%nat →
    (∀ i, (i < cur)%nat → marked done i) →
    (∀ i, marked done i ↔ i ∈ mjoin idx) →
    (∀ i a, aut !! i = Some a → marked done a → marked done i) →
    NoDup (mjoin idx) → Forall (cycle_of aut) idx →
    Forall2 (named int_to_vertex) idx perm →
    (n + 1 ≤ fuel + cur ∨ marked done cur ∧ n ≤ fuel + cur)%nat →
    ∃ idx' perm',
      cycles inner fuel n aut int_to_vertex cur done perm = Returns perm'
      ∧ NoDup (mjoin idx')
      ∧ (∀ i, i ∈ mjoin idx' ↔ (i < n)%nat)
      ∧ Forall (cycle_of aut) idx'
      ∧ Forall2 (named int_to_vertex) idx' perm'.
Proof.
  intros Hinner. induction fuel as [|fuel IH];
    intros cur done idx perm Hlen Hcur Hbelow Hmarked Hclosed Hnd Hcyc Hnamed
      Hfuel.
  { destruct Hfuel as [?|[Hm%lookup_lt_Some ?]]; lia. }
  cbn [cycles].
  destruct (next_undone_spec n done (n - cur) cur Hlen ltac:(lia))
    as (Hle & Hskipped & Hundone).
  set (cur' := next_undone (n - cur) cur done) in *.
  assert (∀ i, (i < cur')%nat → marked done i) as Hbelow'.
  { intros i Hi. destruct (decide (i < cur)%nat); [by apply Hbelow|].
    apply Hskipped. lia. }
  case_bool_decide as Hend.
  - exists idx, perm. split_and!; try done. intros i. rewrite <-Hmarked. split.
    + intros Hi%lookup_lt_Some. lia.
    + intros Hi. apply Hbelow'. lia.
  - assert (cur' < n)%nat as Hlt by lia. specialize (Hundone Hlt).
    destruct (Hnames cur' Hlt) as [v Hv]. rewrite Hv.
    destruct (follow_closes (λ i, i ∈ mjoin idx) inner cur'
                ltac:(intros i a; rewrite <-!Hmarked; apply Hclosed)
                cur' (<[cur':=true]> done) [cur'] [v])
      as (done' & c' & cv' & -> & Hlen' & Hhead' & Hcycle' & Hnd' & Hlt'
          & Hnamed' & Hmarked' & Hnew').
    { simpl. lia. }
    { by rewrite length_insert. }
    { done. }
    { done. }
    { apply chain_singleton. }
    { apply NoDup_singleton. }
    { by apply Forall_singleton. }
    { by apply Forall2_cons. }
    { intros i. unfold marked. rewrite list_elem_of_singleton, <-Hmarked.
      destruct (decide (i = cur')) as [->|Hne].
      - rewrite list_lookup_insert_eq by lia. tauto.
      - rewrite list_lookup_insert_ne by done. unfold marked. tauto. }
    { intros i ->%list_elem_of_singleton. by rewrite <-Hmarked. }
    assert (cur' ∈ c') as Hin'.
    { rewrite head_lookup in Hhead'. by eapply list_elem_of_lookup_2. }
    apply (IH cur' done' (idx ++ [c']) (perm ++ [cv'])).
    + done.
    + lia.
    + intros i Hi. apply Hmarked'. left. apply Hmarked. by apply Hbelow'.
    + intros i. rewrite Hmarked', join_app, elem_of_app. simpl.
      by rewrite app_nil_r.
    + intros i a Ha. rewrite !Hmarked'.
      apply (closed_after_cycle (λ i, i ∈ mjoin idx)); [|done..].
      intros j b. rewrite <-!Hmarked. apply Hclosed.
    + rewrite join_app. simpl. rewrite app_nil_r. apply NoDup_app.
      split; [done|]. split; [|done]. intros i Hi Hi'. by apply (Hnew' i).
    + apply Forall_app. split; [done|]. by apply Forall_singleton.
    + apply Forall2_app; [done|]. by apply Forall2_cons.
    + right. split; [apply Hmarked'; by right|].
      destruct Hfuel as [?|[Hm ?]]; [lia|].
      assert (cur' ≠ cur) by congruence. lia.
Qed.

(** A fixed point is a cycle by itself. *)
Lemma fixed_point_cycle c v :
  cycle_of aut c → NoDup c → v ∈ c → aut !! v = Some v → c = [v].
Proof.
  intros [Hchain (x & y & Hlast & Hhead & Hxy)] Hnd
    [j Hj]%list_elem_of_lookup_1 Hv.
  assert (j = 0)%nat as ->.
  { destruct (decide (S j < length c)%nat) as [Hlt|Hge].
    - destruct (lookup_lt_is_Some_2 c (S j) Hlt) as [z Hz].
      pose proof (Hchain j v z Hj Hz) as Hvz.
      assert (z = v) as -> by congruence.
      pose proof (NoDup_lookup _ _ _ _ Hnd Hj Hz). lia.
    - apply lookup_lt_Some in Hj as Hj'. rewrite last_lookup in Hlast.
      replace (pred (length c)) with j in Hlast by lia.
      assert (x = v) as -> by congruence.
      assert (y = v) as -> by congruence.
      rewrite head_lookup in Hhead.
      by pose proof (NoDup_lookup _ _ _ _ Hnd Hhead Hj). }
  destruct c as [|v' [|w c]]; [done|by injection Hj as ->|].
  injection Hj as ->.
  pose proof (Hchain 0%nat v w eq_refl eq_refl) as Hvw.
  assert (w = v) as -> by congruence.
  apply NoDup_cons in Hnd as [Hnd _]. destruct Hnd. by left.
Qed.
End Cycles.

Lemma NoDup_join_elem (idx : list (list nat)) c :
  NoDup (mjoin idx) → c ∈ idx → NoDup c.
Proof.
  induction idx as [|c' idx IH]; [by intros _ ?%elem_of_nil|].
  simpl. intros (Hc' & _ & Hrest)%NoDup_app [->|Hin]%elem_of_cons; auto.
Qed.

Lemma cycle_of_nonempty aut c : cycle_of aut c → c ≠ [].
Proof. by intros [_ (x & y & Hlast & _)] ->. Qed.

(** C1: for a permutation [aut] of [0 ... n-1], [add_gen] appends to [gens]
    a list of disjoint cycles of [aut] in which every point occurs exactly
    once; fixed points are not left out: a point with [aut[v] == v] is
    emitted as the cycle [(v)] of length one, and every cycle has at least
    one element. *)
Theorem add_gen_cycles {V} (fuel : nat) (gens : list (list (list V)))
    (int_to_vertex : gmap nat V) (n : nat) (aut : list nat) :
  is_permutation n aut →
  Z.of_nat n ≤ INT_MAX →
  (∀ i, (i < n)%nat → is_Some (int_to_vertex !! i)) →
  (n < fuel)%nat →
  ∃ idx perm,
    add_gen fuel (gens, int_to_vertex) n aut = Returns (gens ++ [perm])
    ∧ Forall2 (named int_to_vertex) idx perm
    ∧ Forall (cycle_of aut) idx
    ∧ NoDup (mjoin idx)
    ∧ (∀ i, i ∈ mjoin idx ↔ (i < n)%nat)
    ∧ Forall (λ cv, (1 ≤ length cv)%nat) perm
    ∧ (∀ v, (v < n)%nat → aut !! v = Some v →
         ∃ x, int_to_vertex !! v = Some x ∧ [v] ∈ idx ∧ [x] ∈ perm).
Proof.
  intros Hperm _ Hnames Hfuel.
  destruct (cycles_cover n aut int_to_vertex Hperm Hnames fuel fuel
              ltac:(lia) 0%nat (replicate n false) [] [])
    as (idx & perm & Hrun & Hnd & Hcover & Hcyc & Hnamed).
  { apply length_replicate. }
  { lia. }
  { intros; lia. }
  { intros i. unfold marked. split; [|by intros ?%elem_of_nil].
    intros [? _]%lookup_replicate. done. }
  { intros i a _ [? _]%lookup_replicate. done. }
  { constructor. }
  { constructor. }
  { constructor. }
  { left. lia. }
  exists idx, perm. unfold add_gen. rewrite Hrun. split_and!; try done.
  - clear -Hcyc Hnamed. induction Hnamed as [|c cv idx perm Hc _ IH];
      [done|]. apply Forall_cons in Hcyc as [Hcyc Hrest].
    constructor; [|by apply IH]. apply cycle_of_nonempty in Hcyc.
    apply Forall2_length in Hc. destruct c; [done|]. simpl in Hc. lia.
  - intros v Hv Hfix. apply Hcover in Hv as Hin.
    apply list_elem_of_join in Hin as (c & Hvc & Hc).
    assert (c = [v]) as ->.
    { apply (fixed_point_cycle aut);
        [|by eapply NoDup_join_elem|done..].
      rewrite Forall_forall in Hcyc. by apply Hcyc. }
    apply list_elem_of_lookup_1 in Hc as [k Hk].
    destruct (Forall2_lookup_l _ _ _ _ _ Hnamed Hk) as (cv & Hcv & Hnam).
    apply Forall2_cons_inv_l in Hnam as (x & cv' & Hx & ->%Forall2_nil_inv_l & ->).
    exists x. split; [done|]. split; by eapply list_elem_of_lookup_2.
Qed.

Lemma add_gen_cycles_witness :
  ∃ idx,
    add_gen 4 ([], path_names) 3 path_flip = Returns [[[10; 12]; [11]]]
    ∧ NoDup (mjoin idx) ∧ [1%nat] ∈ idx.
Proof.
  destruct (add_gen_cycles 4 [] path_names 3 path_flip)
    as (idx & perm & Hrun & _ & _ & Hnd & _ & _ & Hfix).
  - split; [reflexivity|]. split; compute_done.
  - unfold INT_MAX. lia.
  - intros i Hi. destruct i as [|[|[|i]]]; [by eexists..|lia].
  - lia.
  - exists idx. split; [reflexivity|]. split; [exact Hnd|].
    destruct (Hfix 1%nat) as (x & _ & Hin & _); [lia|reflexivity|exact Hin].
Defined.

(** The flip of the path fixes its middle vertex, and the list handed to
    Sage has the cycle [(11)] of length one. *)
Lemma fixed_point_emitted :
  path_flip !! 1%nat = Some 1%nat
  ∧ add_gen 4 ([], path_names) 3 path_flip = Returns [[[10; 12]; [11]]]
  ∧ ¬ Forall (λ cv : list Z, (2 ≤ length cv)%nat) [[10; 12]; [11]]
  ∧ 11 ∈ mjoin [[10; 12]; [11]].
Proof.
  split; [done|]. split; [done|]. split.
  - intros [_ [Hlen _]%Forall_cons]%Forall_cons. simpl in Hlen. lia.
  - set_solver.
Qed.

(** ** The names of the vertices in [automorphism_group] *)

Section Names.
Context {V : Type}.

Lemma int2vert_of_lookup (vs : list V) i : int2vert_of vs !! i = vs !! i.
Proof.
  unfold int2vert_of. induction vs as [|v vs IH] using rev_ind.
  { cbn. apply lookup_empty. }
  rewrite imap_app, foldl_app. cbn [imap foldl].
  rewrite Nat.add_0_r. destruct (decide (i = length vs)) as [->|Hne].
  - by rewrite lookup_insert_eq, list_lookup_middle.
  - rewrite lookup_insert_ne, IH by done.
    destruct (decide (i < length vs)%nat).
    + by rewrite lookup_app_l.
    + rewrite !lookup_ge_None_2; [done|rewrite length_app; simpl; lia|lia].
Qed.

(** In [automorphism_group] every index has a name. *)
Lemma int2vert_of_is_Some (vs : list V) i :
  (i < length vs)%nat → is_Some (int2vert_of vs !! i).
Proof. rewrite int2vert_of_lookup. apply lookup_lt_is_Some_2. Qed.

Lemma named_elem_of (int_to_vertex : gmap nat V) c cv x :
  named int_to_vertex c cv → x ∈ cv →
  ∃ i, i ∈ c ∧ int_to_vertex !! i = Some x.
Proof.
  intros Hnamed. induction Hnamed as [|i v c cv Hi _ IH].
  - by intros ?%elem_of_nil.
  - intros [->|Hx]%elem_of_cons.
    + exists i. split; [by left|done].
    + destruct (IH Hx) as (j & Hj & Hjx). exists j. split; [by right|done].
Qed.

(** Disjoint cycles of indices have disjoint cycles of names when no two
    indices share a name, as in [automorphism_group], where the names are
    the vertices of the graph. *)
Lemma named_cycles_disjoint (int_to_vertex : gmap nat V) idx perm :
  (∀ i j x, int_to_vertex !! i = Some x → int_to_vertex !! j = Some x → i = j) →
  Forall2 (named int_to_vertex) idx perm →
  NoDup (mjoin idx) → NoDup (mjoin perm).
Proof.
  intros Hinj Hnamed.
  induction Hnamed as [|c cv idx perm Hc Htail IH]; [by intros _; constructor|].
  simpl. intros (Hndc & Hdisj & Hrest)%NoDup_app. apply NoDup_app.
  split; [|split; [|by apply IH]].
  - clear -Hinj Hc Hndc. induction Hc as [|i v c cv Hi Hc IH]; [constructor|].
    apply NoDup_cons in Hndc as [Hni Hndc]. constructor; [|by apply IH].
    intros (j & Hj & Hjv)%(named_elem_of _ _ _ _ Hc).
    by rewrite (Hinj _ _ _ Hi Hjv) in Hni.
  - intros x (i & Hi & Hix)%(named_elem_of _ _ _ _ Hc)
      (cv' & Hx & Hcv')%list_elem_of_join.
    apply list_elem_of_lookup_1 in Hcv' as [k Hk].
    destruct (Forall2_lookup_r _ _ _ _ _ Htail Hk) as (c' & Hc' & Hnam).
    destruct (named_elem_of _ _ _ _ Hnam Hx) as (j & Hj & Hjx).
    rewrite (Hinj _ _ _ Hix Hjx) in Hi. apply (Hdisj j Hi).
    apply list_elem_of_join. exists c'. split; [done|].
    by eapply list_elem_of_lookup_2.
Qed.
End Names.

(** ** Graphs copied from Sage graphs *)

(** A loop whose body only calls [add_edge] and [change_color]. *)
Lemma for_each_calls {A} (xs : list A) (body : A → BlissGraph → M BlissGraph)
    (FE FC : A → list (Z * Z)) g :
  (∀ x t, x ∈ xs →
     ∃ t', body x t = ([], inr t') ∧ same_object t t'
           ∧ edges t' = edges t ++ FE x ∧ colors t' = colors t ++ FC x) →
  ∃ g', for_each xs body g = ([], inr g') ∧ same_object g g'
        ∧ edges g' = edges g ++ xs ≫= FE ∧ colors g' = colors g ++ xs ≫= FC.
Proof.
  revert g. induction xs as [|x xs IH]; intros g Hbody.
  { exists g. by rewrite !app_nil_r. }
  destruct (Hbody x g) as (t & Ht & Hobj & He & Hc); [by left|].
  destruct (IH t) as (g' & Hg' & Hobj' & He' & Hc').
  { intros y u Hy. apply Hbody. by right. }
  exists g'. cbn [for_each]. rewrite (bind_returned _ _ _ Ht).
  split; [done|]. split; [by eapply same_object_trans|].
  rewrite He', Hc', He, Hc. cbn. by rewrite <-!app_assoc.
Qed.

Section GraphCopy.
Context {V : Type} `{Countable V} {L : Type}.

Lemma record_labelling_fst (ps : list (nat * V)) (m1 : gmap V Z)
    (m2 : gmap nat V) :
  (foldl (λ '(vert2int, int2vert) '(i, v),
            (<[v := Z.of_nat i]> vert2int, <[i := v]> int2vert))
         (m1, m2) ps).1
  = foldl (λ m '(i, v), <[v := Z.of_nat i]> m) m1 ps.
Proof.
  revert m1 m2. induction ps as [|[i v] ps IH]; intros m1 m2; [done|].
  cbn [foldl]. apply IH.
Qed.

Lemma record_labelling_snd (ps : list (nat * V)) (m1 : gmap V Z)
    (m2 : gmap nat V) :
  (foldl (λ '(vert2int, int2vert) '(i, v),
            (<[v := Z.of_nat i]> vert2int, <[i := v]> int2vert))
         (m1, m2) ps).2
  = foldl (λ m '(i, v), <[i := v]> m) m2 ps.
Proof.
  revert m1 m2. induction ps as [|[i v] ps IH]; intros m1 m2; [done|].
  cbn [foldl]. apply IH.
Qed.

(** From empty dictionaries the loop gives the dictionary [vert2int] of
    [canonical_form] and the dictionary that [add_gen] reads. *)
Lemma record_labelling_empty (G : SageGraph V L) :
  record_labelling (sg_vertices G) ∅ ∅
  = (enumerate_vertices G, int2vert_of (sg_vertices G)).
Proof.
  unfold record_labelling, enumerate_vertices, int2vert_of.
  rewrite (surjective_pairing (foldl _ _ _)).
  by rewrite record_labelling_fst, record_labelling_snd.
Qed.

(** Whatever the dictionary held, a vertex of the graph is sent to one of
    its positions. *)
Lemma numbered_lookup_elem (ps : list (nat * V)) (m0 : gmap V Z) v :
  v ∈ ps.*2 →
  ∃ k, (k, v) ∈ ps
       ∧ foldl (λ m '(i, v), <[v := Z.of_nat i]> m) m0 ps !! v
         = Some (Z.of_nat k).
Proof.
  induction ps as [|[k w] ps IH] using rev_ind; [by intros ?%elem_of_nil|].
  rewrite foldl_snoc, fmap_app. destruct (decide (w = v)) as [->|Hne].
  - intros _. exists k. rewrite lookup_insert_eq. split; [|done].
    apply elem_of_app. right. by left.
  - rewrite lookup_insert_ne by done. intros [Hv|Hv]%elem_of_app.
    + destruct (IH Hv) as (k' & Hk' & Hl). exists k'. split; [|done].
      apply elem_of_app. by left.
    + apply list_elem_of_singleton in Hv. simpl in Hv. congruence.
Qed.

Lemma vertex_number (vs : list V) (m1 : gmap V Z) (m2 : gmap nat V) v :
  v ∈ vs →
  ∃ k, vs !! k = Some v
       ∧ (record_labelling vs m1 m2).1 !! v = Some (Z.of_nat k).
Proof.
  intros Hv. unfold record_labelling. rewrite record_labelling_fst.
  destruct (numbered_lookup_elem (imap (λ i v, (i, v)) vs) m1 v)
    as (k & Hk & Hl).
  { by rewrite enumerated_pairs. }
  apply elem_of_lookup_imap in Hk as (k' & v' & [= <- <-] & Hk).
  by exists k.
Qed.

Lemma copy_edges_returns (vert2int : gmap V Z) (es : list (V * V)) g :
  Forall (λ e, ∃ a b, vert2int !! e.1 = Some a ∧ 0 ≤ a ≤ UINT_MAX
                      ∧ vert2int !! e.2 = Some b ∧ 0 ≤ b ≤ UINT_MAX) es →
  ∃ g', copy_edges vert2int es g = ([], inr g') ∧ same_object g g'
        ∧ edges g' = edges g
            ++ ((λ e, (vert2int !!! e.1, vert2int !!! e.2)) <$> es)
        ∧ colors g' = colors g.
Proof.
  intros Hes. unfold copy_edges.
  destruct (for_each_calls es
    (λ '(x, y) g,
       a ← dict_get vert2int x; a ← to_uint a;
       b ← dict_get vert2int y; b ← to_uint b; ret (add_edge g a b))
    (λ e, [(vert2int !!! e.1, vert2int !!! e.2)]) (λ _, []) g)
    as (g' & Hg' & Hobj & He & Hc).
  { intros [x y] t Hin. rewrite Forall_forall in Hes.
    destruct (Hes _ Hin) as (a & b & Ha & Ha' & Hb & Hb'). simpl in *.
    rewrite (bind_returned _ _ _ (dict_get_lookup _ _ _ Ha)).
    rewrite (bind_returned _ _ _ (to_uint_in_range _ Ha')).
    rewrite (bind_returned _ _ _ (dict_get_lookup _ _ _ Hb)).
    rewrite (bind_returned _ _ _ (to_uint_in_range _ Hb')).
    eexists. split; [done|]. split; [done|].
    rewrite !lookup_total_alt, Ha, Hb. simpl. by rewrite app_nil_r. }
  exists g'. split; [done|]. split; [done|].
  rewrite He, Hc, list_bind_singleton, list_bind_nil, app_nil_r. done.
Qed.
End GraphCopy.

Section GraphCopyCalls.
Context {V : Type} `{Countable V} {L : Type}.

Lemma colour_cells_returns (vert2int : gmap V Z) partition g :
  (∀ p, partition = Some p →
     Z.of_nat (length p) ≤ UINT_MAX
     ∧ Forall (Forall (λ v, ∃ a, vert2int !! v = Some a ∧ 0 ≤ a ≤ UINT_MAX))
         (drop 1 p)) →
  ∃ g', colour_cells vert2int partition g = ([], inr g') ∧ same_object g g'
        ∧ edges g' = edges g
        ∧ colors g' = colors g ++ later_cells vert2int partition.
Proof.
  intros Hp. unfold colour_cells, later_cells.
  destruct partition as [[|c0 p]|];
    [exists g; by rewrite app_nil_r| |exists g; by rewrite app_nil_r].
  destruct (Hp _ eq_refl) as [Hlen Hcells]. simpl in Hcells.
  set (P := c0 :: p) in *.
  destruct (for_each_calls (seq 1 (length P - 1))
    (λ i g,
       cell ← getitem P i;
       for_each cell (λ v g,
         a ← dict_get vert2int v; a ← to_uint a; c ← to_uint (Z.of_nat i);
         ret (change_color g a c)) g)
    (λ _, [])
    (λ i, (λ v, (vert2int !!! v, Z.of_nat i)) <$> default [] (P !! i)) g)
    as (g' & Hg' & Hobj & He & Hc).
  { intros i t [Hi1 Hi2]%elem_of_seq. simpl in Hi2.
    destruct i as [|i]; [lia|].
    assert (0 ≤ Z.of_nat (S i) ≤ UINT_MAX) as Hcol.
    { subst P. cbn [length] in Hlen, Hi2. lia. }
    destruct (lookup_lt_is_Some_2 p i) as [cell Hcell].
    { subst P. cbn [length] in Hi2. lia. }
    assert (P !! S i = Some cell) as HP by done.
    rewrite (bind_returned _ _ _ (getitem_lookup _ _ _ HP)), HP. simpl.
    pose proof (Forall_lookup_1 _ _ _ _ Hcells Hcell) as Hvs. simpl in Hvs.
    destruct (for_each_calls cell
      (λ v g,
         a ← dict_get vert2int v; a ← to_uint a; c ← to_uint (Z.of_nat (S i));
         ret (change_color g a c))
      (λ _, []) (λ v, [(vert2int !!! v, Z.of_nat (S i))]) t)
      as (t' & Ht' & Hobj & He & Hc).
    { intros v u Hv. rewrite Forall_forall in Hvs.
      destruct (Hvs v Hv) as (a & Ha & Ha').
      rewrite (bind_returned _ _ _ (dict_get_lookup _ _ _ Ha)).
      rewrite (bind_returned _ _ _ (to_uint_in_range _ Ha')).
      rewrite (bind_returned _ _ _ (to_uint_in_range _ Hcol)).
      eexists. split; [done|]. split; [done|].
      rewrite lookup_total_alt, Ha. simpl. by rewrite app_nil_r. }
    exists t'. split; [done|]. split; [done|].
    by rewrite He, Hc, list_bind_nil, list_bind_singleton. }
  exists g'. split; [done|]. split; [done|].
  by rewrite He, Hc, list_bind_nil, app_nil_r.
Qed.

(** The text shared by [bliss_graph] and [bliss_digraph] on a graph that
    can be copied. *)
Lemma graph_copy_returns (d : bool) (G : SageGraph V L) partition
    (vert2int : gmap V Z) (int2vert : gmap nat V) :
  copyable G partition →
  ∃ g v2i i2v,
    graph_copy d G partition vert2int int2vert
    = ([NewGraph d (Z.of_nat (length (sg_vertices G)))], inr (g, v2i, i2v))
    ∧ (v2i, i2v) = record_labelling (sg_vertices G) vert2int int2vert
    ∧ is_digraph g = d
    ∧ nvertices g = Z.of_nat (length (sg_vertices G))
    ∧ (∀ v, v ∈ sg_vertices G →
         ∃ k, sg_vertices G !! k = Some v ∧ v2i !! v = Some (Z.of_nat k))
    ∧ edges g = numbered_edges v2i G
    ∧ colors g = later_cells v2i partition.
Proof.
  intros [Hn Hends Hcells]. unfold graph_copy.
  rewrite (bind_returned _ _ _
    (to_uint_in_range (Z.of_nat (length (sg_vertices G))) ltac:(lia))).
  rewrite (bind_inr _ _ _ _ (new_graph_returns _ _)).
  destruct (record_labelling (sg_vertices G) vert2int int2vert)
    as [v2i i2v] eqn:Hrec.
  assert (Hnum : ∀ v, v ∈ sg_vertices G →
    ∃ k, sg_vertices G !! k = Some v ∧ v2i !! v = Some (Z.of_nat k)).
  { intros v Hv.
    destruct (vertex_number (sg_vertices G) vert2int int2vert v Hv)
      as (k & Hk & Hl).
    rewrite Hrec in Hl. by exists k. }
  assert (Hrange : ∀ v, v ∈ sg_vertices G →
    ∃ a, v2i !! v = Some a ∧ 0 ≤ a ≤ UINT_MAX).
  { intros v (k & Hk%lookup_lt_Some & Hl)%Hnum. exists (Z.of_nat k).
    split; [done|lia]. }
  set (g0 := mkBliss d (Z.of_nat (length (sg_vertices G))) [] []).
  destruct (copy_edges_returns v2i (sg_edges G).*1 g0)
    as (g1 & Hg1 & [Hd1 Hn1] & He1 & Hc1).
  { apply Forall_fmap. eapply Forall_impl; [exact Hends|].
    intros [[x y] l] [Hx Hy]. simpl in *.
    destruct (Hrange x Hx) as (a & Ha & Ha').
    destruct (Hrange y Hy) as (b & Hb & Hb'). by exists a, b. }
  destruct (colour_cells_returns v2i partition g1)
    as (g2 & Hg2 & [Hd2 Hn2] & He2 & Hc2).
  { intros p Hp. destruct (Hcells p Hp) as [Hlen Hin]. split; [done|].
    eapply Forall_impl; [exact Hin|]. intros cell Hcell.
    eapply Forall_impl; [exact Hcell|]. intros v Hv. by apply Hrange. }
  exists g2, v2i, i2v.
  cbn beta iota. rewrite (bind_returned _ _ _ Hg1).
  rewrite (bind_returned _ _ _ Hg2).
  split; [done|]. split; [done|]. split; [by rewrite Hd2, Hd1|].
  split; [by rewrite Hn2, Hn1|]. split; [done|]. split.
  - rewrite He2, He1. unfold numbered_edges. simpl.
    by rewrite <-list_fmap_compose.
  - by rewrite Hc2, Hc1.
Qed.

(** X1: [bliss_graph] and [bliss_digraph] on a graph they can copy: one graph
    object of the order of [G] is created, every vertex is numbered by one
    of its positions in [G.vertices()], the edges of [G] are added in order
    with their ends numbered, and the vertices of the cell [i] of the
    partition are given the colour [i] for [i >= 1]; the first cell makes no
    call, so its members, which need not even be vertices, keep the colour
    that bliss gives at creation.  The two functions fill the dictionaries
    alike and make the same calls, on a [Graph] and on a [Digraph]. *)
Theorem graph_copy_calls (G : SageGraph V L) partition
    (vert2int : gmap V Z) (int2vert : gmap nat V) :
  copyable G partition →
  ∃ g g' v2i i2v,
    bliss_graph G partition vert2int int2vert
    = ([NewGraph false (Z.of_nat (length (sg_vertices G)))],
       inr (g, v2i, i2v))
    ∧ bliss_digraph G partition vert2int int2vert
      = ([NewGraph true (Z.of_nat (length (sg_vertices G)))],
         inr (g', v2i, i2v))
    ∧ (v2i, i2v) = record_labelling (sg_vertices G) vert2int int2vert
    ∧ is_digraph g = false ∧ is_digraph g' = true
    ∧ nvertices g = Z.of_nat (length (sg_vertices G))
    ∧ nvertices g' = nvertices g
    ∧ (∀ v, v ∈ sg_vertices G →
         ∃ k, sg_vertices G !! k = Some v ∧ v2i !! v = Some (Z.of_nat k))
    ∧ edges g = numbered_edges v2i G ∧ edges g' = edges g
    ∧ colors g = later_cells v2i partition ∧ colors g' = colors g.
Proof.
  intros Hcopy.
  destruct (graph_copy_returns false G partition vert2int int2vert Hcopy)
    as (g & v2i & i2v & Hrun & Hrec & Hd & Hn & Hnum & He & Hc).
  destruct (graph_copy_returns true G partition vert2int int2vert Hcopy)
    as (g' & v2i' & i2v' & Hrun' & Hrec' & Hd' & Hn' & _ & He' & Hc').
  rewrite <-Hrec in Hrec'. injection Hrec' as -> ->.
  exists g, g', v2i, i2v. split_and!; try done; congruence.
Qed.
End GraphCopyCalls.

Lemma graph_copy_calls_witness :
  ∃ g v2i i2v,
    bliss_graph path (Some [[99]; [10; 12]]) ∅ ∅
    = ([NewGraph false 3], inr (g, v2i, i2v))
    ∧ edges g = [(0, 1); (1, 2)] ∧ colors g = [(0, 1); (2, 1)].
Proof.
  destruct (graph_copy_calls path (Some [[99]; [10; 12]]) ∅ ∅)
    as (g & g' & v2i & i2v & Hrun & _ & Hrec & _ & _ & _ & _ & _ & He & _
        & Hc & _).
  - constructor.
    + unfold UINT_MAX. simpl. lia.
    + repeat constructor; set_solver.
    + intros p [= <-]. split; [unfold UINT_MAX; simpl; lia|].
      repeat constructor; set_solver.
  - exists g, v2i, i2v. split; [exact Hrun|].
    vm_compute in Hrec. injection Hrec as -> ->.
    split; [exact He|exact Hc].
Defined.

Section Labelling.
Context {V : Type} `{Countable V} {L : Type}.

(** X2: The two dictionaries that [bliss_graph] and [bliss_digraph] fill for
    [automorphism_group] are inverse to each other when [G.vertices()] lists
    no vertex twice: [int2vert[k] == v] exactly when [vert2int[v] == k], the
    keys of [int2vert] are [0 ... n-1] and the keys of [vert2int] are the
    vertices. *)
Theorem labelling_round_trip (G : SageGraph V L) (v2i : gmap V Z)
    (i2v : gmap nat V) :
  NoDup (sg_vertices G) →
  record_labelling (sg_vertices G) ∅ ∅ = (v2i, i2v) →
  (∀ k v, i2v !! k = Some v ↔ v2i !! v = Some (Z.of_nat k))
  ∧ (∀ k, is_Some (i2v !! k) ↔ (k < length (sg_vertices G))%nat)
  ∧ (∀ v, is_Some (v2i !! v) ↔ v ∈ sg_vertices G)
  ∧ (∀ v i, v2i !! v = Some i → 0 ≤ i < Z.of_nat (length (sg_vertices G))).
Proof.
  intros Hnd. rewrite record_labelling_empty. intros [= <- <-].
  split; [|split; [|split]].
  - intros k v. rewrite int2vert_of_lookup. split.
    + by apply enumerate_vertices_position.
    + intros (k' & Hk' & Hkk')%enumerate_vertices_lookup.
      by assert (k = k') as -> by lia.
  - intros k. rewrite int2vert_of_lookup. apply lookup_lt_is_Some.
  - intros v. split.
    + intros [i (k & Hk & _)%enumerate_vertices_lookup].
      by eapply list_elem_of_lookup_2.
    + intros (i & Hi & _)%enumerate_vertices_is_Some. by exists i.
  - intros v i (k & Hk%lookup_lt_Some & ->)%enumerate_vertices_lookup. lia.
Qed.
End Labelling.

Lemma labelling_round_trip_witness :
  ∃ v2i i2v,
    record_labelling (sg_vertices path) ∅ ∅ = (v2i, i2v)
    ∧ (i2v !! 2%nat = Some 12 ↔ v2i !! 12 = Some 2).
Proof.
  eexists _, _. split; [reflexivity|].
  refine (proj1 (labelling_round_trip path _ _ _ eq_refl) 2%nat 12).
  compute_done.
Defined.

(** ** [automorphism_group] *)

Section Automorphisms.
Context {V : Type} `{Countable V} {L : Type}.
Variable automorphism_generators : BlissGraph → list (list nat).

Lemma colour_cells_first_cell (vert2int : gmap V Z) c c' p g :
  colour_cells vert2int (Some (c :: p)) g
  = colour_cells vert2int (Some (c' :: p)) g.
Proof.
  unfold colour_cells. cbn [length]. apply for_each_ext.
  intros i t [Hi _]%elem_of_seq. destruct i as [|i]; [lia|]. done.
Qed.

Lemma graph_copy_first_cell d (G : SageGraph V L) c c' p m1 m2 :
  graph_copy d G (Some (c :: p)) m1 m2 = graph_copy d G (Some (c' :: p)) m1 m2.
Proof.
  unfold graph_copy. apply bind_ext. intros n. apply bind_ext. intros g.
  destruct (record_labelling _ _ _) as [v2i i2v].
  apply bind_ext. intros g1. by rewrite (colour_cells_first_cell _ c c').
Qed.

(** X3: The first cell of the partition is never read: [automorphism_group]
    gives the same result whatever it holds, and a partition of one cell is
    the same as no partition. *)
Theorem first_cell_not_read (fuel : nat) (G : SageGraph V L) c c' p :
  automorphism_group automorphism_generators fuel G (Some (c :: p))
  = automorphism_group automorphism_generators fuel G (Some (c' :: p))
  ∧ automorphism_group automorphism_generators fuel G (Some [c])
    = automorphism_group automorphism_generators fuel G None.
Proof.
  unfold automorphism_group, bliss_graph, bliss_digraph. split.
  - by destruct (sg_directed G); rewrite (graph_copy_first_cell _ _ c c').
  - done.
Qed.

(** One call of [add_gen] on a permutation. *)
Lemma add_gen_returns (fuel : nat) (gens : list (list (list V)))
    (vs : list V) (aut : list nat) :
  NoDup vs → is_permutation (length vs) aut → (length vs < fuel)%nat →
  ∃ perm, add_gen fuel (gens, int2vert_of vs) (length vs) aut
          = Returns (gens ++ [perm])
          ∧ cycles_of_generator vs aut perm.
Proof.
  intros Hvs Hperm Hfuel. set (n := length vs) in *.
  destruct (cycles_cover n aut (int2vert_of vs) Hperm
              (int2vert_of_is_Some vs) fuel fuel
              ltac:(lia) 0%nat (replicate n false) [] [])
    as (idx & perm & Hrun & Hnd & Hcover & Hcyc & Hnamed).
  { apply length_replicate. }
  { lia. }
  { intros; lia. }
  { intros i. unfold marked. split; [|by intros ?%elem_of_nil].
    intros [? _]%lookup_replicate. done. }
  { intros i a _ [? _]%lookup_replicate. done. }
  { constructor. }
  { constructor. }
  { constructor. }
  { left. lia. }
  exists perm. unfold add_gen. rewrite Hrun. split; [done|].
  exists idx. split; [done|]. split; [done|].
  assert (mjoin idx ≡ₚ seq 0 n) as Hidx.
  { apply NoDup_Permutation; [done|apply NoDup_seq|].
    intros i. rewrite Hcover, elem_of_seq. lia. }
  assert (mjoin perm = omap (λ i, vs !! i) (mjoin idx)) as ->.
  { clear -Hnamed. induction Hnamed as [|c cv idx perm Hc _ IH]; [done|].
    simpl. rewrite omap_app. f_equal; [|exact IH].
    clear -Hc. induction Hc as [|i v c cv Hi _ IH]; [done|].
    rewrite int2vert_of_lookup in Hi. cbn [omap list_omap]. by rewrite Hi, IH. }
  rewrite Hidx. assert (omap (λ i, vs !! i) (seq 0 n) = vs) as ->; [|done].
  subst n. clear. induction vs as [|v vs IH] using rev_ind; [done|].
  rewrite length_app. cbn [length]. rewrite Nat.add_1_r, seq_S, omap_app.
  cbn. rewrite list_lookup_middle by done. cbn.
  f_equal. rewrite <-IH at 2. apply list_omap_ext.
  apply Forall2_same_length_lookup_2; [done|].
  intros i x y Hx Hy. assert (x = y) as <- by congruence.
  apply lookup_seq in Hx as [-> Hlt]. by rewrite lookup_app_l.
Qed.

Lemma find_automorphisms_returns (fuel : nat) (vs : list V)
    (auts : list (list nat)) (gens : list (list (list V))) :
  NoDup vs → Forall (is_permutation (length vs)) auts →
  (length vs < fuel)%nat →
  ∃ new, find_automorphisms fuel (int2vert_of vs) (length vs) auts gens
         = Returns (gens ++ new)
         ∧ Forall2 (cycles_of_generator vs) auts new.
Proof.
  intros Hvs Hauts Hfuel. revert gens.
  induction Hauts as [|aut auts Haut _ IH]; intros gens.
  { exists []. by rewrite app_nil_r. }
  destruct (add_gen_returns fuel gens vs aut Hvs Haut Hfuel)
    as (perm & Hperm & Hcyc).
  destruct (IH (gens ++ [perm])) as (new & Hnew & Hall).
  exists (perm :: new). cbn [find_automorphisms]. rewrite Hperm, Hnew.
  split; [by rewrite <-app_assoc|]. by constructor.
Qed.

(** X4: [automorphism_group] on a graph that can be copied, when bliss reports
    permutations of [0 ... n-1]: one bliss graph is created and deleted, and
    the list handed to [PermutationGroup] has one entry for each generator,
    in the order of the reports; the entry lists every vertex of [G] exactly
    once, in cycles that are cycles of the generator read through the
    numbering of the vertices. *)
Theorem automorphism_group_cycles (fuel : nat) (G : SageGraph V L) partition :
  copyable G partition →
  NoDup (sg_vertices G) →
  Z.of_nat (length (sg_vertices G)) ≤ INT_MAX →
  (∀ g, nvertices g = Z.of_nat (length (sg_vertices G)) →
        Forall (is_permutation (length (sg_vertices G)))
          (automorphism_generators g)) →
  (length (sg_vertices G) < fuel)%nat →
  ∃ g gens,
    automorphism_group automorphism_generators fuel G partition
    = ([NewGraph (sg_directed G) (Z.of_nat (length (sg_vertices G)));
        DelGraph], inr (Returns gens))
    ∧ is_digraph g = sg_directed G
    ∧ nvertices g = Z.of_nat (length (sg_vertices G))
    ∧ edges g = numbered_edges (enumerate_vertices G) G
    ∧ colors g = later_cells (enumerate_vertices G) partition
    ∧ Forall2 (cycles_of_generator (sg_vertices G))
        (automorphism_generators g) gens.
Proof.
  intros Hcopy Hnd _ Hgens Hfuel.
  destruct (graph_copy_returns (sg_directed G) G partition ∅ ∅ Hcopy)
    as (g & v2i & i2v & Hrun & Hrec & Hd & Hn & _ & He & Hc).
  rewrite record_labelling_empty in Hrec. injection Hrec as -> ->.
  destruct (find_automorphisms_returns fuel (sg_vertices G)
              (automorphism_generators g) [] Hnd (Hgens g Hn) Hfuel)
    as (gens & Hfind & Hall).
  exists g, gens. split; [|done].
  unfold automorphism_group.
  assert ((if sg_directed G
           then bliss_digraph G partition (∅ : gmap V Z) (∅ : gmap nat V)
           else bliss_graph G partition ∅ ∅)
          = graph_copy (sg_directed G) G partition ∅ ∅) as ->.
  { by destruct (sg_directed G). }
  rewrite (bind_inr _ _ _ _ Hrun). cbn beta iota.
  rewrite Hn, Nat2Z.id, Hfind. done.
Qed.
End Automorphisms.

Lemma automorphism_group_cycles_witness :
  ∃ g gens,
    automorphism_group path_generators 4 path None
    = ([NewGraph false 3; DelGraph], inr (Returns gens))
    ∧ edges g = [(0, 1); (1, 2)]
    ∧ Forall2 (cycles_of_generator [10; 11; 12]) [path_flip] gens.
Proof.
  destruct (automorphism_group_cycles path_generators 4 path None)
    as (g & gens & Hrun & _ & _ & He & _ & Hall).
  - constructor.
    + unfold UINT_MAX. simpl. lia.
    + repeat constructor; set_solver.
    + intros p [=].
  - compute_done.
  - unfold INT_MAX. simpl. lia.
  - intros g _. constructor; [|constructor].
    split; [reflexivity|]. split; compute_done.
  - simpl. lia.
  - exists g, gens. split; [exact Hrun|]. split; [exact He|exact Hall].
Defined.

(** ** Labels on layers *)

(** The number one has a single bit, of weight zero. *)
Lemma bit_edges_one Vnr b x y : 1 ≤ b → bit_edges Vnr b x y 1 = [(x, y)].
Proof.
  intros Hb. unfold bit_edges.
  replace b with ((b - 1) + 1) at 1 by lia.
  rewrite seqZ_app by lia. rewrite bind_app.
  assert (seqZ 0 (b - 1) ≫= (λ j,
            if Z.testbit 1 (b - 1 - j)
            then [((b - 1 - j) * Vnr + x, (b - 1 - j) * Vnr + y)]
            else []) = []) as ->.
  { etrans; [|apply (list_bind_nil (B:=Z * Z) (seqZ 0 (b - 1)))].
    apply Forall_bind_ext, Forall_forall. intros j Hj%elem_of_seqZ.
    rewrite Z.bits_above_log2; [done|lia|simpl; lia]. }
  assert (seqZ (0 + (b - 1)) 1 = [b - 1]) as ->.
  { rewrite seqZ_cons by lia. simpl. f_equal. }
  cbn. by rewrite Z.sub_diag.
Qed.

(** The undirected builder treats every label alike: the edges added for
    [(x, y, lab)] are the copies of [(x, y)] in the layers of the bits of
    [lab + 1]; the edge added for the label [0] is the bit of [1]. *)
Lemma undirected_label_bits Vnr Lnr x y lab :
  0 ≤ Vnr → Vnr * bit_layers Lnr ≤ UINT_MAX → Lnr ≤ INT_MAX →
  0 ≤ x < Vnr → 0 ≤ y < Vnr → 0 ≤ lab < Lnr →
  label_edges (λ lab logLnr, binary_repr lab (Some logLnr))
    Vnr (bit_layers Lnr) x y lab
  = bit_edges Vnr (bit_layers Lnr) x y (lab + 1).
Proof.
  intros HV Hsize HL Hx Hy Hlab. destruct (decide (lab = 0)) as [->|Hne].
  - pose proof (bit_layers_pos Lnr) as Hb.
    unfold label_edges. rewrite bool_decide_eq_false_2 by lia.
    rewrite bit_edges_one by done. rewrite !uint32_small by nia. done.
  - apply undirected_label_edges; lia.
Qed.

(** An edge of the layer [k] is among the edges that encode [enc] exactly
    when the bit of weight [k] is set. *)
Lemma elem_of_bit_edges Vnr b x y enc k :
  0 < Vnr → 0 ≤ k < b →
  (k * Vnr + x, k * Vnr + y) ∈ bit_edges Vnr b x y enc
  ↔ Z.testbit enc k = true.
Proof.
  intros HV Hk. unfold bit_edges. rewrite list_elem_of_bind. split.
  - intros (j & Hin & Hj%elem_of_seqZ).
    destruct (Z.testbit enc (b - 1 - j)) eqn:Hbit; [|by apply elem_of_nil in Hin].
    apply list_elem_of_singleton in Hin as [= Hx _].
    assert (k = b - 1 - j) as -> by nia. done.
  - intros Hbit. exists (b - 1 - k). split; [|apply elem_of_seqZ; lia].
    replace (b - 1 - (b - 1 - k)) with k by lia. rewrite Hbit. by left.
Qed.

Lemma bit_edges_inj Vnr b x y enc enc' :
  0 < Vnr → 0 < enc < 2 ^ b → 0 < enc' < 2 ^ b →
  bit_edges Vnr b x y enc = bit_edges Vnr b x y enc' → enc = enc'.
Proof.
  intros HV Henc Henc' Heq. apply Z.bits_inj'. intros k Hk.
  assert (0 ≤ b) as Hb.
  { destruct (decide (0 ≤ b)); [done|]. rewrite Z.pow_neg_r in Henc; lia. }
  destruct (decide (k < b)) as [Hlt|Hge].
  - pose proof (elem_of_bit_edges Vnr b x y enc k HV ltac:(lia)) as H1.
    pose proof (elem_of_bit_edges Vnr b x y enc' k HV ltac:(lia)) as H2.
    rewrite Heq in H1. rewrite H1 in H2.
    destruct (Z.testbit enc k), (Z.testbit enc' k); intuition congruence.
  - rewrite !Z.bits_above_log2; [done|lia| |lia|].
    + assert (Z.log2 enc' < b) by (apply Z.log2_lt_pow2; lia). lia.
    + assert (Z.log2 enc < b) by (apply Z.log2_lt_pow2; lia). lia.
Qed.



(** X6: The layers tell the labels apart: on the same graph and between the
    same two vertices, the undirected builder adds different edges for
    different labels. *)
Theorem label_encoding_injective Vnr Lnr x y lab lab' g g1 g2 :
  Vnr * bit_layers Lnr ≤ UINT_MAX → Lnr ≤ INT_MAX →
  0 ≤ x < Vnr → 0 ≤ y < Vnr → 0 ≤ lab < Lnr → 0 ≤ lab' < Lnr →
  outcome (encode_edge (λ lab logLnr, binary_repr lab (Some logLnr))
             Vnr (bit_layers Lnr) x y lab g) = inr g1 →
  outcome (encode_edge (λ lab logLnr, binary_repr lab (Some logLnr))
             Vnr (bit_layers Lnr) x y lab' g) = inr g2 →
  lab ≠ lab' → edges g1 ≠ edges g2.
Proof.
  intros Hsize HL Hx Hy Hlab Hlab' [l1 H1]%outcome_inr [l2 H2]%outcome_inr.
  apply encode_edge_returned in H1 as (_ & _ & ->).
  apply encode_edge_returned in H2 as (_ & _ & ->).
  intros Hne Heq%app_inv_head.
  rewrite !undirected_label_bits in Heq by lia.
  pose proof (lt_pow2_bit_layers Lnr ltac:(lia)) as Hpow.
  apply bit_edges_inj in Heq; lia.
Qed.

Lemma label_encoding_injective_witness :
  ∃ g1 g2,
    outcome (encode_edge (λ lab logLnr, binary_repr lab (Some logLnr))
               2 (bit_layers 4) 0 1 1 (mkBliss false 6 [] [])) = inr g1
    ∧ outcome (encode_edge (λ lab logLnr, binary_repr lab (Some logLnr))
                 2 (bit_layers 4) 0 1 2 (mkBliss false 6 [] [])) = inr g2
    ∧ edges g1 ≠ edges g2.
Proof.
  eexists _, _. split; [reflexivity|]. split; [reflexivity|].
  apply (label_encoding_injective 2 4 0 1 1 2 (mkBliss false 6 [] []));
    first [reflexivity | compute_done | lia].
Defined.

(** ** The directed builder *)


(** Without a width, the text of a number has as many digits as the number
    has bits. *)
Lemma binary_repr_full_width enc b :
  2 ^ (b - 1) ≤ enc < 2 ^ b → 1 ≤ b →
  binary_repr enc None = binary_repr enc (Some b).
Proof.
  intros Henc Hb. assert (0 < 2 ^ (b - 1)) by (apply Z.pow_pos_nonneg; lia).
  destruct enc as [|p|p]; [lia| |lia]. cbn [binary_repr].
  pose proof (length_bin_digits p) as Hlen.
  assert (Z.log2 (Zpos p) = b - 1) as Hlog.
  { apply Z.log2_unique; [lia|]. replace (Z.succ (b - 1)) with b by lia. done. }
  unfold pad. replace (Z.to_nat b - length (bin_digits p))%nat with 0%nat by lia.
  done.
Qed.


Section Directed.
Variables Vnr Lnr : Z.
Hypothesis HLnr : 1 < Lnr ≤ INT_MAX.

Lemma encode_directed_full x y lab g :
  0 ≤ lab < Lnr → (lab ≠ 0 → 2 ^ (bit_layers Lnr - 1) ≤ lab + 1) →
  encode_edge (λ lab _, binary_repr lab None) Vnr (bit_layers Lnr) x y lab g
  = encode_edge (λ lab logLnr, binary_repr lab (Some logLnr))
      Vnr (bit_layers Lnr) x y lab g.
Proof.
  intros Hlab Hfull. unfold encode_edge. case_bool_decide as Hz; [|done].
  assert (int32 (lab + 1) = lab + 1) as ->.
  { unfold int32, INT_MAX in *. rewrite Z.mod_small; lia. }
  pose proof (lt_pow2_bit_layers Lnr ltac:(lia)) as Hpow.
  pose proof (bit_layers_pos Lnr) as Hb.
  rewrite (binary_repr_full_width (lab + 1) (bit_layers Lnr)); [done| |done].
  split; [by apply Hfull|lia].
Qed.

End Directed.

(** X7: The directed builder on valid input, when the text of every label that
    occurs has a digit for each layer (with [b] layers, [lab + 1 >= 2^(b-1)]
    for the labels other than [0], which is so for all labels when there
    are at most three of them): it adds the same edges and colours as the
    undirected builder. *)
Theorem directed_builder_full_width Vnr Lnr Vout Vin labels partition :
  valid_input Vnr Lnr Vout Vin labels (default_partition Vnr partition) →
  (Lnr ≠ 1 →
   Forall (λ lab, lab ≠ 0 → 2 ^ (bit_layers Lnr - 1) ≤ lab + 1) labels) →
  ∃ g g',
    outcome (bliss_graph_from_labelled_edges Vnr Lnr Vout Vin labels partition)
    = inr g
    ∧ outcome (bliss_digraph_from_labelled_edges Vnr Lnr Vout Vin labels
                 partition) = inr g'
    ∧ is_digraph g' = true ∧ nvertices g' = nvertices g
    ∧ edges g' = edges g ∧ colors g' = colors g.
Proof.
  intros Hvalid Hfull.
  destruct (bliss_graph_from_labelled_edges_returns _ _ _ _ _ _ Hvalid)
    as [g Hg].
  destruct (from_labelled_edges_returns true
              (λ lab logLnr, binary_repr lab (Some logLnr))
              Vnr Lnr Vout Vin labels partition Hvalid) as [g' Hg'].
  { intros lab Hlab. apply length_binary_repr_width, bit_layers_pos. }
  assert (bliss_digraph_from_labelled_edges Vnr Lnr Vout Vin labels partition
          = ([NewGraph true (layered_size Vnr Lnr)], inr g')) as Hd.
  { rewrite <-Hg'. unfold bliss_digraph_from_labelled_edges, from_labelled_edges.
    destruct (allocate_layers_returns true Vnr Lnr) as (g0 & Hg0 & _).
    rewrite !(bind_inr _ _ _ _ Hg0). cbn beta iota.
    assert (add_labelled_edges (λ lab _, binary_repr lab None)
              Vnr Lnr (layers_of Lnr) Vout Vin labels g0
            = add_labelled_edges (λ lab logLnr, binary_repr lab (Some logLnr))
                Vnr Lnr (layers_of Lnr) Vout Vin labels g0) as ->; [|done].
    unfold add_labelled_edges. apply for_each_ext. intros i t _.
    destruct Hvalid as [_ HL _ _ _ _ _ Hlabs _].
    apply bind_ext. intros x. apply bind_ext. intros x'.
    apply bind_ext. intros y. apply bind_ext. intros y'.
    case_bool_decide as H1.
    { rewrite !bind_ret. unfold encode_edge.
      by rewrite bool_decide_eq_false_2 by lia. }
    destruct (Hlabs H1) as [_ Hrange].
    unfold getitem. destruct (labels !! i) as [lab|] eqn:Hlab;
      [|by rewrite !bind_raise].
    rewrite !bind_ret.
    pose proof (Forall_lookup_1 _ _ _ _ Hrange Hlab) as Hlab'.
    pose proof (Forall_lookup_1 _ _ _ _ (Hfull H1) Hlab) as Hlab''.
    simpl in Hlab', Hlab''.
    rewrite !(bind_returned _ _ _
      (to_int_in_range lab ltac:(unfold INT_MIN; lia))).
    unfold layers_of. rewrite bool_decide_eq_false_2 by done.
    apply encode_directed_full; [lia|done|done]. }
  exists g, g'. split; [by rewrite Hg|]. split; [by rewrite Hd|].
  apply from_labelled_edges_returned in Hg as (_ & _ & -> & -> & ->).
  apply from_labelled_edges_returned in Hg' as (_ & -> & -> & -> & ->).
  done.
Qed.

Lemma directed_builder_full_width_witness :
  ∃ g', outcome (bliss_digraph_from_labelled_edges 2 4 [0] [1] [3] None)
        = inr g'
        ∧ edges g' = [(0, 2); (2, 4); (1, 3); (3, 5); (4, 5)].
Proof.
  destruct (directed_builder_full_width 2 4 [0] [1] [3] None)
    as (g & g' & Hg & Hg' & _ & _ & He & _).
  - valid_input_holds.
  - intros _. constructor; [|constructor]. intros _. reflexivity.
  - exists g'. split; [exact Hg'|]. rewrite He.
    injection Hg as <-. reflexivity.
Defined.




(** ** The colours of the layers *)

(** X9: The colours that the builders give on valid input: the copy in the
    layer [j] of a vertex of the cell [i] gets the colour [j * Pnr + i],
    where [Pnr] is the number of cells, and nothing else is coloured; so
    the colour of a copy tells its layer, and two copies share a colour
    only within one layer and one cell. *)
Theorem layer_colours (directed : bool) Vnr Lnr Vout Vin labels partition g :
  valid_input Vnr Lnr Vout Vin labels (default_partition Vnr partition) →
  outcome (builder directed Vnr Lnr Vout Vin labels partition) = inr g →
  let P := default_partition Vnr partition in
  let Pnr := Z.of_nat (length P) in
  let layers := if bool_decide (Lnr = 1) then 1 else bit_layers Lnr in
  (∀ a c, (a, c) ∈ colors g ↔
          ∃ j i cell v, P !! i = Some cell ∧ v ∈ cell ∧ 0 ≤ j < layers
                        ∧ a = j * Vnr + v ∧ c = j * Pnr + Z.of_nat i)
  ∧ (∀ a c, (a, c) ∈ colors g →
            a / Vnr = c / Pnr
            ∧ ∃ cell, P !! Z.to_nat (c `mod` Pnr) = Some cell
                      ∧ a `mod` Vnr ∈ cell).
Proof.
  intros Hvalid [l Hg]%outcome_inr P Pnr layers.
  rewrite builder_unfold in Hg.
  apply from_labelled_edges_returned in Hg as (_ & _ & _ & _ & Hc).
  fold P in Hc. destruct Hvalid as [HV HL _ Hcells _ _ _ _ Hpart].
  fold P in Hcells, Hpart. fold Pnr in Hcells.
  pose proof (bit_layers_pos Lnr) as Hb.
  assert (Hchar : ∀ a c, (a, c) ∈ colors g ↔
          ∃ j i cell v, P !! i = Some cell ∧ v ∈ cell ∧ 0 ≤ j < layers
                        ∧ a = j * Vnr + v ∧ c = j * Pnr + Z.of_nat i).
  { intros a c. rewrite Hc. unfold partition_colours. fold Pnr.
    rewrite list_elem_of_bind. split.
    - intros (i & Hin & Hi%elem_of_seq).
      destruct (P !! i) as [cell|] eqn:Hcell; [|by apply elem_of_nil in Hin].
      simpl in Hin. apply list_elem_of_bind in Hin as (v & Hin & Hv).
      apply lookup_lt_Some in Hcell as Hlt.
      unfold cell_colours in Hin. unfold layers. case_bool_decide as H1.
      + apply list_elem_of_singleton in Hin as [= -> ->].
        exists 0, i, cell, v. rewrite uint32_small by (subst Pnr; nia).
        split_and!; first [done | lia].
      + apply list_elem_of_fmap in Hin as (j & [= -> ->] & Hj%elem_of_seqZ).
        exists j, i, cell, v. split_and!; first [done | lia].
    - intros (j & i & cell & v & Hcell & Hv & Hj & -> & ->).
      apply lookup_lt_Some in Hcell as Hlt.
      exists i. split; [|apply elem_of_seq; lia]. rewrite Hcell. simpl.
      apply list_elem_of_bind. exists v. split; [|done].
      unfold cell_colours. unfold layers in Hj. case_bool_decide as H1.
      + assert (j = 0) as -> by lia. rewrite uint32_small by (subst Pnr; nia).
        rewrite !Z.mul_0_l, !Z.add_0_l. by left.
      + apply list_elem_of_fmap. exists j. split; [done|].
        apply elem_of_seqZ. lia. }
  split; [exact Hchar|].
  intros a c (j & i & cell & v & Hcell & Hv & Hj & -> & ->)%Hchar.
  apply lookup_lt_Some in Hcell as Hlt.
  pose proof (Forall_lookup_1 _ _ _ _ Hpart Hcell) as Hvs. simpl in Hvs.
  rewrite Forall_forall in Hvs. specialize (Hvs v Hv).
  assert (0 ≤ Z.of_nat i < Pnr) as Hi by (subst Pnr; lia).
  assert ((j * Vnr + v) / Vnr = j) as ->.
  { symmetry. apply (Z.div_unique _ _ _ v); lia. }
  assert ((j * Pnr + Z.of_nat i) / Pnr = j) as ->.
  { symmetry. apply (Z.div_unique _ _ _ (Z.of_nat i)); lia. }
  split; [done|]. exists cell.
  assert ((j * Pnr + Z.of_nat i) `mod` Pnr = Z.of_nat i) as ->.
  { symmetry. apply (Z.mod_unique _ _ j); lia. }
  assert ((j * Vnr + v) `mod` Vnr = v) as ->.
  { symmetry. apply (Z.mod_unique _ _ j); lia. }
  by rewrite Nat2Z.id.
Qed.

Lemma layer_colours_witness :
  ∃ g, outcome (bliss_digraph_from_labelled_edges 2 2 [0] [1] [1]
                  (Some [[0]; [1]])) = inr g
       ∧ (3, 3) ∈ colors g ∧ 3 / 2 = 1.
Proof.
  eexists. split; [reflexivity|].
  destruct (layer_colours true 2 2 [0] [1] [1] (Some [[0]; [1]]) _
              ltac:(valid_input_holds) eq_refl) as [Hchar Hlayer].
  split.
  - apply Hchar. exists 1, 1%nat, [1], 1.
    split_and!; first [reflexivity | by left | done].
  - reflexivity.
Defined.

(** ** What [canonical_form_from_edge_list] returns *)

Lemma length_bind_seq {B} (F : nat → list B) n :
  (∀ i, (length (F i) ≤ 1)%nat) → (length (seq 0 n ≫= F) ≤ n)%nat.
Proof.
  intros HF. induction n as [|n IH]; [done|].
  rewrite seq_S, bind_app, length_app. cbn. rewrite app_nil_r.
  specialize (HF n). lia.
Qed.

(** A loop that appends at most one element in each round and has appended
    as many elements as there were rounds has appended one in each. *)
Lemma bind_seq_lookup {B} (F : nat → list B) n i :
  (∀ i, (length (F i) ≤ 1)%nat) → length (seq 0 n ≫= F) = n → (i < n)%nat →
  ∃ e, F i = [e] ∧ (seq 0 n ≫= F) !! i = Some e.
Proof.
  intros HF. induction n as [|n IH]; [lia|].
  rewrite seq_S, bind_app, length_app. cbn. rewrite app_nil_r.
  pose proof (length_bind_seq F n HF) as Hle. pose proof (HF n) as Hn.
  intros Hlen Hi.
  assert (length (seq 0 n ≫= F) = n) as Hlen' by lia.
  destruct (decide (i = n)) as [->|Hne].
  - destruct (F n) as [|e [|e' rest]] eqn:HFn; simpl in *; [lia| |lia].
    exists e. split; [done|].
    rewrite lookup_app_r by lia. by rewrite Hlen', Nat.sub_diag.
  - destruct (IH Hlen' ltac:(lia)) as (e & He & Hl).
    exists e. split; [done|]. rewrite lookup_app_l by lia. done.
Qed.

Lemma certificate_lookup (f : Z → Z) n v :
  (list_to_map ((λ v, (v, f v)) <$> range n) : gmap Z Z) !! v
  = if bool_decide (0 ≤ v < n) then Some (f v) else None.
Proof.
  assert (((λ v, (v, f v)) <$> range n).*1 = range n) as Hkeys.
  { rewrite <-list_fmap_compose. apply list_fmap_id. }
  case_bool_decide as Hv.
  - apply elem_of_list_to_map_1.
    + rewrite Hkeys. apply NoDup_seqZ.
    + apply list_elem_of_fmap. exists v. split; [done|].
      apply elem_of_seqZ. lia.
  - apply not_elem_of_list_to_map_1. rewrite Hkeys.
    intros Hin%elem_of_seqZ. lia.
Qed.

Section EdgeListResult.
Variable canonical_labelling : BlissGraph → Z → Z.

(** X10: A call of [canonical_form_from_edge_list] that returns: with [aut] the
    labelling that bliss gives for the graph of the builder, the list has
    one edge for each input edge, in the order of the input and not
    sorted; the edge [i] joins [aut[Vout[i]]] and [aut[Vin[i]]], as given
    when [directed] is set and with the larger end first when it is not,
    and carries the label [labels[i]], or [labels[0]] ([None] for an empty
    list) when [Lnr == 1]; the certificate is present exactly when asked
    for and sends [v] to [aut[v]] for [0 <= v < Vnr]. *)
Theorem edge_list_result Vnr Vout Vin Lnr labels partition directed
    certificate es r :
  outcome (canonical_form_from_edge_list canonical_labelling
             Vnr Vout Vin Lnr labels partition directed certificate)
  = inr (es, r) →
  ∃ g, outcome (builder directed Vnr Lnr Vout Vin labels partition) = inr g
    ∧ length es = length Vout
    ∧ (∀ i, (i < length Vout)%nat →
         ∃ x y, Vout !! i = Some x ∧ Vin !! i = Some y
           ∧ es !! i
             = Some (oriented directed
                       (canonical_labelling g x) (canonical_labelling g y)
                       (if bool_decide (Lnr = 1) then head labels
                        else labels !! i)))
    ∧ match r with
      | Some relabel =>
          certificate = true
          ∧ ∀ v, relabel !! v
                 = if bool_decide (0 ≤ v < Vnr)
                   then Some (canonical_labelling g v) else None
      | None => certificate = false
      end.
Proof.
  intros [l Hrun]%outcome_inr.
  apply cffel_returned in Hrun as (_ & g & Hg & _ & Hes & Hlen & Hr).
  exists g. split; [by rewrite Hg|]. split; [done|]. split.
  - intros i Hi. subst es.
    destruct (bind_seq_lookup
                (new_edge_at (canonical_labelling g) directed Lnr
                   Vout Vin labels) (length Vout) i) as (e & He & Hl);
      [|done|done|].
    { intros k. unfold new_edge_at.
      destruct (Vout !! k), (Vin !! k), (out_label Lnr labels k); simpl; lia. }
    unfold new_edge_at, out_label in He.
    destruct (Vout !! i) as [x|]; [|done].
    destruct (Vin !! i) as [y|]; [|done].
    exists x, y. split; [done|]. split; [done|].
    etrans; [exact Hl|]. f_equal.
    case_bool_decide; [by injection He as <-|].
    destruct (labels !! i); [by injection He as <-|done].
  - rewrite Hr. destruct certificate; [|done]. split; [done|].
    intros v. apply certificate_lookup.
Qed.

End EdgeListResult.

Lemma edge_list_result_witness :
  ∃ es relabel,
    outcome (canonical_form_from_edge_list identity_labelling
               3 [0; 1] [1; 2] 2 [1; 0] None false true)
    = inr (es, Some relabel)
    ∧ es !! 1%nat = Some (2, 1, Some 0)
    ∧ relabel !! 2 = Some 2 ∧ relabel !! 3 = None.
Proof.
  eexists _, _. split; [reflexivity|].
  destruct (edge_list_result identity_labelling
              3 [0; 1] [1; 2] 2 [1; 0] None false true _ _ eq_refl)
    as (g & _ & _ & Hedge & _ & Hcert).
  split; [|split].
  - destruct (Hedge 1%nat ltac:(simpl; lia)) as (x & y & [= <-] & [= <-] & He).
    exact He.
  - exact (Hcert 2).
  - exact (Hcert 3).
Defined.


(** ** The indices of the labels in [canonical_form] *)

(** An invariant of a loop that speaks of the elements read so far. *)
Lemma for_each_prefix {A St} (P : list A → St → Prop) (xs : list A)
    (body : A → St → M St) s s' l :
  P [] s →
  (∀ pre x t t' l', P pre t → body x t = (l', inr t') → P (pre ++ [x]) t') →
  for_each xs body s = (l, inr s') → P xs s'.
Proof.
  intros Hinit Hstep.
  assert (∀ pre t l, P pre t → for_each xs body t = (l, inr s') →
                     P (pre ++ xs) s') as Hgen.
  { clear s l Hinit. induction xs as [|x xs IH]; intros pre t l Hpre Hrun.
    - apply ret_inv in Hrun as [-> _]. by rewrite app_nil_r.
    - cbn [for_each] in Hrun.
      apply bind_returns in Hrun as (l1 & t1 & l2 & Hx & Hrest & _).
      rewrite (cons_middle x pre xs), app_assoc.
      eapply IH; [|exact Hrest]. by eapply Hstep. }
  intros Hrun. by apply (Hgen [] s l).
Qed.

Section FirstSeen.
Context {A : Type} `{EqDecision A}.

Lemma first_seen_snoc (l : list A) x :
  first_seen (l ++ [x])
  = if decide (x ∈ first_seen l) then first_seen l else first_seen l ++ [x].
Proof. unfold first_seen. by rewrite foldl_snoc. Qed.


Lemma NoDup_first_seen (l : list A) : NoDup (first_seen l).
Proof.
  induction l as [|y l IH] using rev_ind; [constructor|].
  rewrite first_seen_snoc. destruct (decide (y ∈ first_seen l)); [done|].
  apply NoDup_app. split; [done|]. split; [|apply NoDup_singleton].
  by intros x Hx ->%list_elem_of_singleton.
Qed.
End FirstSeen.

Lemma dict_get_inv {K A} `{Countable K} (m : gmap K A) k a l :
  dict_get m k = (l, inr a) → m !! k = Some a ∧ l = [].
Proof. unfold dict_get. destruct (m !! k); [|done]. by intros [-> ->]%ret_inv. Qed.

Section Trace.
Context {V : Type} `{Countable V}.
Context {L : Type} `{Countable L}.

Lemma scan_trace_init (vert2int : gmap V Z) :
  scan_trace (L:=L) vert2int [] (mkScan 0 ∅ [] [] [] []).
Proof.
  constructor; simpl; try done.
  intros lab i. rewrite lookup_empty. split; [done|].
  by intros (k & _ & ?).
Qed.

Lemma scan_trace_step (vert2int : gmap V Z) (pre : list (V * V * L)) e s s' l :
  scan_trace vert2int pre s →
  scan_edge vert2int e s = (l, inr s') →
  scan_trace vert2int (pre ++ [e]) s'.
Proof.
  intros [Hlabs Hrev HL Hind Hout Hin]. destruct e as [[x y] lab].
  unfold scan_edge.
  destruct (edge_labels_rev s !! lab) as [labInd|] eqn:Hlab; intros Hrun;
    returned;
    repeat match goal with
    | Hd : dict_get _ _ = (_, inr _) |- _ => apply dict_get_inv in Hd as [Hd _]
    end.
  - (* a label seen before *)
    apply Hrev in Hlab as (k & -> & Hk).
    assert (lab ∈ first_seen pre.*2) as Hseen.
    { rewrite <-Hlabs. by eapply list_elem_of_lookup_2. }
    constructor;
      cbn [edge_labels edge_labels_rev Lnr_of labels_of Vout_of Vin_of].
    + rewrite fmap_app. cbn [fmap list_fmap snd]. rewrite first_seen_snoc.
      by rewrite decide_True by done.
    + done.
    + done.
    + apply Forall2_app; [done|]. constructor; [by exists k|constructor].
    + apply Forall2_app; [done|]. by apply Forall2_cons.
    + apply Forall2_app; [done|]. by apply Forall2_cons.
  - (* a new label *)
    assert (lab ∉ first_seen pre.*2) as Hnew.
    { rewrite <-Hlabs. intros [k Hk]%list_elem_of_lookup_1.
      assert (edge_labels_rev s !! lab = Some (Z.of_nat k)) as Hk'
        by (apply Hrev; by exists k).
      congruence. }
    constructor;
      cbn [edge_labels edge_labels_rev Lnr_of labels_of Vout_of Vin_of].
    + rewrite fmap_app. cbn [fmap list_fmap snd]. rewrite first_seen_snoc.
      rewrite decide_False by done. by rewrite Hlabs.
    + intros lab' i. destruct (decide (lab = lab')) as [<- | Hne].
      * rewrite lookup_insert_eq. split.
        -- intros [= <-]. exists (length (edge_labels s)).
           split; [by rewrite HL|]. by rewrite list_lookup_middle.
        -- intros (k & -> & Hk). f_equal. rewrite HL. f_equal.
           destruct (decide (k < length (edge_labels s))%nat) as [Hlt|Hge].
           ++ rewrite lookup_app_l in Hk by done.
              destruct Hnew. rewrite <-Hlabs. by eapply list_elem_of_lookup_2.
           ++ apply lookup_lt_Some in Hk. rewrite length_app in Hk.
              simpl in Hk. lia.
      * rewrite lookup_insert_ne by done. rewrite Hrev. split.
        -- intros (k & -> & Hk). exists k. split; [done|].
           by apply lookup_app_l_Some.
        -- intros (k & -> & Hk). exists k. split; [done|].
           apply lookup_app_Some in Hk as [Hk|[_ Hk]]; [done|].
           destruct (k - length (edge_labels s))%nat; simplify_eq/=.
    + rewrite length_app. simpl. lia.
    + apply Forall2_app.
      * eapply Forall2_impl; [exact Hind|]. intros e i (k & -> & Hk).
        exists k. split; [done|]. by apply lookup_app_l_Some.
      * constructor; [|constructor]. exists (length (edge_labels s)).
        split; [by rewrite HL|]. by rewrite list_lookup_middle.
    + apply Forall2_app; [done|]. by apply Forall2_cons.
    + apply Forall2_app; [done|]. by apply Forall2_cons.
Qed.

Lemma scan_edges_trace (G : SageGraph V L) l s :
  scan_edges G = (l, inr s) →
  scan_trace (enumerate_vertices G) (sg_edges G) s.
Proof.
  unfold scan_edges. apply for_each_prefix.
  - apply scan_trace_init.
  - intros pre e t t' l'. apply scan_trace_step.
Qed.

(** X12: The loop over the edges of [canonical_form] numbers the labels in the
    order in which they first occur: [edge_labels] lists each label once in
    that order, [Lnr] counts them, [edge_labels_rev] is the inverse of
    [edge_labels], and for the edge [k] the three lists hold the numbers of
    its ends and an index [i] with [edge_labels[i]] the label of the
    edge. *)
Theorem label_indices_round_trip (G : SageGraph V L) s :
  outcome (scan_edges G) = inr s →
  edge_labels s = first_seen (sg_edges G).*2
  ∧ NoDup (edge_labels s)
  ∧ Lnr_of s = Z.of_nat (length (edge_labels s))
  ∧ (∀ lab (i : nat),
       edge_labels_rev s !! lab = Some (Z.of_nat i)
       ↔ edge_labels s !! i = Some lab)
  ∧ (∀ k x y lab, sg_edges G !! k = Some (x, y, lab) →
       ∃ i : nat,
         labels_of s !! k = Some (Z.of_nat i)
         ∧ edge_labels s !! i = Some lab
         ∧ Vout_of s !! k = enumerate_vertices G !! x
         ∧ Vin_of s !! k = enumerate_vertices G !! y).
Proof.
  intros [l Hs]%outcome_inr.
  apply scan_edges_trace in Hs as [Hlabs Hrev HL Hind Hout Hin].
  split; [done|]. split; [rewrite Hlabs; apply NoDup_first_seen|].
  split; [done|]. split.
  - intros lab i. rewrite Hrev. split.
    + intros (k & Hk & Hl). by assert (i = k) as -> by lia.
    + intros Hl. by exists i.
  - intros k x y lab Hk.
    destruct (Forall2_lookup_l _ _ _ _ _ Hind Hk) as (i & Hi & j & -> & Hj).
    destruct (Forall2_lookup_l _ _ _ _ _ Hout Hk) as (a & Ha & Hx).
    destruct (Forall2_lookup_l _ _ _ _ _ Hin Hk) as (b & Hb & Hy).
    exists j. simpl in *. by rewrite Hi, Ha, Hb, Hx, Hy.
Qed.
End Trace.

Lemma label_indices_round_trip_witness :
  ∃ s, outcome (scan_edges triangle) = inr s
       ∧ edge_labels s = [2; 1]
       ∧ labels_of s = [0; 0; 1]
       ∧ edge_labels_rev s !! 1 = Some 1.
Proof.
  destruct (outcome (scan_edges triangle)) as [e|s] eqn:Hs.
  { vm_compute in Hs. discriminate. }
  exists s. split; [reflexivity|].
  destruct (label_indices_round_trip triangle s Hs)
    as (Hlabs & _ & _ & Hrev & _).
  split; [exact Hlabs|]. split.
  - vm_compute in Hs. injection Hs as <-. reflexivity.
  - apply (Hrev 1 1%nat). rewrite Hlabs. reflexivity.
Defined.

Lemma subscript_nat {A} (xs : list A) (j : nat) a l :
  subscript xs (Z.of_nat j) = (l, inr a) → xs !! j = Some a.
Proof.
  unfold subscript. rewrite bool_decide_eq_true_2 by lia.
  rewrite Nat2Z.id. by intros [? _]%getitem_inv.
Qed.

Lemma imap_fst_positions {A} (ls : list A) :
  (imap (λ i lab, (lab, Z.of_nat i)) ls).*1 = ls.
Proof.
  apply list_eq. intros i. rewrite list_lookup_fmap, list_lookup_imap.
  by destruct (ls !! i).
Qed.

Lemma imap_snd_positions {A} (ls : list A) :
  (imap (λ i lab, (lab, Z.of_nat i)) ls).*2 = Z.of_nat <$> seq 0 (length ls).
Proof.
  apply list_eq. intros i.
  rewrite !list_lookup_fmap, list_lookup_imap.
  destruct (ls !! i) as [a|] eqn:Hi; simpl.
  - apply lookup_lt_Some in Hi. by rewrite lookup_seq_lt.
  - apply lookup_ge_None in Hi. by rewrite lookup_seq_ge.
Qed.

Section Relabel.
Context {L : Type} `{Countable L}.
Context (label_le : relation L) `{!RelDecision label_le}.

(** The items of [edge_labels_rev] are the labels with their positions. *)
Lemma rev_items (rev : gmap L Z) (ls : list L) :
  (∀ lab i, rev !! lab = Some i ↔ ∃ k : nat, i = Z.of_nat k ∧ ls !! k = Some lab) →
  NoDup ls →
  map_to_list rev ≡ₚ imap (λ i lab, (lab, Z.of_nat i)) ls.
Proof.
  intros Hrev Hnd. apply NoDup_Permutation.
  - apply NoDup_map_to_list.
  - apply (NoDup_fmap_1 fst). by rewrite imap_fst_positions.
  - intros [lab i]. rewrite elem_of_map_to_list, Hrev, elem_of_lookup_imap.
    split.
    + intros (k & -> & Hk). by exists k, lab.
    + intros (k & lab' & [= <- ->] & Hk). by exists k.
Qed.

(** [lab_relabels] is a rearrangement of the indices [0 ... Lnr-1]. *)
Lemma lab_relabels_Permutation (rev : gmap L Z) (ls : list L) :
  (∀ lab i, rev !! lab = Some i ↔ ∃ k : nat, i = Z.of_nat k ∧ ls !! k = Some lab) →
  NoDup ls →
  (sorted (key_le label_le) (map_to_list rev)).*2
  ≡ₚ Z.of_nat <$> seq 0 (length ls).
Proof.
  intros Hrev Hnd. unfold sorted.
  by rewrite merge_sort_Permutation, (rev_items rev ls Hrev Hnd),
    imap_snd_positions.
Qed.

Context {V : Type} `{Countable V}.

(** X13: The indices that [canonical_form] hands to
    [canonical_form_from_edge_list] (lines 450-464) tell the labels apart
    and nothing more: there is one index for each edge, it is one of
    [0 ... Lnr-1], and two edges have the same index exactly when they have
    the same label. *)
Theorem label_classes_kept (G : SageGraph V L) s labels :
  outcome (scan_edges G) = inr s →
  outcome (relabel_labels label_le s) = inr labels →
  length labels = length (sg_edges G)
  ∧ Forall (λ i, 0 ≤ i < Lnr_of s) labels
  ∧ ∀ k k' e e' i i',
      sg_edges G !! k = Some e → sg_edges G !! k' = Some e' →
      labels !! k = Some i → labels !! k' = Some i' →
      (i = i' ↔ e.2 = e'.2).
Proof.
  intros [l1 Hs]%outcome_inr [l2 Hlabels]%outcome_inr.
  apply scan_edges_trace in Hs as [Hlabs Hrev HL Hind Hout Hin].
  assert (NoDup (edge_labels s)) as Hnd
    by (rewrite Hlabs; apply NoDup_first_seen).
  pose proof (lab_relabels_Permutation _ _ Hrev Hnd) as Hperm.
  unfold relabel_labels in Hlabels.
  set (lab_relabels := (sorted (key_le label_le)
                          (map_to_list (edge_labels_rev s))).*2) in *.
  apply mapM_returned in Hlabels.
  assert (NoDup lab_relabels) as Hnd'.
  { rewrite Hperm. apply NoDup_fmap; [apply _|apply NoDup_seq]. }
  assert (Hedge : ∀ k e i, sg_edges G !! k = Some e → labels !! k = Some i →
            ∃ j : nat, edge_labels s !! j = Some e.2
                       ∧ lab_relabels !! j = Some i).
  { intros k e i He Hi.
    destruct (Forall2_lookup_l _ _ _ _ _ Hind He) as (i0 & Hi0 & j & -> & Hj).
    destruct (Forall2_lookup_l _ _ _ _ _ Hlabels Hi0) as (i1 & Hi1 & l' & Hsub).
    assert (i1 = i) as -> by congruence.
    exists j. split; [done|]. by eapply subscript_nat. }
  split; [|split].
  - apply Forall2_length in Hlabels, Hind. lia.
  - apply Forall_forall. intros i [k Hk]%list_elem_of_lookup_1.
    destruct (Forall2_lookup_r _ _ _ _ _ Hlabels Hk) as (i0 & _ & l' & Hsub).
    apply subscript_returned in Hsub. rewrite Hperm in Hsub.
    apply list_elem_of_fmap in Hsub as (j & -> & Hj%elem_of_seq). lia.
  - intros k k' e e' i i' He He' Hi Hi'.
    destruct (Hedge k e i He Hi) as (j & Hj & Hr).
    destruct (Hedge k' e' i' He' Hi') as (j' & Hj' & Hr').
    split.
    + intros <-. pose proof (NoDup_lookup _ _ _ _ Hnd' Hr Hr') as <-.
      congruence.
    + intros Heq. rewrite Heq in Hj.
      pose proof (NoDup_lookup _ _ _ _ Hnd Hj Hj') as <-. congruence.
Qed.
End Relabel.

Lemma label_classes_kept_witness :
  ∃ s labels,
    outcome (scan_edges triangle) = inr s
    ∧ outcome (relabel_labels Z.le s) = inr labels
    ∧ labels !! 0%nat = labels !! 1%nat
    ∧ labels !! 0%nat ≠ labels !! 2%nat.
Proof.
  destruct (outcome (scan_edges triangle)) as [e|s] eqn:Hs.
  { vm_compute in Hs. discriminate. }
  destruct (outcome (relabel_labels Z.le s)) as [e|labels] eqn:Hl.
  { vm_compute in Hs. injection Hs as <-. vm_compute in Hl. discriminate. }
  exists s, labels. split; [reflexivity|]. split; [exact Hl|].
  destruct (label_classes_kept Z.le triangle s labels Hs Hl)
    as (Hlen & _ & Hclass).
  destruct (lookup_lt_is_Some_2 labels 0) as [i0 H0]; [rewrite Hlen; simpl; lia|].
  destruct (lookup_lt_is_Some_2 labels 1) as [i1 H1]; [rewrite Hlen; simpl; lia|].
  destruct (lookup_lt_is_Some_2 labels 2) as [i2 H2]; [rewrite Hlen; simpl; lia|].
  rewrite H0, H1, H2. split.
  - f_equal. by apply (Hclass 0%nat 1%nat (0, 1, 2) (0, 2, 2) i0 i1).
  - intros [= Heq].
    by apply (Hclass 0%nat 2%nat (0, 1, 2) (1, 2, 1) i0 i2) in Heq.
Defined.

(** ** The result of [canonical_form] as a relabelled graph *)

Lemma oriented_with_label {A B} d e f (lab : A) (lab' : B) (t : Z * Z * B) :
  t.1 = (oriented d e f lab).1 → t.2 = lab' → t = oriented d e f lab'.
Proof.
  destruct t as [p l]. simpl. intros -> ->. unfold oriented.
  destruct d; [done|]. by case_bool_decide.
Qed.

Lemma NoDup_fst_functional {A B} (l : list (A * B)) x y1 y2 :
  NoDup l.*1 → (x, y1) ∈ l → (x, y2) ∈ l → y1 = y2.
Proof.
  intros Hnd [i Hi]%list_elem_of_lookup_1 [j Hj]%list_elem_of_lookup_1.
  assert (i = j) as ->; [|congruence].
  eapply (NoDup_lookup _ _ _ x Hnd); rewrite list_lookup_fmap;
    [by rewrite Hi|by rewrite Hj].
Qed.

Section Translate.
Context {V : Type} `{Countable V}.

(** Line 468 on the certificate of [canonical_form_from_edge_list]: the
    vertex at the position [k] of [G.vertices()] is sent to [aut[k]]. *)
Lemma translate_relabel_lookup (vs : list V) (f : Z → Z) l rel :
  NoDup vs →
  translate_relabel vs
    (list_to_map ((λ v, (v, f v)) <$> range (Z.of_nat (length vs))))
  = (l, inr rel) →
  (∀ (k : nat) v, vs !! k = Some v → rel !! v = Some (f (Z.of_nat k)))
  ∧ (∀ v, v ∉ vs → rel !! v = None).
Proof.
  intros Hnd. unfold translate_relabel.
  set (m := list_to_map _ : gmap Z Z).
  intros Hrun. returned.
  match goal with Hm : mapM _ _ = _ |- _ =>
    apply mapM_returned in Hm; rename Hm into Hitems end.
  match goal with |- context [list_to_map ?its] => set (items := its) in * end.
  assert (Hitem : ∀ a i j v j', map_to_list m !! a = Some (i, j) →
            items !! a = Some (v, j') →
            j' = j ∧ 0 ≤ i < Z.of_nat (length vs) ∧ j = f i
            ∧ vs !! Z.to_nat i = Some v).
  { intros a i j v j' Ha Hb.
    destruct (Forall2_lookup_l _ _ _ _ _ Hitems Ha) as (it & Hit & l' & Hsub).
    assert (it = (v, j')) as -> by congruence.
    assert (m !! i = Some j) as Hm.
    { apply elem_of_map_to_list. by eapply list_elem_of_lookup_2. }
    unfold m in Hm. rewrite certificate_lookup in Hm.
    case_bool_decide as Hi; [|done]. injection Hm as <-.
    returned. split; [done|]. split; [done|]. split; [done|].
    match goal with Hs : subscript _ _ = _ |- _ =>
      replace i with (Z.of_nat (Z.to_nat i)) in Hs by lia;
      by apply subscript_nat in Hs end. }
  assert (NoDup items.*1) as Hkeys.
  { apply NoDup_alt. intros a b v Ha Hb.
    rewrite list_lookup_fmap in Ha, Hb.
    destruct (items !! a) as [[v1 j1]|] eqn:Hia; [|done].
    destruct (items !! b) as [[v2 j2]|] eqn:Hib; [|done].
    simpl in Ha, Hb. simplify_eq.
    destruct (Forall2_lookup_r _ _ _ _ _ Hitems Hia) as ([i1 j1'] & Ha' & _).
    destruct (Forall2_lookup_r _ _ _ _ _ Hitems Hib) as ([i2 j2'] & Hb' & _).
    destruct (Hitem _ _ _ _ _ Ha' Hia) as (_ & Hr1 & _ & Hv1).
    destruct (Hitem _ _ _ _ _ Hb' Hib) as (_ & Hr2 & _ & Hv2).
    pose proof (NoDup_lookup _ _ _ _ Hnd Hv1 Hv2) as Heq.
    assert (i1 = i2) as -> by lia.
    pose proof (NoDup_fst_map_to_list m) as Hm.
    eapply (NoDup_lookup _ _ _ i2 Hm);
      rewrite list_lookup_fmap; [by rewrite Ha'|by rewrite Hb']. }
  split.
  - intros k v Hk. apply elem_of_list_to_map_1; [done|].
    assert (m !! Z.of_nat k = Some (f (Z.of_nat k))) as Hm.
    { unfold m. rewrite certificate_lookup, bool_decide_eq_true_2; [done|].
      apply lookup_lt_Some in Hk. lia. }
    apply elem_of_map_to_list, list_elem_of_lookup_1 in Hm as [a Ha].
    destruct (Forall2_lookup_l _ _ _ _ _ Hitems Ha) as ([v' j'] & Hit & _).
    destruct (Hitem _ _ _ _ _ Ha Hit) as (-> & _ & _ & Hv).
    rewrite Nat2Z.id in Hv. assert (v' = v) as -> by congruence.
    by eapply list_elem_of_lookup_2.
  - intros v Hv. apply not_elem_of_list_to_map_1.
    intros [[v' j] [-> Hin]]%list_elem_of_fmap. simpl in Hv.
    apply list_elem_of_lookup_1 in Hin as [a Ha].
    destruct (Forall2_lookup_r _ _ _ _ _ Hitems Ha) as ([i j'] & Ha' & _).
    destruct (Hitem _ _ _ _ _ Ha' Ha) as (_ & _ & _ & Hv').
    destruct Hv. by eapply list_elem_of_lookup_2.
Qed.
End Translate.

Section RelabelRank.
Context {L : Type} `{Countable L}.
Context (label_le : relation L) `{!RelDecision label_le}.
Context `{!Total label_le} `{!Transitive label_le} `{!AntiSymm (=) label_le}.

#[local] Instance key_le_total : Total (key_le label_le).
Proof. intros a b. unfold key_le. apply (total label_le). Qed.

#[local] Instance key_le_trans : Transitive (key_le label_le).
Proof. intros a b c. unfold key_le. apply transitivity. Qed.

Lemma keys_sorted (items : list (L * Z)) :
  StronglySorted (key_le label_le) items → StronglySorted label_le items.*1.
Proof.
  induction 1 as [|x items _ IH Hx]; [constructor|].
  cbn [fmap list_fmap]. constructor; [done|].
  apply Forall_fmap. eapply Forall_impl; [exact Hx|]. done.
Qed.

(** [lab_relabels[j]] is the position in [edge_labels] of the label that
    comes at the place [j] when the labels are sorted. *)
Lemma lab_relabels_rank (rev : gmap L Z) (ls : list L) j i :
  (∀ lab i, rev !! lab = Some i ↔ ∃ k : nat, i = Z.of_nat k ∧ ls !! k = Some lab) →
  NoDup ls →
  (sorted (key_le label_le) (map_to_list rev)).*2 !! j = Some i →
  ∃ (k : nat) lab, i = Z.of_nat k ∧ ls !! k = Some lab
                   ∧ sorted label_le ls !! j = Some lab.
Proof.
  intros Hrev Hnd Hj. unfold sorted in *.
  set (items := merge_sort (key_le label_le) (map_to_list rev)) in *.
  assert (items.*1 = merge_sort label_le ls) as Hkeys.
  { apply (StronglySorted_unique label_le).
    - apply keys_sorted, StronglySorted_merge_sort; apply _.
    - apply StronglySorted_merge_sort; apply _.
    - unfold items.
      rewrite !merge_sort_Permutation, (rev_items rev ls Hrev Hnd).
      by rewrite imap_fst_positions. }
  rewrite list_lookup_fmap in Hj.
  destruct (items !! j) as [[lab i']|] eqn:Hitem; [|done].
  simpl in Hj. injection Hj as ->.
  assert ((lab, i) ∈ map_to_list rev) as Hin.
  { rewrite <-(merge_sort_Permutation (key_le label_le)).
    by eapply list_elem_of_lookup_2. }
  apply elem_of_map_to_list, Hrev in Hin as (k & -> & Hk).
  exists k, lab. split; [done|]. split; [done|].
  by rewrite <-Hkeys, list_lookup_fmap, Hitem.
Qed.
End RelabelRank.

Section Relabelled.
Variable canonical_labelling : BlissGraph → Z → Z.
Context {V : Type} `{Countable V}.
Context {L : Type} `{Countable L}.
Context (label_le : relation L) `{!RelDecision label_le}.

(** The steps of a call of [canonical_form] that returns, with the
    certificate. *)
Lemma canonical_form_steps (G : SageGraph V L) partition return_graph
    certificate l res cert :
  canonical_form canonical_labelling label_le G partition return_graph
    certificate = (l, inr (res, cert)) →
  ∃ s labels new_edges relabel es rel l1 l2 l3 l4 l5,
    scan_edges G = (l1, inr s)
    ∧ relabel_labels label_le s = (l2, inr labels)
    ∧ canonical_form_from_edge_list canonical_labelling
        (int32 (Z.of_nat (length (sg_vertices G))))
        (Vout_of s) (Vin_of s) (Lnr_of s) labels partition
        (sg_directed G) true = (l3, inr (new_edges, relabel))
    ∧ decode_edges (edge_labels s) new_edges = (l4, inr es)
    ∧ translate_relabel (sg_vertices G) (default ∅ relabel) = (l5, inr rel)
    ∧ cert = (if certificate then Some rel else None)
    ∧ res = (if return_graph
             then CanonGraph
                    (add_vertices
                       (graph_of_edges (sg_directed G) es
                          (sg_loops G) (sg_multiedges G))
                       (map_img (enumerate_vertices G)))
             else CanonEdges (sorted (edge_le label_le) es)).
Proof.
  unfold canonical_form. case_bool_decide; [|done]. cbv zeta. intros Hrun.
  apply bind_returns in Hrun as (l1 & s & ? & Hs & Hrun & ->).
  apply bind_returns in Hrun as (l2 & labels & ? & Hlabels & Hrun & ->).
  apply bind_returns in Hrun as (l3 & [new_edges relabel] & ? & Hcall & Hrun & ->).
  apply bind_returns in Hrun as (l4 & es & ? & Hes & Hrun & ->).
  apply bind_returns in Hrun as (l5 & rel & ? & Hrel & Hrun & ->).
  exists s, labels, new_edges, relabel, es, rel, l1, l2, l3, l4, l5.
  split_and!; [done..| |];
    destruct return_graph; apply ret_inv in Hrun as [[= <- <-] _]; done.
Qed.

(** X14: The certificate of [canonical_form]: with [aut] the labelling that
    bliss gives for the graph built from the edges of [G], the vertex at the
    position [k] of [G.vertices()] is sent to [aut[k]], and nothing else has
    an image; vertices without edges are included. *)
Theorem certificate_follows_labelling (G : SageGraph V L) partition
    return_graph certificate res cert :
  Z.of_nat (length (sg_vertices G)) ≤ INT_MAX →
  NoDup (sg_vertices G) →
  outcome (canonical_form canonical_labelling label_le G partition
             return_graph certificate) = inr (res, cert) →
  ∃ s labels g relabel,
    outcome (scan_edges G) = inr s
    ∧ outcome (relabel_labels label_le s) = inr labels
    ∧ outcome (builder (sg_directed G) (Z.of_nat (length (sg_vertices G)))
                 (Lnr_of s) (Vout_of s) (Vin_of s) labels partition) = inr g
    ∧ cert = (if certificate then Some relabel else None)
    ∧ (∀ (k : nat) v, sg_vertices G !! k = Some v →
         relabel !! v = Some (canonical_labelling g (Z.of_nat k)))
    ∧ (∀ v, v ∉ sg_vertices G → relabel !! v = None).
Proof.
  intros Hn Hnd [l Hrun]%outcome_inr.
  apply canonical_form_steps in Hrun
    as (s & labels & new_edges & relabel & es & rel & l1 & l2 & l3 & l4 & l5
        & Hs & Hlabels & Hcall & Hes & Hrel & -> & ->).
  rewrite int32_small in Hcall by lia.
  apply cffel_returned in Hcall as (_ & g & Hg & _ & _ & _ & ->).
  simpl in Hrel.
  apply translate_relabel_lookup in Hrel as [Hin Hout]; [|done].
  exists s, labels, g, rel.
  split; [by rewrite Hs|]. split; [by rewrite Hlabels|].
  split; [by rewrite Hg|]. done.
Qed.

Context `{!Total label_le} `{!Transitive label_le} `{!AntiSymm (=) label_le}.

(** X15: What [canonical_form] makes of the edges of [G], when the labels are
    totally ordered: the result is the graph relabelled by the
    certificate, except for the labels.  Every edge [(x, y, lab)] of [G]
    gives one edge, between the images of [x] and [y] (the larger one first
    when the graph is undirected); its label is not [lab] but the label of
    the same rank: if [lab] is the [j]-th distinct label in the order of
    first occurrence, the new edge carries the [j]-th smallest label.  When
    the labels first occur in increasing order (in particular when there is
    one label) every edge keeps its label.  The edges are returned sorted,
    or in the order of [G.edges()] inside the graph under
    [return_graph]. *)
Theorem canonical_form_relabels (G : SageGraph V L) partition return_graph
    certificate res cert :
  Z.of_nat (length (sg_vertices G)) ≤ INT_MAX →
  NoDup (sg_vertices G) →
  outcome (canonical_form canonical_labelling label_le G partition
             return_graph certificate) = inr (res, cert) →
  ∃ (relabel : gmap V Z) (es : list (Z * Z * L)),
    cert = (if certificate then Some relabel else None)
    ∧ (∀ v, v ∈ sg_vertices G → is_Some (relabel !! v))
    ∧ match res with
      | CanonEdges es' => es' = sorted (edge_le label_le) es
      | CanonGraph Hg => cg_edges Hg = es
      end
    ∧ length es = length (sg_edges G)
    ∧ (∀ k x y lab, sg_edges G !! k = Some (x, y, lab) →
         ∃ (j : nat) lab',
           first_seen (sg_edges G).*2 !! j = Some lab
           ∧ sorted label_le (first_seen (sg_edges G).*2) !! j = Some lab'
           ∧ es !! k
             = Some (oriented (sg_directed G)
                       (relabel !!! x) (relabel !!! y) lab'))
    ∧ (StronglySorted label_le (first_seen (sg_edges G).*2) →
       es = (λ '(x, y, lab),
               oriented (sg_directed G) (relabel !!! x) (relabel !!! y) lab)
              <$> sg_edges G).
Proof.
  intros Hn Hnd [l Hrun]%outcome_inr.
  apply canonical_form_steps in Hrun
    as (s & labels & new_edges & relabel & es & rel & l1 & l2 & l3 & l4 & l5
        & Hs & Hlabels & Hcall & Hes & Hrel & -> & ->).
  apply scan_edges_trace in Hs as [Hlabs Hrev HL Hind Hout Hin].
  assert (NoDup (edge_labels s)) as Hndl
    by (rewrite Hlabs; apply NoDup_first_seen).
  unfold relabel_labels in Hlabels. apply mapM_returned in Hlabels.
  rewrite int32_small in Hcall by lia.
  apply cffel_returned in Hcall as (_ & g & Hg & _ & Hnew & Hlen & ->).
  simpl in Hrel.
  apply translate_relabel_lookup in Hrel as [Hrel _]; [|done].
  apply decode_edges_returned in Hes.
  set (aut := canonical_labelling g) in *.
  pose proof (Forall2_length _ _ _ Hes) as Hlen1.
  pose proof (Forall2_length _ _ _ Hout) as Hlen2.
  assert (length es = length (sg_edges G)) as Hlen3.
  { etrans; [symmetry; exact Hlen1|]. etrans; [exact Hlen|].
    symmetry. exact Hlen2. }
  assert (Hedge : ∀ k x y lab, sg_edges G !! k = Some (x, y, lab) →
    ∃ (j : nat) lab',
      edge_labels s !! j = Some lab
      ∧ sorted label_le (edge_labels s) !! j = Some lab'
      ∧ es !! k = Some (oriented (sg_directed G)
                          (rel !!! x) (rel !!! y) lab')).
  { intros k x y lab Hk.
    destruct (Forall2_lookup_l _ _ _ _ _ Hout Hk) as (a & Ha & Hx).
    destruct (Forall2_lookup_l _ _ _ _ _ Hin Hk) as (b & Hb & Hy).
    destruct (Forall2_lookup_l _ _ _ _ _ Hind Hk) as (i & Hi & j & -> & Hj).
    simpl in Hx, Hy, Hj.
    apply enumerate_vertices_lookup in Hx as (kx & Hkx & ->).
    apply enumerate_vertices_lookup in Hy as (ky & Hky & ->).
    rewrite !lookup_total_alt, (Hrel kx x Hkx), (Hrel ky y Hky). simpl.
    (* the index handed over for the edge *)
    destruct (Forall2_lookup_l _ _ _ _ _ Hlabels Hi) as (i' & Hi' & l' & Hsub).
    apply subscript_nat in Hsub.
    destruct (lab_relabels_rank label_le _ _ _ _ Hrev Hndl Hsub)
      as (r & lab' & -> & Hr & Hrank).
    exists j, lab'. split; [done|]. split; [done|].
    destruct (bind_seq_lookup
                (new_edge_at aut (sg_directed G) (Lnr_of s)
                   (Vout_of s) (Vin_of s) labels)
                (length (Vout_of s)) k) as (e & He & Hl).
    { intros k'. unfold new_edge_at.
      destruct (Vout_of s !! k'), (Vin_of s !! k'),
        (out_label (Lnr_of s) labels k'); simpl; lia. }
    { by rewrite <-Hnew. }
    { by apply lookup_lt_Some in Ha. }
    rewrite <-Hnew in Hl. unfold new_edge_at in He. rewrite Ha, Hb in He.
    destruct (out_label (Lnr_of s) labels k) as [olab|] eqn:Holab; [|done].
    injection He as <-.
    destruct (Forall2_lookup_l _ _ _ _ _ Hes Hl)
      as (e' & He' & Hfst & l'' & Hdec).
    rewrite He'. f_equal. eapply oriented_with_label; [exact Hfst|].
    rewrite oriented_label in Hdec.
    assert (olab = Some (Z.of_nat r)) as ->.
    { unfold out_label in Holab. case_bool_decide as H1.
      - (* one label: the index of the first edge is that of every edge *)
        injection Holab as <-.
        assert (length (edge_labels s) = 1%nat) as Hone by lia.
        assert (j = 0%nat) as -> by (apply lookup_lt_Some in Hj; lia).
        destruct (sg_edges G) as [|e0 edges'] eqn:Hedges; [done|].
        apply Forall2_cons_inv_l in Hind
          as (i0 & rest & (j0 & -> & Hj0) & _ & Hlabs0).
        assert (j0 = 0%nat) as -> by (apply lookup_lt_Some in Hj0; lia).
        rewrite Hlabs0 in Hlabels.
        apply Forall2_cons_inv_l in Hlabels
          as (i1 & rest' & (l0 & Hsub0) & _ & ->).
        apply subscript_nat in Hsub0. simpl. congruence.
      - rewrite Hi' in Holab. by injection Holab as <-. }
    cbn [decode_label] in Hdec. apply subscript_nat in Hdec. congruence. }
  exists rel, es. split; [done|]. split.
  { intros v [k Hk]%list_elem_of_lookup_1. rewrite (Hrel k v Hk). by eexists. }
  split; [by destruct return_graph|]. split; [done|]. split.
  { intros k x y lab Hk. rewrite <-Hlabs. by apply Hedge. }
  intros Hsorted. rewrite <-Hlabs in Hsorted.
  assert (sorted label_le (edge_labels s) = edge_labels s) as Hsame.
  { unfold sorted. apply (StronglySorted_unique label_le);
      [apply StronglySorted_merge_sort; apply _|done|
       apply merge_sort_Permutation]. }
  apply list_eq. intros k. rewrite list_lookup_fmap.
  destruct (sg_edges G !! k) as [[[x y] lab]|] eqn:Hk; simpl.
  - destruct (Hedge k x y lab Hk) as (j & lab' & Hj & Hrank & ->).
    rewrite Hsame in Hrank. congruence.
  - apply lookup_ge_None in Hk. apply lookup_ge_None. lia.
Qed.
End Relabelled.

Lemma certificate_follows_labelling_witness :
  ∃ res relabel,
    outcome (canonical_form identity_labelling Z.le (edgeless 3) None
               false true) = inr (res, Some relabel)
    ∧ relabel !! 2 = Some 2 ∧ relabel !! 3 = None.
Proof.
  destruct (outcome (canonical_form identity_labelling Z.le (edgeless 3) None
                       false true)) as [e|[res cert]] eqn:Hrun.
  { vm_compute in Hrun. discriminate. }
  destruct (certificate_follows_labelling identity_labelling Z.le
              (edgeless 3) None false true res cert)
    as (s & labels & g & relabel & _ & _ & _ & -> & Hin & Hout).
  - unfold INT_MAX. simpl. lia.
  - apply NoDup_seqZ.
  - exact Hrun.
  - exists res, relabel. split; [reflexivity|]. split.
    + exact (Hin 2%nat 2 eq_refl).
    + apply Hout. compute_done.
Defined.

Lemma canonical_form_relabels_witness :
  ∃ es relabel,
    outcome (canonical_form identity_labelling Z.le triangle None
               true true) = inr (CanonGraph es, Some relabel)
    ∧ (sg_edges triangle).*2 = [2; 2; 1]
    ∧ (cg_edges es).*2 = [1; 1; 2].
Proof.
  destruct (outcome (canonical_form identity_labelling Z.le triangle
                       None true true)) as [e|[res cert]] eqn:Hrun.
  { vm_compute in Hrun. discriminate. }
  destruct (canonical_form_relabels identity_labelling Z.le
              triangle None true true res cert)
    as (relabel & es & -> & _ & Hres & Hlen & Hedge & _).
  - unfold INT_MAX. simpl. lia.
  - compute_done.
  - exact Hrun.
  - destruct res as [es'|Hg]; [vm_compute in Hrun; discriminate|].
    exists Hg, relabel. split; [reflexivity|]. split; [reflexivity|].
    rewrite Hres.
    destruct (Hedge 0%nat 0 1 2 eq_refl) as (j0 & l0 & Hj0 & Hr0 & He0).
    destruct (Hedge 1%nat 0 2 2 eq_refl) as (j1 & l1 & Hj1 & Hr1 & He1).
    destruct (Hedge 2%nat 1 2 1 eq_refl) as (j2 & l2 & Hj2 & Hr2 & He2).
    destruct j0 as [|[|j0]]; [|discriminate Hj0|discriminate Hj0].
    destruct j1 as [|[|j1]]; [|discriminate Hj1|discriminate Hj1].
    destruct j2 as [|[|j2]]; [discriminate Hj2| |discriminate Hj2].
    injection Hr0 as <-. injection Hr1 as <-. injection Hr2 as <-.
    destruct es as [|e0 [|e1 [|e2 [|e3 es]]]]; try discriminate Hlen.
    injection He0 as ->. injection He1 as ->. injection He2 as ->.
    cbn [fmap list_fmap]. by repeat case_bool_decide.
Defined.

(** ** The order of the cycles *)

Section CycleOrder.
Context {V : Type}.
Variable n : nat.
Variable aut : list nat.
Variable int_to_vertex : gmap nat V.
Hypothesis Hperm : is_permutation n aut.
Hypothesis Hnames : ∀ i, (i < n)%nat → is_Some (int_to_vertex !! i).

(** The outer loop again, with the order in which the cycles are found:
    each cycle starts at its least point, which is the least point not in
    an earlier cycle. *)
Lemma cycles_ordered inner fuel :
  (n ≤ inner)%nat →
  ∀ cur done idx perm,
    length done = n → (cur ≤ n)%nat →
    (∀ i, (i < cur)%nat → marked done i) →
    (∀ i, marked done i ↔ i ∈ mjoin idx) →
    (∀ i a, aut !! i = Some a → marked done a → marked done i) →
    NoDup (mjoin idx) → Forall (cycle_of aut) idx →
    Forall2 (named int_to_vertex) idx perm →
    Forall (λ c, ∃ m, head c = Some m ∧ (m ≤ cur)%nat
                      ∧ Forall (λ i, (m ≤ i)%nat) c) idx →
    StronglySorted lt (omap head idx) →
    (n + 1 ≤ fuel + cur ∨ marked done cur ∧ n ≤ fuel + cur)%nat →
    ∃ idx' perm',
      cycles inner fuel n aut int_to_vertex cur done perm = Returns perm'
      ∧ NoDup (mjoin idx')
      ∧ (∀ i, i ∈ mjoin idx' ↔ (i < n)%nat)
      ∧ Forall (cycle_of aut) idx'
      ∧ Forall2 (named int_to_vertex) idx' perm'
      ∧ Forall (λ c, ∃ m, head c = Some m ∧ Forall (λ i, (m ≤ i)%nat) c) idx'
      ∧ StronglySorted lt (omap head idx').
Proof.
  intros Hinner. induction fuel as [|fuel IH];
    intros cur done idx perm Hlen Hcur Hbelow Hmarked Hclosed Hnd Hcyc Hnamed
      Hleast Hsorted Hfuel.
  { destruct Hfuel as [?|[Hm%lookup_lt_Some ?]]; lia. }
  cbn [cycles].
  destruct (next_undone_spec n done (n - cur) cur Hlen ltac:(lia))
    as (Hle & Hskipped & Hundone).
  set (cur' := next_undone (n - cur) cur done) in *.
  assert (∀ i, (i < cur')%nat → marked done i) as Hbelow'.
  { intros i Hi. destruct (decide (i < cur)%nat); [by apply Hbelow|].
    apply Hskipped. lia. }
  case_bool_decide as Hend.
  - exists idx, perm. split_and!; try done.
    + intros i. rewrite <-Hmarked. split.
      * intros Hi%lookup_lt_Some. lia.
      * intros Hi. apply Hbelow'. lia.
    + eapply Forall_impl; [exact Hleast|]. intros c (m & Hm & _ & Hc).
      by exists m.
  - assert (cur' < n)%nat as Hlt by lia. specialize (Hundone Hlt).
    destruct (Hnames cur' Hlt) as [v Hv]. rewrite Hv.
    destruct (follow_closes n aut int_to_vertex Hperm Hnames
                (λ i, i ∈ mjoin idx) inner cur'
                ltac:(intros i a; rewrite <-!Hmarked; apply Hclosed)
                cur' (<[cur':=true]> done) [cur'] [v])
      as (done' & c' & cv' & -> & Hlen' & Hhead' & Hcycle' & Hnd' & Hlt'
          & Hnamed' & Hmarked' & Hnew').
    { simpl. lia. }
    { by rewrite length_insert. }
    { done. }
    { done. }
    { apply chain_singleton. }
    { apply NoDup_singleton. }
    { by apply Forall_singleton. }
    { by apply Forall2_cons. }
    { intros i. unfold marked. rewrite list_elem_of_singleton, <-Hmarked.
      destruct (decide (i = cur')) as [->|Hne].
      - rewrite list_lookup_insert_eq by lia. tauto.
      - rewrite list_lookup_insert_ne by done. unfold marked. tauto. }
    { intros i ->%list_elem_of_singleton. by rewrite <-Hmarked. }
    assert (cur' ∈ c') as Hin'.
    { rewrite head_lookup in Hhead'. by eapply list_elem_of_lookup_2. }
    assert (Hearlier : Forall (λ c, ∃ m, head c = Some m ∧ (m < cur')%nat
                                    ∧ Forall (λ i, (m ≤ i)%nat) c) idx).
    { apply Forall_forall. intros c Hc. rewrite Forall_forall in Hleast.
      destruct (Hleast c Hc) as (m & Hm & Hmc & Hall).
      exists m. split; [done|]. split; [|done].
      assert (marked done m) as Hmm.
      { apply Hmarked, list_elem_of_join. exists c. split; [|done].
        rewrite head_lookup in Hm. by eapply list_elem_of_lookup_2. }
      assert (m ≠ cur') by (intros ->; done). lia. }
    apply (IH cur' done' (idx ++ [c']) (perm ++ [cv'])).
    + done.
    + lia.
    + intros i Hi. apply Hmarked'. left. apply Hmarked. by apply Hbelow'.
    + intros i. rewrite Hmarked', join_app, elem_of_app. simpl.
      by rewrite app_nil_r.
    + intros i a Ha. rewrite !Hmarked'.
      apply (closed_after_cycle n aut Hperm (λ i, i ∈ mjoin idx)); [|done..].
      intros j b. rewrite <-!Hmarked. apply Hclosed.
    + rewrite join_app. simpl. rewrite app_nil_r. apply NoDup_app.
      split; [done|]. split; [|done]. intros i Hi Hi'. by apply (Hnew' i).
    + apply Forall_app. split; [done|]. by apply Forall_singleton.
    + apply Forall2_app; [done|]. by apply Forall2_cons.
    + apply Forall_app. split.
      * eapply Forall_impl; [exact Hearlier|]. intros c (m & Hm & ? & Hc).
        exists m. split; [done|]. split; [lia|done].
      * apply Forall_singleton. exists cur'. split; [done|]. split; [lia|].
        apply Forall_forall. intros i Hi.
        destruct (decide (cur' ≤ i)%nat); [done|].
        destruct (Hnew' i Hi). apply Hmarked, Hbelow'. lia.
    + rewrite omap_app. simpl. rewrite Hhead'. simpl.
      apply StronglySorted_app_2; [|exact Hsorted|repeat constructor].
      intros m m' Hm ->%list_elem_of_singleton.
      apply list_elem_of_omap in Hm as (c & Hc & Hm).
      rewrite Forall_forall in Hearlier.
      destruct (Hearlier c Hc) as (m' & Hm' & ? & _). congruence.
    + right. split; [apply Hmarked'; by right|].
      destruct Hfuel as [?|[Hm ?]]; [lia|].
      assert (cur' ≠ cur) by congruence. lia.
Qed.
End CycleOrder.

(** X16: The order in which [add_gen] writes a permutation [aut] of
    [0 ... n-1]: every cycle starts at its least point, and the cycles are
    listed by increasing first point; so the first cycle starts at [0]
    and every point but the first of a cycle is larger than the first. *)
Theorem add_gen_cycle_order {V} (fuel : nat) (gens : list (list (list V)))
    (int_to_vertex : gmap nat V) (n : nat) (aut : list nat) :
  is_permutation n aut →
  Z.of_nat n ≤ INT_MAX →
  (∀ i, (i < n)%nat → is_Some (int_to_vertex !! i)) →
  (n < fuel)%nat →
  ∃ idx perm,
    add_gen fuel (gens, int_to_vertex) n aut = Returns (gens ++ [perm])
    ∧ Forall2 (named int_to_vertex) idx perm
    ∧ Forall (cycle_of aut) idx
    ∧ (∀ i, i ∈ mjoin idx ↔ (i < n)%nat)
    ∧ Forall (λ c, ∃ m, head c = Some m ∧ Forall (λ i, (m ≤ i)%nat) c) idx
    ∧ StronglySorted lt (omap head idx).
Proof.
  intros Hperm _ Hnames Hfuel.
  destruct (cycles_ordered n aut int_to_vertex Hperm Hnames fuel fuel
              ltac:(lia) 0%nat (replicate n false) [] [])
    as (idx & perm & Hrun & Hnd & Hcover & Hcyc & Hnamed & Hleast & Hsorted).
  { apply length_replicate. }
  { lia. }
  { intros; lia. }
  { intros i. unfold marked. split; [|by intros ?%elem_of_nil].
    intros [? _]%lookup_replicate. done. }
  { intros i a _ [? _]%lookup_replicate. done. }
  { constructor. }
  { constructor. }
  { constructor. }
  { constructor. }
  { constructor. }
  { left. lia. }
  exists idx, perm. unfold add_gen. rewrite Hrun. done.
Qed.

Lemma add_gen_cycle_order_witness :
  ∃ idx,
    add_gen 4 ([], path_names) 3 path_flip = Returns [[[10; 12]; [11]]]
    ∧ Forall2 (named path_names) idx [[10; 12]; [11]]
    ∧ StronglySorted lt (omap head idx).
Proof.
  destruct (add_gen_cycle_order 4 [] path_names 3 path_flip)
    as (idx & perm & Hrun & Hnamed & _ & _ & _ & Hsorted).
  - split; [reflexivity|]. split; compute_done.
  - unfold INT_MAX. lia.
  - intros i Hi. destruct i as [|[|[|i]]]; [by eexists..|lia].
  - lia.
  - exists idx. split; [reflexivity|].
    injection Hrun as <-. split; [exact Hnamed|exact Hsorted].
Defined.

(** ** Directed graphs and the number of labels *)

Section DirectedLabels.
Variable canonical_labelling : BlissGraph → Z → Z.
Context {V : Type} `{Countable V}.
Context {L : Type} `{Countable L}.
Context (label_le : relation L) `{!RelDecision label_le}.

(** The lists that [canonical_form] hands to
    [canonical_form_from_edge_list] for a well-formed graph are valid
    input. *)
Lemma canonical_form_input (G : SageGraph V L) partition :
  well_formed G partition →
  let n := Z.of_nat (length (sg_vertices G)) in
  ∃ s labels,
    scan_edges G = ([], inr s)
    ∧ relabel_labels label_le s = ([], inr labels)
    ∧ scan_inv n s
    ∧ 0 ≤ n ≤ INT_MAX
    ∧ valid_input n (Lnr_of s) (Vout_of s) (Vin_of s) labels
        (default_partition n partition).
Proof.
  intros Hwf n. pose proof Hwf as [Hends Horder Hsize Hcells Hpart].
  fold n in Horder, Hcells, Hpart.
  assert (Hn : 0 ≤ n ≤ INT_MAX)
    by (unfold n, MAX_LAYERS, UINT_MAX, INT_MAX in *; lia).
  destruct (scan_edges_returns G partition Hwf) as (s & Hs & Hinv & Hlen).
  destruct (relabel_labels_returns label_le n s Hinv)
    as (labels & Hlabels & Hllen & Hlrange).
  pose proof Hinv as [HL Hrsize Hrev _ Hout Hin Hlin Hllab Hcount].
  assert (HLnr : 0 ≤ Lnr_of s ≤ INT_MAX) by (rewrite Hlen in Hcount; lia).
  pose proof (bit_layers_bound _ HLnr) as Hb.
  pose proof (bit_layers_pos (Lnr_of s)) as Hb1.
  exists s, labels. split; [done|]. split; [done|]. split; [done|].
  split; [done|].
  constructor; try done; try nia. intros _. split; [congruence|done].
Qed.



End DirectedLabels.


(** ** The two ways to a bliss graph *)

Section EntryPoints.
Context {V : Type} `{Countable V}.
Context {L : Type} `{Countable L}.
Context (label_le : relation L) `{!RelDecision label_le}.

(** X18: For a well-formed graph with at most one label and no partition,
    [canonical_form] and [automorphism_group] hand the same graph to
    bliss: the graph that the builder makes from the lists of
    [canonical_form] and the graph of [bliss_graph] or [bliss_digraph] have
    the same class, the same number of vertices and the same edges in the
    same order.  They differ in the colour calls only: the builder gives
    every vertex the colour [0], the copy makes no call. *)
Theorem entry_points_agree (G : SageGraph V L) :
  well_formed G None → NoDup (sg_vertices G) →
  (length (first_seen (sg_edges G).*2) ≤ 1)%nat →
  ∃ s labels g g' v2i i2v,
    outcome (scan_edges G) = inr s
    ∧ outcome (relabel_labels label_le s) = inr labels
    ∧ outcome (builder (sg_directed G) (Z.of_nat (length (sg_vertices G)))
                 (Lnr_of s) (Vout_of s) (Vin_of s) labels None) = inr g
    ∧ outcome (if sg_directed G then bliss_digraph G None ∅ ∅
               else bliss_graph G None ∅ ∅) = inr (g', v2i, i2v)
    ∧ is_digraph g = is_digraph g'
    ∧ nvertices g = nvertices g'
    ∧ edges g = edges g'
    ∧ colors g = (λ v, (v, 0)) <$> range (Z.of_nat (length (sg_vertices G)))
    ∧ colors g' = [].
Proof.
  intros Hwf Hnd Hone.
  destruct (canonical_form_input label_le G None Hwf)
    as (s & labels & Hs & Hlabels & Hinv & Hn & Hvalid).
  set (n := Z.of_nat (length (sg_vertices G))) in *.
  pose proof (scan_edges_trace G _ _ Hs) as [Hlabs Hrev HL Hind Hout Hin].
  assert (Lnr_of s ≤ 1) as HLnr by (rewrite HL, Hlabs; lia).
  destruct (from_labelled_edges_returns (sg_directed G)
              (if sg_directed G then λ lab _, binary_repr lab None
               else λ lab logLnr, binary_repr lab (Some logLnr))
              n (Lnr_of s) (Vout_of s) (Vin_of s) labels None Hvalid)
    as [g Hg]; [intros lab ?; lia|].
  pose proof Hg as (_ & Hd & Hsize & He & Hc)%from_labelled_edges_returned.
  rewrite <-builder_unfold in Hg.
  assert (copyable G None) as Hcopy.
  { destruct Hwf as [Hends Horder _ _ _]. constructor; [|done|done].
    unfold MAX_LAYERS in Horder. lia. }
  destruct (graph_copy_returns (sg_directed G) G None ∅ ∅ Hcopy)
    as (g' & v2i & i2v & Hrun & Hrec & Hd' & Hn' & _ & He' & Hc').
  rewrite record_labelling_empty in Hrec. injection Hrec as -> ->.
  exists s, labels, g, g', (enumerate_vertices G),
    (int2vert_of (sg_vertices G)).
  split; [by rewrite Hs|]. split; [by rewrite Hlabels|].
  split; [by rewrite Hg|]. split.
  { unfold bliss_digraph, bliss_graph.
    destruct (sg_directed G); by rewrite Hrun. }
  split; [congruence|]. split.
  { rewrite Hsize, Hn', (layered_size_valid _ _ _ _ _ _ Hvalid).
    case_bool_decide; [done|].
    assert (Lnr_of s = 0) as -> by (destruct Hvalid; lia).
    rewrite bit_layers_0. lia. }
  split; [|split].
  - rewrite He, He', (input_edges_plain _ _ _ _ _ _ _ Hvalid HLnr).
    assert (chain_edges n (Lnr_of s) = []) as ->.
    { unfold chain_edges. case_bool_decide; [done|].
      assert (Lnr_of s = 0) as -> by (destruct Hvalid; lia).
      rewrite bit_layers_0. simpl. by rewrite list_bind_nil. }
    simpl. unfold numbered_edges. apply list_eq. intros k.
    rewrite list_lookup_fmap, lookup_zip_with.
    destruct (sg_edges G !! k) as [[[x y] lab]|] eqn:Hk; simpl.
    + destruct (Forall2_lookup_l _ _ _ _ _ Hout Hk) as (a & -> & Hx).
      destruct (Forall2_lookup_l _ _ _ _ _ Hin Hk) as (b & -> & Hy).
      simpl in *. by rewrite !lookup_total_alt, Hx, Hy.
    + apply lookup_ge_None in Hk. apply Forall2_length in Hout.
      rewrite (lookup_ge_None_2 (Vout_of s)) by lia. done.
  - rewrite Hc, (partition_colours_plain _ _ _ _ _ _ Hvalid HLnr).
    unfold plain_colours, default_partition. simpl. by rewrite app_nil_r.
  - by rewrite Hc'.
Qed.
End EntryPoints.

Lemma entry_points_agree_witness :
  ∃ g g' v2i i2v,
    outcome (bliss_graph_from_labelled_edges 3 1 [0; 1] [1; 2] [0; 0] None)
    = inr g
    ∧ outcome (bliss_graph path None ∅ ∅) = inr (g', v2i, i2v)
    ∧ edges g = edges g' ∧ nvertices g = nvertices g'.
Proof.
  destruct (entry_points_agree Z.le path)
    as (s & labels & g & g' & v2i & i2v & Hs & Hlabels & Hg & Hg'
        & _ & Hn & He & _).
  - constructor; compute_done.
  - compute_done.
  - simpl. lia.
  - vm_compute in Hs. injection Hs as <-.
    vm_compute in Hlabels. injection Hlabels as <-.
    exists g, g', v2i, i2v.
    split; [exact Hg|]. split; [exact Hg'|]. split; [exact He|exact Hn].
Defined.
